(** * The HIGC tournament referee (open_spiel/higc/referee.cc, utils.cc)

    A shallow embedding of the referee: the bot channel and its stdout
    reader, the error counters, the per-turn protocol of [PlayMatch], the
    restart and disqualification policy of [PlayTournament] and the
    tournament statistics.

    Conventions.
    - C++ [int] counters are [Z]; signed overflow is undefined behaviour and
      would need 2^31 events, so the counters are left unbounded.  The one
      place where a width matters, [int action = strtol(...)], writes the
      narrowing out.
    - [double] values (returns, means, the disqualification rate) are exact
      rationals [Q], compared with [==].  The one product whose rounding
      decides something, the corruption threshold, is rounded as a [double]
      is; see [round_double].
    - A [std::vector] indexed by a player is a [list]; an index out of range
      or a null pointer, undefined behaviour in the source, stops the run
      with [Fatal].
    - The referee is one thread.  What the reader threads and the bots do
      while the referee sleeps is given by a script [bots]; see [Outcome],
      [sleep_ms] and [CancelReadBlocking]. *)

From Stdlib Require Import ZArith QArith Qround Qabs String Ascii List Bool Lia.
From Stdlib Require Import DecimalString DecimalPos DecimalZ.
From stdpp Require Import base list strings.
Import ListNotations.

Local Open Scope string_scope.
Local Open Scope Z_scope.

(** ** Error counters (struct BotErrors) *)

Record BotErrors := mkBotErrors {
  protocol_error : Z;
  illegal_actions : Z;
  ponder_error : Z;
  time_over : Z
}.

(** [BotErrors()] and [BotErrors::Reset]. *)
Definition Reset : BotErrors := mkBotErrors 0 0 0 0.

Definition total_errors (e : BotErrors) : Z :=
  protocol_error e + illegal_actions e + ponder_error e + time_over e.

Definition inc_protocol_error (e : BotErrors) : BotErrors :=
  mkBotErrors (protocol_error e + 1) (illegal_actions e) (ponder_error e) (time_over e).
Definition inc_illegal_actions (e : BotErrors) : BotErrors :=
  mkBotErrors (protocol_error e) (illegal_actions e + 1) (ponder_error e) (time_over e).
Definition inc_ponder_error (e : BotErrors) : BotErrors :=
  mkBotErrors (protocol_error e) (illegal_actions e) (ponder_error e + 1) (time_over e).
Definition inc_time_over (e : BotErrors) : BotErrors :=
  mkBotErrors (protocol_error e) (illegal_actions e) (ponder_error e) (time_over e + 1).

(** ** Special messages *)

Definition kReadyMessage : string := "ready".
Definition kStartMessage : string := "start".
Definition kPonderMessage : string := "ponder".
Definition kMatchOverMessage : string := "match over".
Definition kTournamentOverMessage : string := "tournament over".

Definition nl : ascii := "010"%char.
Definition endl : string := String nl EmptyString.

(** ** The bot channel (class BotChannel)

    [stdin_] is everything the referee has written to the write end of the
    child's standard input, [executable_] the program that [MakeBotChannel]
    spawned. *)

Record BotChannel := mkBotChannel {
  bot_index_ : nat;
  executable_ : string;
  stdin_ : string;
  response_ : string;
  buf_ : string;
  shutdown_ : bool;
  wait_for_message_ : bool;
  time_limit_ : Z;
  time_out_ : bool;
  cancel_read_ : bool
}.

Definition set_stdin (v : string) (c : BotChannel) : BotChannel :=
  mkBotChannel (bot_index_ c) (executable_ c) v (response_ c) (buf_ c)
    (shutdown_ c) (wait_for_message_ c) (time_limit_ c) (time_out_ c) (cancel_read_ c).
Definition set_response (v : string) (c : BotChannel) : BotChannel :=
  mkBotChannel (bot_index_ c) (executable_ c) (stdin_ c) v (buf_ c)
    (shutdown_ c) (wait_for_message_ c) (time_limit_ c) (time_out_ c) (cancel_read_ c).
Definition set_buf (v : string) (c : BotChannel) : BotChannel :=
  mkBotChannel (bot_index_ c) (executable_ c) (stdin_ c) (response_ c) v
    (shutdown_ c) (wait_for_message_ c) (time_limit_ c) (time_out_ c) (cancel_read_ c).
Definition set_shutdown (v : bool) (c : BotChannel) : BotChannel :=
  mkBotChannel (bot_index_ c) (executable_ c) (stdin_ c) (response_ c) (buf_ c)
    v (wait_for_message_ c) (time_limit_ c) (time_out_ c) (cancel_read_ c).
Definition set_wait_for_message (v : bool) (c : BotChannel) : BotChannel :=
  mkBotChannel (bot_index_ c) (executable_ c) (stdin_ c) (response_ c) (buf_ c)
    (shutdown_ c) v (time_limit_ c) (time_out_ c) (cancel_read_ c).
Definition set_time_limit (v : Z) (c : BotChannel) : BotChannel :=
  mkBotChannel (bot_index_ c) (executable_ c) (stdin_ c) (response_ c) (buf_ c)
    (shutdown_ c) (wait_for_message_ c) v (time_out_ c) (cancel_read_ c).
Definition set_time_out (v : bool) (c : BotChannel) : BotChannel :=
  mkBotChannel (bot_index_ c) (executable_ c) (stdin_ c) (response_ c) (buf_ c)
    (shutdown_ c) (wait_for_message_ c) (time_limit_ c) v (cancel_read_ c).
Definition set_cancel_read (v : bool) (c : BotChannel) : BotChannel :=
  mkBotChannel (bot_index_ c) (executable_ c) (stdin_ c) (response_ c) (buf_ c)
    (shutdown_ c) (wait_for_message_ c) (time_limit_ c) (time_out_ c) v.

(** [MakeBotChannel]: a fresh channel on a freshly spawned process.  The
    reader parks until the first [StartRead], so [wait_for_message_] starts
    true (the check in [StartRead] needs it). *)
Definition MakeBotChannel (bot_index : nat) (executable : string) : BotChannel :=
  mkBotChannel bot_index executable "" "" "" false true 0 false false.

(** Accessors of the channel. *)
Definition is_time_out (c : BotChannel) : bool := time_out_ c.
Definition response (c : BotChannel) : string := response_ c.

(** Modelled from the spec: the accessor [has_read] is declared in
    referee.h, which is not among the sources.  The spec's channel state
    has no flag for it: [response] is "the most recent complete line
    received (string; empty if none)", and [has_read] is "true iff a full
    line was received during the current cycle"; so a line has been read
    exactly when the response slot is not empty. *)
Definition has_read (c : BotChannel) : bool :=
  negb (String.eqb (response_ c) "").

(** [write(chn->in(), s, n)]. *)
Definition write_in (s : string) (c : BotChannel) : BotChannel :=
  set_stdin (stdin_ c +:+ s) c.

(** ** Reading a line without blocking (getline_async)

    One call of [read(read_fd, &c, 1)] gives one character, 0 at the end
    of the file (the other end of the pipe is closed), or -1 (an error; on
    a descriptor that does not block, also a pipe that is empty for now).
    The descriptor is the list of what the successive calls give, from now
    on; a call on the exhausted list gives 0.  The loop stops on a newline
    or on a 0 only: on -1 it reads again. *)

Inductive ReadResult :=
| ReadChar (c : ascii)
| ReadNothing
| ReadError.

(** The do-while loop: it goes on while [chars_read != 0 && !line_read].
    Result: [line_read], [line_out], [buf] and what is left to read. *)
Fixpoint getline_loop (fd : list ReadResult) (line_out buf : string)
  : bool * string * string * list ReadResult :=
  match fd with
  | [] => (false, line_out, buf, [])
  | ReadNothing :: fd' => (false, line_out, buf, fd')
  | ReadError :: fd' => getline_loop fd' line_out buf
  | ReadChar c :: fd' =>
      if Ascii.eqb c nl then (true, buf, "", fd')
      else getline_loop fd' line_out (buf +:+ String c "")
  end.

(** [line_out.clear()] comes first, whatever [line_out] held. *)
Definition getline_async (fd : list ReadResult) (line_out buf : string)
  : bool * string * string * list ReadResult :=
  getline_loop fd "" buf.

(** ** The stdout reader (ReadLineFromChannelStdout)

    One poll is one evaluation of the condition of the inner while loop.
    What the reader sees at a poll, besides the pipe: the time elapsed since
    the cycle began, and whether the referee has meanwhile called
    [CancelReadBlocking] or [ShutDown]. *)

Record Poll := mkPoll {
  p_elapsed : Z;
  p_cancel : bool;
  p_shutdown : bool
}.

Inductive CycleEnd :=
| Parked      (* left the loop; wait_for_message_ = true *)
| Exited      (* return on shutdown_ *)
| Polling.    (* still in the loop after the given polls *)

(** The flags the referee may have set since the poll before.  [ShutDown]
    sets both, one after the other, so the reader may see [shutdown_]
    alone. *)
Definition referee_flags (p : Poll) (c : BotChannel) : BotChannel :=
  let c := if p_cancel p then set_cancel_read true c else c in
  if p_shutdown p then set_shutdown true c else c.

(** The inner loop, from the lock to [wait_for_message_ = true]:
    [while (!getline_async(out, response_, buf_)
            && !(time_out_ = time_elapsed(time_start) > time_limit_)
            && !cancel_read_) { sleep_ms(1); if (shutdown_) return; }] *)
Fixpoint read_cycle (polls : list Poll) (fd : list ReadResult) (c : BotChannel)
  : CycleEnd * BotChannel * list ReadResult :=
  match polls with
  | [] => (Polling, c, fd)
  | p :: polls' =>
      let c := referee_flags p c in
      let '(line_read, line_out, buf, fd) :=
        getline_async fd (response_ c) (buf_ c) in
      let c := set_buf buf (set_response line_out c) in
      if line_read then (Parked, set_wait_for_message true c, fd)
      else
        let c := set_time_out (Z.ltb (time_limit_ c) (p_elapsed p)) c in
        if time_out_ c then (Parked, set_wait_for_message true c, fd)
        else if cancel_read_ c then (Parked, set_wait_for_message true c, fd)
        else if shutdown_ c then (Exited, c, fd)
        else read_cycle polls' fd c
  end.

(** [BotChannel::StartRead] without its two checks (see [StartRead] of the
    referee for them). *)
Definition start_read (time_limit : Z) (c : BotChannel) : BotChannel :=
  set_wait_for_message false
    (set_cancel_read false (set_time_out false (set_time_limit time_limit c))).

(** [BotChannel::ShutDown]. *)
Definition ShutDown (c : BotChannel) : BotChannel :=
  set_cancel_read true (set_shutdown true c).

(** How a read cycle goes, as the referee finds the channel afterwards.
    [getline_async] returns on a newline or at the end of the file, and on
    nothing else; the reader looks at the clock and at [cancel_read_] only
    between two calls of it.
    - [Line l]: the bot writes the line [l].  The cycle ends with [l] in
      [response_] and [time_out_] false, whether the newline comes before
      the deadline or after it.
    - [TimedOut], [NoLine]: the output of the bot is at its end (the bot
      closed it, or is gone), so that [getline_async] returns false at once.
      The cycle ends when the deadline has passed ([response_] empty,
      [time_out_] true), or when the referee cancels the read before that
      ([response_] empty, [time_out_] false).
    - [Silent]: the bot is alive and writes no newline.  The reader stays
      inside [getline_async], which has cleared [response_]; it holds
      [mx_read], and the cycle does not end. *)
Inductive Outcome :=
| Line (l : string)
| TimedOut
| NoLine
| Silent.

Definition commit_outcome (o : Outcome) (c : BotChannel) : BotChannel :=
  match o with
  | Line l => set_wait_for_message true (set_time_out false (set_response l c))
  | TimedOut => set_wait_for_message true (set_time_out true (set_response "" c))
  | NoLine => set_wait_for_message true (set_time_out false (set_response "" c))
  | Silent => set_response "" c
  end.

(** ** Parsing an action: strtol(response.c_str(), &end, 10)

    [c_str] ends at the first NUL.  [strtol] skips white space, takes an
    optional sign and then decimal digits; without a digit nothing is
    converted and [end] is the start of the string.  The value saturates at
    the bounds of [long] (64 bits), and the assignment to [int action] keeps
    its low 32 bits. *)

Fixpoint c_str (s : string) : string :=
  match s with
  | EmptyString => EmptyString
  | String c s' => if Ascii.eqb c "000"%char then EmptyString else String c (c_str s')
  end.

Definition isspace (c : ascii) : bool :=
  let n := N_of_ascii c in
  (N.eqb n 32 || (N.leb 9 n && N.leb n 13))%bool.

Definition digit_of (c : ascii) : option Z :=
  let n := Z.of_N (N_of_ascii c) in
  if (48 <=? n) && (n <=? 57) then Some (n - 48) else None.

Fixpoint skip_spaces (s : string) : string :=
  match s with
  | String c s' => if isspace c then skip_spaces s' else s
  | EmptyString => EmptyString
  end.

(** The digits: the value so far, whether a digit was seen, the rest. *)
Fixpoint read_digits (s : string) (acc : Z) (seen : bool) : Z * bool * string :=
  match s with
  | String c s' =>
      match digit_of c with
      | Some d => read_digits s' (10 * acc + d) true
      | None => (acc, seen, s)
      end
  | EmptyString => (acc, seen, EmptyString)
  end.

Definition LONG_MAX : Z := 2 ^ 63 - 1.
Definition LONG_MIN : Z := - 2 ^ 63.

Definition clamp_long (z : Z) : Z :=
  if z <? LONG_MIN then LONG_MIN else if LONG_MAX <? z then LONG_MAX else z.

(** The value and the string at [end]. *)
Definition strtol (nptr : string) : Z * string :=
  let s := skip_spaces nptr in
  let '(neg, s1) :=
    match s with
    | String "-" s' => (true, s')
    | String "+" s' => (false, s')
    | _ => (false, s)
    end in
  let '(v, seen, rest) := read_digits s1 0 false in
  if seen then (clamp_long (if neg then - v else v), rest)
  else (0, nptr).

(** Conversion of a [long] to [int]: the low 32 bits, as a signed number. *)
Definition to_int (z : Z) : Z := (z + 2 ^ 31) mod 2 ^ 32 - 2 ^ 31.

(** [int x = d] for a [double d] inside the range of [int]: the fraction is
    dropped. *)
Definition Qtruncate (q : Q) : Z := Z.quot (Qnum q) (Zpos (Qden q)).

Definition INT_MAX : Z := 2 ^ 31 - 1.
Definition INT_MIN : Z := - 2 ^ 31.

(** ** Rounding to a [double]

    The result of an operation on doubles is the double nearest to the
    exact result, ties going to the even significand (IEEE 754 binary64,
    the default rounding).  A double is a multiple of [2^e] by an integer
    below [2^53] in size, with [e] at least -1074. *)

Definition Qpow2 (k : Z) : Q :=
  if 0 <=? k then inject_Z (2 ^ k) else 1 # Z.to_pos (2 ^ (- k)).

(** The nearest integer, ties to even. *)
Definition round_half_even (q : Q) : Z :=
  let f := Qfloor q in
  match (q - inject_Z f ?= 1 # 2)%Q with
  | Lt => f
  | Gt => f + 1
  | Eq => if Z.even f then f else f + 1
  end.

(** The [k] with [2^k <= |q| < 2^(k+1)], for [q] other than 0. *)
Definition Qlog2 (q : Q) : Z :=
  let k := Z.log2 (Z.abs (Qnum q)) - Z.log2 (Zpos (Qden q)) in
  if Qle_bool (Qpow2 k) (Qabs q) then k else k - 1.

(** The double nearest to [q].  (A result past the largest double is
    infinite in the machine; here it stays a number, of a size that no
    [int] holds.) *)
Definition round_double (q : Q) : Q :=
  if Qeq_bool q 0 then 0%Q
  else
    let e := Z.max (Qlog2 q - 52) (- 1074) in
    (inject_Z (round_half_even (q / Qpow2 e)) * Qpow2 e)%Q.

(** [std::to_string] of an [int] or of an [Action]. *)
Definition to_string (z : Z) : string :=
  NilZero.string_of_int (Z.to_int z).

(** ** Collaborators

    The game engine (spiel.h), the observers and the base64 encoder are not
    part of the referee; it uses them through this interface.  A state is a
    value here: [ApplyAction] returns the changed state.  [public_tensor]
    and [private_tensor] stand for [SetFrom] followed by [Compress].
    [kInvalidAction] and [SampleAction] are those of spiel_utils.h. *)

Definition Action := Z.

Class Game := {
  State : Type;
  NumPlayers : nat;
  NewInitialState : State;
  IsTerminal : State -> bool;
  IsChanceNode : State -> bool;
  IsSimultaneousNode : State -> bool;
  IsPlayerActing : State -> nat -> bool;
  CurrentPlayer : State -> Z;
  LegalActions : State -> nat -> list Action;
  ChanceOutcomes : State -> list (Action * Q);
  ApplyAction : State -> Action -> State;
  ApplyActions : State -> list Action -> State;
  Returns : State -> list Q;
  History : State -> list Action;
  FullHistory : State -> list (Z * Action);
  kInvalidAction : Action;
  SampleAction : list (Action * Q) -> Q -> Action * Q;
  public_tensor : State -> nat -> string;
  private_tensor : State -> nat -> string;
  base64_encode : string -> string
}.

(** The random engine [rng_] with the three ways the referee draws from it:
    [std::shuffle], [std::uniform_int_distribution<int>(a, b)] and
    [std::uniform_real_distribution<double>].  The two laws are what the
    C++ standard promises of them. *)
Class RandomEngine := {
  Rng : Type;
  seed_rng : Z -> Rng;
  shuffle : list nat -> Rng -> list nat * Rng;
  uniform_int : Z -> Z -> Rng -> Z * Rng;
  uniform_real : Rng -> Q * Rng;
  shuffle_perm : forall l g, Permutation (fst (shuffle l g)) l;
  uniform_int_range : forall a b g, a <= b -> a <= fst (uniform_int a b g) <= b
}.

(** ** Tournament settings (struct TournamentSettings, referee.h)

    [disqualification_rate] is a [double]: the field holds its exact
    value. *)

Record TournamentSettings := mkSettings {
  timeout_ready : Z;
  timeout_start : Z;
  timeout_act : Z;
  timeout_ponder : Z;
  timeout_match_over : Z;
  time_tournament_over : Z;
  max_invalid_behaviors : Z;
  disqualification_rate : Q
}.

(** ** The lines of the log that are kept

    [log_] is an output stream.  The model keeps the lines below, as data;
    the other lines (histories, per-response remarks, rulers) are left out. *)

Inductive LogLine :=
| LogCouldNotStart
| LogPlayingMatch (k num_matches : Z)
| LogMatchOver
| LogBotReturns (pl : nat) (ret : Q)
| LogBotErrors (pl : nat) (e : BotErrors)
| LogExceeded (pl : nat) (match_ : Z)
| LogDisqualified (pl : nat)
| LogRestart (pl : nat)
| LogTournamentIsOver
| LogVerbose (num_matches : Z) (history_len_mean : Q)
    (corrupted : list Z) (mean_var : list (Q * Q)).

(** ** Results of the run *)

Inductive Result (S A : Type) :=
| Ok (a : A) (s : S)
| Fatal (msg : string)   (* SpielFatalError, a failed SPIEL_CHECK, undefined behaviour *)
| Hang                   (* a join, or a lock, that never returns *)
| OutOfFuel.             (* the match did not end within the fuel *)
Arguments Ok {S A} a s.
Arguments Fatal {S A} msg.
Arguments Hang {S A}.
Arguments OutOfFuel {S A}.

Section Model.

Context {G : Game} {RE : RandomEngine}.

(** ** Match and tournament results (referee.h) *)

Record MatchResult := mkMatchResult {
  terminal : State;
  errors : list BotErrors
}.

Record TournamentResults := mkResults {
  num_bots_ : nat;
  returns_mean : list Q;
  returns_agg : list Q;
  history_len_mean : Q;
  corrupted_matches : list Z;
  disqualified : list bool;
  restarts : list Z;
  matches : list MatchResult
}.

(** [TournamentResults::TournamentResults(num_bots)];
    [history_len_mean], which the constructor does not name, starts at 0. *)
Definition NewTournamentResults (num_bots : nat) : TournamentResults :=
  mkResults num_bots (replicate num_bots 0%Q) (replicate num_bots 0%Q) 0%Q
    (replicate num_bots 0) (replicate num_bots false) (replicate num_bots 0) [].

(** Modelled from the spec: [num_matches()] is declared in referee.h; the
    results hold the "ordered list of MatchResult", and [PrintVerbose]
    "writes total matches": the number of recorded matches. *)
Definition num_matches_of (res : TournamentResults) : Z :=
  Z.of_nat (length (matches res)).

Definition set_returns (m a : list Q) (res : TournamentResults) : TournamentResults :=
  mkResults (num_bots_ res) m a (history_len_mean res) (corrupted_matches res)
    (disqualified res) (restarts res) (matches res).
Definition set_history_len_mean (h : Q) (res : TournamentResults) : TournamentResults :=
  mkResults (num_bots_ res) (returns_mean res) (returns_agg res) h (corrupted_matches res)
    (disqualified res) (restarts res) (matches res).
Definition set_corrupted_matches (v : list Z) (res : TournamentResults) : TournamentResults :=
  mkResults (num_bots_ res) (returns_mean res) (returns_agg res) (history_len_mean res) v
    (disqualified res) (restarts res) (matches res).
Definition set_disqualified (v : list bool) (res : TournamentResults) : TournamentResults :=
  mkResults (num_bots_ res) (returns_mean res) (returns_agg res) (history_len_mean res)
    (corrupted_matches res) v (restarts res) (matches res).
Definition set_restarts (v : list Z) (res : TournamentResults) : TournamentResults :=
  mkResults (num_bots_ res) (returns_mean res) (returns_agg res) (history_len_mean res)
    (corrupted_matches res) (disqualified res) v (matches res).
Definition push_match (m : MatchResult) (res : TournamentResults) : TournamentResults :=
  mkResults (num_bots_ res) (returns_mean res) (returns_agg res) (history_len_mean res)
    (corrupted_matches res) (disqualified res) (restarts res) (matches res ++ [m]).

(** ** The referee (class Referee)

    Channels are heap objects: [store] holds every channel made so far, and
    an address is an index into it.  [channels_] holds, per bot, the address
    the [unique_ptr] owns, or [None] for [nullptr].  A reader thread is
    known by the address of the channel it was started on. *)

Record Referee := mkReferee {
  game_name_ : string;
  executables_ : list string;
  settings_ : TournamentSettings;
  rng_ : Rng;
  store : list BotChannel;
  channels_ : list (option nat);
  threads_stdout_ : list (option nat);
  threads_stderr_ : list (option nat);
  errors_ : list BotErrors;
  log_ : list LogLine;
  clock : nat
}.

Definition set_rng (v : Rng) (r : Referee) : Referee :=
  mkReferee (game_name_ r) (executables_ r) (settings_ r) v (store r) (channels_ r)
    (threads_stdout_ r) (threads_stderr_ r) (errors_ r) (log_ r) (clock r).
Definition set_store (v : list BotChannel) (r : Referee) : Referee :=
  mkReferee (game_name_ r) (executables_ r) (settings_ r) (rng_ r) v (channels_ r)
    (threads_stdout_ r) (threads_stderr_ r) (errors_ r) (log_ r) (clock r).
Definition set_channels (v : list (option nat)) (r : Referee) : Referee :=
  mkReferee (game_name_ r) (executables_ r) (settings_ r) (rng_ r) (store r) v
    (threads_stdout_ r) (threads_stderr_ r) (errors_ r) (log_ r) (clock r).
Definition set_threads_stdout (v : list (option nat)) (r : Referee) : Referee :=
  mkReferee (game_name_ r) (executables_ r) (settings_ r) (rng_ r) (store r) (channels_ r)
    v (threads_stderr_ r) (errors_ r) (log_ r) (clock r).
Definition set_threads_stderr (v : list (option nat)) (r : Referee) : Referee :=
  mkReferee (game_name_ r) (executables_ r) (settings_ r) (rng_ r) (store r) (channels_ r)
    (threads_stdout_ r) v (errors_ r) (log_ r) (clock r).
Definition set_errors (v : list BotErrors) (r : Referee) : Referee :=
  mkReferee (game_name_ r) (executables_ r) (settings_ r) (rng_ r) (store r) (channels_ r)
    (threads_stdout_ r) (threads_stderr_ r) v (log_ r) (clock r).
Definition set_log (v : list LogLine) (r : Referee) : Referee :=
  mkReferee (game_name_ r) (executables_ r) (settings_ r) (rng_ r) (store r) (channels_ r)
    (threads_stdout_ r) (threads_stderr_ r) (errors_ r) v (clock r).
Definition set_clock (v : nat) (r : Referee) : Referee :=
  mkReferee (game_name_ r) (executables_ r) (settings_ r) (rng_ r) (store r) (channels_ r)
    (threads_stdout_ r) (threads_stderr_ r) (errors_ r) (log_ r) v.

(** Modelled from the spec: [num_bots()] is declared in referee.h; the
    referee holds a "list of executable paths" and one channel per bot. *)
Definition num_bots (r : Referee) : nat := length (executables_ r).

(** [Referee::Referee]: the check that there is an executable.  (That each
    file exists and can be executed is a matter of the file system.) *)
Definition NewReferee (game_name : string) (executables : list string)
    (seed : Z) (settings : TournamentSettings) : option Referee :=
  match executables with
  | [] => None
  | _ => Some (mkReferee game_name executables settings (seed_rng seed)
                 [] [] [] [] [] [] 0%nat)
  end.

(** ** The referee's monad: state, and the ways a run stops *)

Definition M (A : Type) : Type := Referee -> Result Referee A.

Definition ret {A} (a : A) : M A := fun r => Ok a r.

Definition bind {A B} (m : M A) (f : A -> M B) : M B :=
  fun r =>
    match m r with
    | Ok a r' => f a r'
    | Fatal msg => Fatal msg
    | Hang => Hang
    | OutOfFuel => OutOfFuel
    end.

Definition fatal {A} (msg : string) : M A := fun _ => Fatal msg.
Definition hang {A} : M A := fun _ => Hang.
Definition gets {A} (f : Referee -> A) : M A := fun r => Ok (f r) r.
Definition modify (f : Referee -> Referee) : M unit := fun r => Ok tt (f r).

End Model.

Notation "'let*' x ':=' m 'in' k" := (bind m (fun x => k))
  (at level 10, x pattern, m at level 100, k at level 200).

Section Operations.

Context {G : Game} {RE : RandomEngine}.

(** What the bots do: [bots t i] is how the read cycle of bot [i] that is
    under way in the [t]-th sleep of the referee goes. *)
Variable bots : nat -> nat -> Outcome.

(** One body per player, in the order of the list. *)
Fixpoint for_each (pls : list nat) (body : nat -> M unit) : M unit :=
  match pls with
  | [] => ret tt
  | pl :: pls' => let* _ := body pl in for_each pls' body
  end.

Definition players (r : Referee) : list nat := seq 0 (num_bots r).

(** [for (int pl = 0; pl < num_bots(); ++pl) body]. *)
Definition for_players (body : nat -> M unit) : M unit :=
  let* pls := gets players in for_each pls body.

Definition log (l : LogLine) : M unit :=
  modify (fun r => set_log (log_ r ++ [l]) r).

(** [channels_[pl].get()], dereferenced: the address of the channel. *)
Definition channel_at (pl : nat) : M nat :=
  fun r =>
    match channels_ r !! pl with
    | Some (Some a) => Ok a r
    | Some None => Fatal "null channel"
    | None => Fatal "channels_ out of range"
    end.

Definition get_channel (a : nat) : M BotChannel :=
  fun r =>
    match store r !! a with
    | Some c => Ok c r
    | None => Fatal "dangling channel"
    end.

Definition update_channel (a : nat) (f : BotChannel -> BotChannel) : M unit :=
  fun r =>
    match store r !! a with
    | Some c => Ok tt (set_store (<[a := f c]> (store r)) r)
    | None => Fatal "dangling channel"
    end.

(** [errors_[pl]], read and updated. *)
Definition errors_at (pl : nat) : M BotErrors :=
  fun r =>
    match errors_ r !! pl with
    | Some e => Ok e r
    | None => Fatal "errors_ out of range"
    end.

Definition update_errors (pl : nat) (f : BotErrors -> BotErrors) : M unit :=
  fun r =>
    match errors_ r !! pl with
    | Some e => Ok tt (set_errors (<[pl := f e]> (errors_ r)) r)
    | None => Fatal "errors_ out of range"
    end.

(** [write(chn->in(), ...)]. *)
Definition write (a : nat) (s : string) : M unit :=
  update_channel a (write_in s).

(** [BotChannel::StartRead]. *)
Definition StartRead (a : nat) (time_limit : Z) : M unit :=
  let* c := get_channel a in
  if shutdown_ c then fatal "SPIEL_CHECK_FALSE(shutdown_)"
  else if negb (wait_for_message_ c) then fatal "SPIEL_CHECK_TRUE(wait_for_message_)"
  else update_channel a (start_read time_limit).

(** A stdout reader is at work on the channel at [a]: some thread was
    started on it, and the channel is not shut down. *)
Definition has_reader (r : Referee) (a : nat) (c : BotChannel) : bool :=
  existsb (fun t => match t with Some b => Nat.eqb a b | None => false end)
    (threads_stdout_ r) && negb (shutdown_ c).

(** A read cycle is under way on the channel at [a]: [StartRead] was
    called, and the reader of the channel has not ended the cycle. *)
Definition reading (r : Referee) (a : nat) (c : BotChannel) : bool :=
  negb (wait_for_message_ c) && has_reader r a c.

(** [std::lock_guard<std::mutex> lock(mx_read)] in the referee.  The reader
    holds [mx_read] from the beginning of a cycle to its end.  The referee
    asks for the lock after a sleep only, and a cycle that is still under
    way then has its reader inside [getline_async] (see [sleep_ms]), which
    neither [cancel_read_] nor the deadline ends: the referee waits for as
    long as the bot is alive and writes no newline. *)
Definition lock_mx_read (a : nat) : M unit :=
  let* c := get_channel a in
  let* held := gets (fun r => reading r a c) in
  if (held : bool) then hang else ret tt.

(** [BotChannel::CancelReadBlocking]. *)
Definition CancelReadBlocking (a : nat) : M unit :=
  let* _ := update_channel a (set_cancel_read true) in
  lock_mx_read a.

(** [sleep_ms]: the referee sleeps and the readers run.  A read cycle
    under way on a channel that has a reader goes as the script says: it
    ends with the line of the bot or, at the end of the bot's output,
    without one ([Line], [TimedOut], [NoLine]); or it does not end
    ([Silent]).  A cycle that ends only after the sleep (by a line that
    comes late, by the cancellation, or by a deadline just after the sleep)
    is taken at its end: but for the ponder check, the referee looks at the
    channel again only after [CancelReadBlocking], which waits for the
    reader, or after another sleep.  (For the ponder check, which reads the
    channel without cancelling, the line of a bot is there when the sleep
    ends: a ponder line that comes later than that is not among the
    behaviours of the script.) *)
Definition sleep_ms (ms : Z) : M unit :=
  modify (fun r =>
    set_clock (S (clock r))
      (set_store
         (imap (fun a c =>
                  if reading r a c
                  then commit_outcome (bots (clock r) (bot_index_ c)) c
                  else c)
               (store r))
         r)).

(** [new BotChannel]: the address of the new object. *)
Definition alloc (c : BotChannel) : M nat :=
  fun r => Ok (length (store r)) (set_store (store r ++ [c]) r).

(** The handshake: the name of the game and the digit of the player. *)
Definition pl_char (pl : nat) : ascii := ascii_of_nat (48 + pl).

Definition send_setup (a : nat) (pl : nat) : M unit :=
  let* name := gets game_name_ in
  let* _ := write a name in
  let* _ := write a endl in
  let* _ := write a (String (pl_char pl) "") in
  write a endl.

(** [Referee::CheckResponse]. *)
Definition CheckResponse (expected_response : string) (pl : nat) : M bool :=
  let* chn := channel_at pl in
  let* _ := CancelReadBlocking chn in
  let* c := get_channel chn in
  if negb (String.eqb (response c) expected_response) then
    let* _ := update_errors pl inc_protocol_error in
    let* _ := (if is_time_out c then update_errors pl inc_time_over else ret tt) in
    ret false
  else ret true.

(** [Referee::CheckResponses]. *)
Fixpoint check_responses (expected_response : string) (pls : list nat) : M (list bool) :=
  match pls with
  | [] => ret []
  | pl :: pls' =>
      let* ok := CheckResponse expected_response pl in
      let* oks := check_responses expected_response pls' in
      ret (ok :: oks)
  end.

Definition CheckResponses (expected_response : string) : M (list bool) :=
  let* pls := gets players in check_responses expected_response pls.

(** [channels_.back().get()]. *)
Definition channels_back : M nat :=
  fun r =>
    match last (channels_ r) with
    | Some (Some a) => Ok a r
    | Some None => Fatal "SPIEL_CHECK_TRUE(c)"
    | None => Fatal "back() of an empty vector"
    end.

Definition executable_at (pl : nat) : M string :=
  fun r =>
    match executables_ r !! pl with
    | Some e => Ok e r
    | None => Fatal "executables_ out of range"
    end.

(** Lines 143 to 151: a bot is spawned and its two readers are started. *)
Definition spawn_bot (pl : nat) : M unit :=
  let* executable := executable_at pl in
  let* _ := modify (fun r => set_errors (errors_ r ++ [Reset]) r) in
  let* a := alloc (MakeBotChannel pl executable) in
  let* _ := modify (fun r => set_channels (channels_ r ++ [Some a]) r) in
  let* b := channels_back in
  let* _ := modify (fun r => set_threads_stdout (threads_stdout_ r ++ [Some b]) r) in
  let* b' := channels_back in
  modify (fun r => set_threads_stderr (threads_stderr_ r ++ [Some b']) r).

(** Lines 157 to 163, and 184 to 190: the setup is sent to the bot and the
    wait for its "ready" begins. *)
Definition send_handshake (pl : nat) : M unit :=
  let* chn := channel_at pl in
  let* _ := send_setup chn pl in
  let* t := gets (fun r => timeout_ready (settings_ r)) in
  StartRead chn t.

(** [Referee::StartPlayers]. *)
Definition StartPlayers : M (list bool) :=
  let* n := gets num_bots in
  if negb (Nat.eqb NumPlayers n) then fatal "SPIEL_CHECK_EQ(game_->NumPlayers(), num_bots())"
  else
    let* _ := for_players spawn_bot in
    let* _ := for_players send_handshake in
    let* t := gets (fun r => timeout_ready (settings_ r)) in
    let* _ := sleep_ms t in
    CheckResponses kReadyMessage.

(** Assignment to a slot of a vector of pointers. *)
Definition assign_slot (get : Referee -> list (option nat))
    (set : list (option nat) -> Referee -> Referee) (pl : nat) (v : option nat) : M unit :=
  fun r =>
    if decide (pl < length (get r))%nat
    then Ok tt (set (<[pl := v]> (get r)) r)
    else Fatal "slot out of range".

(** [Referee::StartPlayer]: the two threads are started on
    [channels_.back().get()]. *)
Definition StartPlayer (pl : nat) : M bool :=
  let* executable := executable_at pl in
  let* a := alloc (MakeBotChannel pl executable) in
  let* _ := assign_slot channels_ set_channels pl (Some a) in
  let* b := channels_back in
  let* _ := assign_slot threads_stdout_ set_threads_stdout pl (Some b) in
  let* b' := channels_back in
  let* _ := assign_slot threads_stderr_ set_threads_stderr pl (Some b') in
  let* _ := send_handshake pl in
  let* t := gets (fun r => timeout_ready (settings_ r)) in
  let* _ := sleep_ms t in
  CheckResponse kReadyMessage pl.

(** [th->join()]: a reader that waits for the next [StartRead] returns
    once the channel it reads is shut down, and not before. *)
Definition join (threads : Referee -> list (option nat)) (pl : nat) : M unit :=
  fun r =>
    match threads r !! pl with
    | Some (Some b) =>
        match store r !! b with
        | Some c => if shutdown_ c then Ok tt r else Hang
        | None => Fatal "dangling channel"
        end
    | Some None => Fatal "null thread"
    | None => Fatal "threads out of range"
    end.

(** [Referee::ShutDownPlayer]. *)
Definition ShutDownPlayer (pl : nat) : M unit :=
  let* chn := channel_at pl in
  let* _ := update_channel chn ShutDown in
  let* _ := join threads_stdout_ pl in
  let* _ := join threads_stderr_ pl in
  let* _ := assign_slot channels_ set_channels pl None in
  let* _ := assign_slot threads_stdout_ set_threads_stdout pl None in
  let* _ := assign_slot threads_stderr_ set_threads_stderr pl None in
  update_errors pl (fun _ => Reset).


(** [Referee::RestartPlayer]: the answer of [StartPlayer] is dropped. *)
Definition RestartPlayer (pl : nat) : M unit :=
  let* _ := ShutDownPlayer pl in
  let* _ := StartPlayer pl in
  ret tt.

(** [Referee::TournamentOver]. *)
Definition TournamentOver : M unit :=
  let* _ := for_players (fun pl =>
    let* chn := channel_at pl in
    let* _ := write chn kTournamentOverMessage in
    write chn endl) in
  let* t := gets (fun r => time_tournament_over (settings_ r)) in
  sleep_ms t.

(** [Referee::ResetErrorTracking]. *)
Definition ResetErrorTracking : M unit :=
  modify (fun r => set_errors (map (fun _ => Reset) (errors_ r)) r).

(** [Referee::corrupted_match_due]. *)
Definition corrupted_match_due (pl : nat) : M bool :=
  let* e := errors_at pl in
  let* max := gets (fun r => max_invalid_behaviors (settings_ r)) in
  ret ((max <? total_errors e) || (0 <? protocol_error e)).

(** A draw from [rng_]. *)
Definition draw {A} (f : Rng -> A * Rng) : M A :=
  fun r => let '(a, g) := f (rng_ r) in Ok a (set_rng g r).

(** [v[i]] for a vector local to a function. *)
Definition at_index {A} (what : string) (v : list A) (i : nat) : M A :=
  fun r =>
    match v !! i with
    | Some x => Ok x r
    | None => Fatal what
    end.

(** ** PlayMatch *)

(** [is_acting[pl]], the vector cached at the top of the turn; the players
    asked are below [num_bots()]. *)
Definition acting (is_acting : list bool) (pl : nat) : bool :=
  default false (is_acting !! pl).

(** The observations and, for an acting player, the legal actions. *)
Definition observation_line (state : State) (is_acting : list bool) (pl : nat) : string :=
  base64_encode (public_tensor state pl) +:+ " " +:+
  base64_encode (private_tensor state pl) +:+
  (if acting is_acting pl
   then String.concat "" (map (fun a => " " +:+ to_string a) (LegalActions state pl))
   else "") +:+ endl.

(** Lines 332 to 361: what becomes of [bot_actions[pl]], given the channel
    of an acting player after the reads were cancelled. *)
Definition ParseResponse (pl : nat) (c : BotChannel) (legal_actions : list Action)
    (bot_action : Action) : M Action :=
  if is_time_out c then
    let* _ := update_errors pl inc_time_over in ret bot_action
  else if negb (has_read c) then
    let* _ := update_errors pl inc_protocol_error in ret bot_action
  else
    let '(v, end_) := strtol (c_str (response c)) in
    let action := to_int v in
    if negb (String.eqb end_ "") then
      let* _ := update_errors pl inc_protocol_error in ret bot_action
    else if negb (existsb (Z.eqb action) legal_actions) then
      let* _ := update_errors pl inc_illegal_actions in ret bot_action
    else
      let* e := errors_at pl in
      let* max := gets (fun r => max_invalid_behaviors (settings_ r)) in
      if max <? total_errors e then ret bot_action
      else ret action.

(** Lines 363 to 367: the random action.  With no legal action the bounds
    of the distribution are 0 and -1, which the standard forbids. *)
Definition PickAction (legal_actions : list Action) (bot_action : Action) : M Action :=
  if Z.eqb bot_action kInvalidAction then
    let hi := Z.of_nat (length legal_actions) - 1 in
    if hi <? 0 then fatal "uniform_int_distribution(0, -1)"
    else
      let* random_idx := draw (uniform_int 0 hi) in
      if random_idx <? 0 then fatal "legal_actions out of range"
      else at_index "legal_actions out of range" legal_actions (Z.to_nat random_idx)
  else ret bot_action.

(** The loop of lines 326 to 368 over the players. *)
Fixpoint parse_actions (state : State) (is_acting : list bool) (pls : list nat)
    (bot_actions : list Action) : M (list Action) :=
  match pls with
  | [] => ret bot_actions
  | pl :: pls' =>
      if negb (acting is_acting pl) then parse_actions state is_acting pls' bot_actions
      else
        let* chn := channel_at pl in
        let* c := get_channel chn in
        let legal_actions := LegalActions state pl in
        let* candidate := ParseResponse pl c legal_actions kInvalidAction in
        let* a := PickAction legal_actions candidate in
        parse_actions state is_acting pls' (<[pl := a]> bot_actions)
  end.

(** Lines 374 to 386. *)
Definition apply_actions (state : State) (bot_actions : list Action) : M State :=
  if IsChanceNode state then
    let actions_and_probs := ChanceOutcomes state in
    let* u := draw uniform_real in
    let '(chance_action, _) := SampleAction actions_and_probs u in
    ret (ApplyAction state chance_action)
  else if IsSimultaneousNode state then
    ret (ApplyActions state bot_actions)
  else
    let cur := CurrentPlayer state in
    if cur <? 0 then fatal "bot_actions out of range"
    else
      let* a := at_index "bot_actions out of range" bot_actions (Z.to_nat cur) in
      ret (ApplyAction state a).

(** The ponder check of lines 289 to 304, for one player. *)
Definition check_ponder (is_acting : list bool) (pl : nat) : M unit :=
  if acting is_acting pl then ret tt
  else
    let* chn := channel_at pl in
    let* c := get_channel chn in
    if negb (String.eqb (response c) kPonderMessage) then
      let* _ := update_errors pl inc_ponder_error in
      if is_time_out c then update_errors pl inc_time_over else ret tt
    else ret tt.

(** One turn of the loop of [PlayMatch].  The wait for the acting players
    (lines 317 to 319) only passes time: the readers have run during the
    sleep before it.  The ponder check reads the channels without
    cancelling the reads: what it finds is what the sleep left. *)
Definition PlayTurn (state : State) (player_order : list nat) : M (State * list nat) :=
  let only_ponder := IsChanceNode state in
  let* pls := gets players in
  let is_acting := map (IsPlayerActing state) pls in
  let* player_order := draw (shuffle player_order) in
  let* _ := for_each player_order (fun pl =>
    let* chn := channel_at pl in
    write chn (observation_line state is_acting pl)) in
  let* st := gets settings_ in
  let* _ := for_each player_order (fun pl =>
    let* chn := channel_at pl in
    StartRead chn (if acting is_acting pl then timeout_act st else timeout_ponder st)) in
  let* _ := sleep_ms (timeout_ponder st) in
  let* _ := for_each pls (check_ponder is_acting) in
  let* _ := (if negb only_ponder
             then for_each pls (fun pl =>
                    let* chn := channel_at pl in CancelReadBlocking chn)
             else ret tt) in
  let* bot_actions :=
    parse_actions state is_acting pls (replicate (length pls) kInvalidAction) in
  let* state := apply_actions state bot_actions in
  ret (state, player_order).

(** [while (!state->IsTerminal()) ...], at most [fuel] turns. *)
Fixpoint match_loop (fuel : nat) (state : State) (player_order : list nat) : M State :=
  if IsTerminal state then ret state
  else
    match fuel with
    | O => fun _ => OutOfFuel
    | S fuel' =>
        let* (state, player_order) := PlayTurn state player_order in
        match_loop fuel' state player_order
    end.

(** [Referee::PlayMatch]. *)
Definition PlayMatch (fuel : nat) : M State :=
  let* n := gets num_bots in
  if negb (Nat.eqb n NumPlayers) then fatal "SPIEL_CHECK_EQ(num_bots(), game_->NumPlayers())"
  else
    let* st := gets settings_ in
    let* pls := gets players in
    let* _ := for_each pls (fun pl =>
      let* chn := channel_at pl in StartRead chn (timeout_start st)) in
    let* _ := sleep_ms (timeout_start st) in
    let* _ := CheckResponses kStartMessage in
    let* state := match_loop fuel NewInitialState pls in
    let returns := Returns state in
    let* _ := log LogMatchOver in
    let* _ := for_each pls (fun pl =>
      let* chn := channel_at pl in
      let* _ := write chn kMatchOverMessage in
      let* _ := write chn " " in
      let* ret_pl := at_index "returns out of range" returns pl in
      let score := Qtruncate ret_pl in
      let* _ := write chn (to_string score) in
      let* _ := write chn endl in
      StartRead chn (timeout_match_over st)) in
    let* _ := for_each pls (fun pl =>
      let* ret_pl := at_index "returns out of range" returns pl in
      let* _ := log (LogBotReturns pl ret_pl) in
      let* e := errors_at pl in
      log (LogBotErrors pl e)) in
    let* _ := sleep_ms (timeout_match_over st) in
    let* _ := CheckResponses kMatchOverMessage in
    ret state.

(** ** PlayTournament *)

(** The vectors of the results have [num_bots] entries and are indexed by
    players below [num_bots]. *)
Definition qat (v : list Q) (pl : nat) : Q := nth pl v 0%Q.
Definition zat (v : list Z) (pl : nat) : Z := nth pl v 0.

(** Lines 514 to 517. *)
Fixpoint check_start (pls : list nat) (start_ok : list bool) (num_matches : Z)
    (all_ok : bool) (results : TournamentResults) : bool * TournamentResults :=
  match pls with
  | [] => (all_ok, results)
  | pl :: pls' =>
      let ok := nth pl start_ok false in
      check_start pls' start_ok num_matches (all_ok && ok)
        (if negb ok
         then set_corrupted_matches (<[pl := num_matches]> (corrupted_matches results)) results
         else results)
  end.

(** Lines 540 and 541. *)
Definition update_history_len (match_ : nat) (size : nat) (results : TournamentResults)
  : TournamentResults :=
  set_history_len_mean
    (history_len_mean results
     + (inject_Z (Z.of_nat size) - history_len_mean results)
       / inject_Z (Z.of_nat match_ + 1))%Q
    results.

(** Lines 543 to 546, for one player. *)
Definition update_returns (match_ : nat) (ret_pl : Q) (pl : nat) (results : TournamentResults)
  : TournamentResults :=
  let delta := (ret_pl - qat (returns_mean results) pl)%Q in
  let mean := (qat (returns_mean results) pl + delta / inject_Z (Z.of_nat match_ + 1))%Q in
  let delta2 := (ret_pl - mean)%Q in
  set_returns (<[pl := mean]> (returns_mean results))
    (<[pl := (qat (returns_agg results) pl + delta * delta2)%Q]> (returns_agg results))
    results.

(** The loop of lines 542 to 547. *)
Fixpoint update_statistics (match_ : nat) (returns : list Q) (pls : list nat)
    (results : TournamentResults) : M TournamentResults :=
  match pls with
  | [] => ret results
  | pl :: pls' =>
      let* ret_pl := at_index "returns out of range" returns pl in
      update_statistics match_ returns pls' (update_returns match_ ret_pl pl results)
  end.

(** The loop of lines 549 to 565.  The flag says whether [PlayTournament]
    returned from inside it. *)
Fixpoint disqualification_update (pls : list nat) (match_ : nat) (corruption_threshold : Z)
    (results : TournamentResults) : M (bool * TournamentResults) :=
  match pls with
  | [] => ret (false, results)
  | pl :: pls' =>
      let* due := corrupted_match_due pl in
      if negb due then
        disqualification_update pls' match_ corruption_threshold results
      else
        let* _ := log (LogExceeded pl (Z.of_nat match_)) in
        let results :=
          set_corrupted_matches
            (<[pl := zat (corrupted_matches results) pl + 1]> (corrupted_matches results))
            results in
        if corruption_threshold <? zat (corrupted_matches results) pl then
          let* _ := log (LogDisqualified pl) in
          let results := set_disqualified (<[pl := true]> (disqualified results)) results in
          let* _ := TournamentOver in
          ret (true, results)
        else
          let* _ := log (LogRestart pl) in
          let results :=
            set_restarts (<[pl := zat (restarts results) pl + 1]> (restarts results)) results in
          let* _ := RestartPlayer pl in
          disqualification_update pls' match_ corruption_threshold results
  end.

(** [TournamentResults::PrintVerbose]. *)
Definition PrintVerbose (results : TournamentResults) : M unit :=
  log (LogVerbose (num_matches_of results) (history_len_mean results)
         (corrupted_matches results)
         (map (fun pl => (qat (returns_mean results) pl,
                          (qat (returns_agg results) pl
                           / inject_Z (num_matches_of results))%Q))
              (seq 0 (num_bots_ results)))).

(** The loop over the matches (lines 527 to 571) and what follows it. *)
Fixpoint tournament_loop (fuel : nat) (num_matches : Z) (corruption_threshold : Z)
    (todo : list nat) (results : TournamentResults) : M TournamentResults :=
  match todo with
  | [] =>
      let* _ := log LogTournamentIsOver in
      let* _ := PrintVerbose results in
      let* _ := TournamentOver in
      ret results
  | match_ :: todo' =>
      let* _ := log (LogPlayingMatch (Z.of_nat match_ + 1) num_matches) in
      let* _ := ResetErrorTracking in
      let* state := PlayMatch fuel in
      let returns := Returns state in
      let results := update_history_len match_ (length (FullHistory state)) results in
      let* pls := gets players in
      let* results := update_statistics match_ returns pls results in
      let* (returned, results) :=
        disqualification_update pls match_ corruption_threshold results in
      if (returned : bool) then ret results
      else
        let* errors := gets errors_ in
        tournament_loop fuel num_matches corruption_threshold todo'
          (push_match (mkMatchResult state errors) results)
  end.

(** Lines 524 and 525: [const int corruption_threshold = num_matches *
    settings().disqualification_rate].  The product is one of doubles, and
    its conversion to [int] is defined when the integer part is in the
    range of [int]. *)
Definition corruption_threshold_of (num_matches : Z) (rate : Q) : option Z :=
  let t := Qtruncate (round_double (inject_Z num_matches * rate)) in
  if (INT_MIN <=? t) && (t <=? INT_MAX) then Some t else None.

(** [Referee::PlayTournament]. *)
Definition PlayTournament (fuel : nat) (num_matches : Z) : M TournamentResults :=
  let* n := gets num_bots in
  let results := NewTournamentResults n in
  let* start_ok := StartPlayers in
  let* pls := gets players in
  let '(all_ok, results) := check_start pls start_ok num_matches true results in
  if negb all_ok then
    let* _ := log LogCouldNotStart in
    ret results
  else
    let* rate := gets (fun r => disqualification_rate (settings_ r)) in
    match corruption_threshold_of num_matches rate with
    | None => fatal "corruption_threshold out of the range of int"
    | Some corruption_threshold =>
        tournament_loop fuel num_matches corruption_threshold
          (seq 0 (Z.to_nat num_matches)) results
    end.

End Operations.

(** ** A small game, a random engine and some bots, to run the referee on *)

(** [TurnGame n]: the [n] players move once each, in the order of their
    indices, with the actions 0 and 1; a player's return is its action. *)
Definition TurnGame (n : nat) : Game := {|
  State := list Action;
  NumPlayers := n;
  NewInitialState := [];
  IsTerminal := fun s => Nat.leb n (length s);
  IsChanceNode := fun _ => false;
  IsSimultaneousNode := fun _ => false;
  IsPlayerActing := fun s pl => Nat.eqb pl (length s);
  CurrentPlayer := fun s => Z.of_nat (length s);
  LegalActions := fun _ _ => [0; 1];
  ChanceOutcomes := fun _ => [];
  ApplyAction := fun s a => (s ++ [a])%list;
  ApplyActions := fun s _ => s;
  Returns := fun s => map inject_Z s;
  History := fun s => s;
  FullHistory := fun s => imap (fun i a => (Z.of_nat i, a)) s;
  kInvalidAction := -1;
  SampleAction := fun _ _ => (0, 1%Q);
  public_tensor := fun _ _ => "";
  private_tensor := fun _ _ => "";
  base64_encode := fun s => s
|}.

(** The engine that never shuffles and always draws the lower bound. *)
Definition LowRng : RandomEngine := {|
  Rng := unit;
  seed_rng := fun _ => tt;
  shuffle := fun l g => (l, g);
  uniform_int := fun a _ g => (a, g);
  uniform_real := fun g => (0%Q, g);
  shuffle_perm := fun l _ => Permutation_refl l;
  uniform_int_range := fun a _ _ H => conj (Z.le_refl a) H
|}.

Definition settings0 (max_invalid : Z) (rate : Q) : TournamentSettings :=
  mkSettings 200 100 100 50 100 100 max_invalid rate.

(** One bot, told by what it answers in each sleep of the referee; after
    the last answer its output is at its end. *)
Definition one_bot (answers : list Outcome) : nat -> nat -> Outcome :=
  fun t _ => nth t answers NoLine.

(** Several bots: one list of answers per sleep. *)
Definition some_bots (answers : list (list Outcome)) : nat -> nat -> Outcome :=
  fun t pl => nth pl (nth t answers []) NoLine.

(** As [polite_match], with the move 1. *)
Definition polite_match_1 : list Outcome :=
  [Line "start"; Line "1"; Line "match over"].

(** A match of [TurnGame 1] with a bot that follows the protocol and plays
    0 takes three sleeps: start, the turn, match over. *)
Definition polite_match : list Outcome :=
  [Line "start"; Line "0"; Line "match over"].

(** The same match with the line "x" in the place of "start". *)
Definition wrong_match : list Outcome :=
  [Line "x"; Line "0"; Line "match over"].

(** Three matches announced, the bot writes "x" at the start of the first
    two and is restarted in between. *)
Definition twice_wrong : nat -> nat -> Outcome :=
  one_bot ([Line "ready"] ++ wrong_match ++ [Line "ready"] ++ wrong_match)%list.

(** The bot plays 0 in the first match and 1 in the second. *)
Definition zero_then_one : nat -> nat -> Outcome :=
  one_bot ([Line "ready"] ++ polite_match ++ polite_match_1)%list.

(** Bot 1 answers the handshake with "banana". *)
Definition banana : nat -> nat -> Outcome :=
  some_bots [[Line "ready"; Line "banana"]].

Definition referee1 (max_invalid : Z) (rate : Q) : @Referee LowRng :=
  @mkReferee LowRng "turn" ["bot0"] (settings0 max_invalid rate) tt [] [] [] [] [] [] 0%nat.

Definition referee2 (max_invalid : Z) (rate : Q) : @Referee LowRng :=
  @mkReferee LowRng "turn" ["bot0"; "bot1"] (settings0 max_invalid rate) tt [] [] [] [] [] [] 0%nat.

(** Two bots in [TurnGame 2]: a match takes four sleeps (start, two turns,
    match over).  Both bots write "x" at the start of the match. *)
Definition both_wrong : nat -> nat -> Outcome :=
  some_bots [[Line "ready"; Line "ready"];
             [Line "x"; Line "x"];
             [Line "0"; Line "ponder"];
             [Line "ponder"; Line "1"];
             [Line "match over"; Line "match over"]].

(** ** Notions used to state the properties *)

Section Notions.

Context {G : Game} {RE : RandomEngine}.

(** [keeps R m]: every run of [m] that returns relates the states before
    and after by [R]. *)
Definition keeps {A} (R : Referee -> Referee -> Prop) (m : M A) : Prop :=
  forall r a r', m r = Ok a r' -> R r r'.

(** The returns of player [pl] that the log reports, one per match. *)
Definition is_returns (pl : nat) (l : LogLine) : option Q :=
  match l with
  | LogBotReturns pl' ret => if Nat.eqb pl' pl then Some ret else None
  | _ => None
  end.

Definition returns_of (pl : nat) (lines : list LogLine) : list Q :=
  omap (is_returns pl) lines.

(** The matches that the log announces with "Playing match k / n". *)
Definition matches_announced (lines : list LogLine) : list Z :=
  omap (fun l => match l with LogPlayingMatch k _ => Some k | _ => None end) lines.

(** The run changed neither the configuration of the referee nor the
    returns that the log reports. *)
Definition quiet (r r' : Referee) : Prop :=
  executables_ r' = executables_ r
  /\ settings_ r' = settings_ r
  /\ game_name_ r' = game_name_ r
  /\ forall pl, returns_of pl (log_ r') = returns_of pl (log_ r).

(** The run changed neither the channel of any bot nor the channel any
    reader thread is on. *)
Definition same_wiring (r r' : Referee) : Prop :=
  channels_ r' = channels_ r
  /\ threads_stdout_ r' = threads_stdout_ r
  /\ threads_stderr_ r' = threads_stderr_ r
  /\ length (store r') = length (store r)
  /\ length (errors_ r') = length (errors_ r).

(** The run changed the counters of no bot but [pl0]. *)
Definition errors_elsewhere (pl0 : nat) (r r' : Referee) : Prop :=
  forall pl, pl <> pl0 -> errors_ r' !! pl = errors_ r !! pl.

(** The test of [corrupted_match_due] on the counters that bot [pl] has in
    [r]. *)
Definition is_due (r : Referee) (pl : nat) : bool :=
  match errors_ r !! pl with
  | Some e =>
      (max_invalid_behaviors (settings_ r) <? total_errors e) || (0 <? protocol_error e)
  | None => false
  end.

(** Bot [pl] crosses the threshold: its match is corrupted, and with this
    match its corrupted matches exceed [thr]. *)
Definition crosses (thr : Z) (results : TournamentResults) (r : Referee) (pl : nat)
  : bool :=
  is_due r pl && (thr <? zat (corrupted_matches results) pl + 1).

(** A referee on which no player was started yet. *)
Definition fresh (r : Referee) : Prop :=
  store r = [] /\ channels_ r = [] /\ threads_stdout_ r = []
  /\ threads_stderr_ r = [] /\ errors_ r = [].

(** The referee after the first [k] bots were spawned. *)
Definition spawned (r : Referee) (k : nat) : Referee :=
  set_errors (replicate k Reset)
    (set_threads_stderr (Some <$> seq 0 k)
       (set_threads_stdout (Some <$> seq 0 k)
          (set_channels (Some <$> seq 0 k)
             (set_store (imap MakeBotChannel (take k (executables_ r))) r)))).

(** The channel of bot [pl] once the setup was sent and the wait for
    "ready" has begun. *)
Definition greeted (r : Referee) (pl : nat) (c : BotChannel) : BotChannel :=
  start_read (timeout_ready (settings_ r))
    (write_in endl (write_in (String (pl_char pl) "")
       (write_in endl (write_in (game_name_ r) c)))).

(** The bot answered the handshake with the line "ready". *)
Definition answers_ready (o : Outcome) : bool :=
  match o with
  | Line l => String.eqb l kReadyMessage
  | _ => false
  end.

(** The run changed no response slot and no channel of a bot, wrote
    nothing to the log and did not sleep. *)
Definition same_responses (r r' : Referee) : Prop :=
  channels_ r' = channels_ r
  /\ map response_ (store r') = map response_ (store r)
  /\ log_ r' = log_ r
  /\ clock r' = clock r.

(** Mean and population variance of a list of returns. *)
Fixpoint Qsum (l : list Q) : Q :=
  match l with
  | [] => 0
  | x :: l' => x + Qsum l'
  end.

Definition count (l : list Q) : Q := inject_Z (Z.of_nat (length l)).

Definition mean (l : list Q) : Q := Qsum l / count l.

(** The sum of the squared deviations from [a]. *)
Fixpoint sqdev (a : Q) (l : list Q) : Q :=
  match l with
  | [] => 0
  | x :: l' => (x - a) * (x - a) + sqdev a l'
  end.

Definition population_variance (l : list Q) : Q := sqdev (mean l) l / count l.

(** What the two running values of Welford's algorithm are after the
    matches with returns [rs]. *)
Definition welford (rs : list Q) (m a : Q) : Prop :=
  m == mean rs /\ a == sqdev m rs.

End Notions.

(** ** Runs used as examples *)

(** The bot answers the handshake, then its move. *)
Definition ready_then_0 : nat -> nat -> Outcome :=
  one_bot [Line "ready"; Line "0"].

(** The bot answers the handshake and closes its output; the deadline of
    its turn passes. *)
Definition ready_then_late : nat -> nat -> Outcome :=
  one_bot [Line "ready"; TimedOut].

(** [referee1] after [StartPlayers]. *)
Definition started1 : @Referee LowRng :=
  match StartPlayers (G := TurnGame 1) ready_then_0 (referee1 3 (1 # 2)) with
  | Ok _ r => r
  | _ => referee1 3 (1 # 2)
  end.

(** Two bots that answer every handshake with "ready". *)
Definition always_ready : nat -> nat -> Outcome :=
  some_bots [[Line "ready"; Line "ready"]; [Line "ready"; Line "ready"]].

(** [referee2] after [StartPlayers]. *)
Definition started2 : @Referee LowRng :=
  match StartPlayers (G := TurnGame 2) always_ready (referee2 3 1) with
  | Ok _ r => r
  | _ => referee2 3 1
  end.

(** A referee whose only bot has one protocol error. *)
Definition referee_with_error : @Referee LowRng :=
  set_errors [mkBotErrors 1 0 0 0] (referee1 3 0).

(** Two matches: the bot writes "x" at the start of the first, is
    restarted, and follows the protocol in the second. *)
Definition wrong_then_polite : nat -> nat -> Outcome :=
  one_bot ([Line "ready"] ++ wrong_match ++ [Line "ready"] ++ polite_match)%list.

(** A line that is one NUL character, and a line with the digits of 2^32. *)
Definition nul_line : string := String "000"%char "".
Definition big_line : string := "4294967296".

(** One match in which the bot answers its turn with [line]. *)
Definition answers (line : string) : nat -> nat -> Outcome :=
  one_bot [Line "ready"; Line "start"; Line line; Line "match over"].

(** A channel in the middle of a match, with "start" in its response slot
    from the cycle before, and a pipe that delivers "ponder" and a newline. *)
Definition channel_after_start : BotChannel :=
  commit_outcome (Line "start") (start_read 100 (MakeBotChannel 0 "bot0")).


(** ** The rest of the code *)

(** *** Pipes *)

(** The reads that deliver the characters of [s], one at a time. *)
Definition reads_of (s : string) : list ReadResult :=
  map ReadChar (list_ascii_of_string s).

(** [s] holds no newline. *)
Fixpoint no_newline (s : string) : bool :=
  match s with
  | EmptyString => true
  | String c s' => negb (Ascii.eqb c nl) && no_newline s'
  end.

(** The characters that a descriptor delivers, in their order. *)
Fixpoint text_of (fd : list ReadResult) : string :=
  match fd with
  | [] => ""
  | ReadChar c :: fd' => String c (text_of fd')
  | _ :: fd' => text_of fd'
  end.

(** No call of [read] on the descriptor gives 0: the other end of the
    pipe stays open. *)
Fixpoint never_at_end (fd : list ReadResult) : bool :=
  match fd with
  | [] => true
  | ReadNothing :: _ => false
  | _ :: fd' => never_at_end fd'
  end.

(** *** getline_async on a std::istream (utils.cc)

    The loop of utils.cc, lines 30 to 52.  [is.readsome(&c, 1)] gives one
    character, or 0 when the stream has none at hand; the stream is the
    list of what the successive calls give.  Unlike [read] on a descriptor,
    [readsome] gives 0 at a pause of the writer too, and the loop stops
    there. *)

Fixpoint getline_istream_loop (stream : list (option ascii)) (line_out buf : string)
  : bool * string * string * list (option ascii) :=
  match stream with
  | [] => (false, line_out, buf, [])
  | None :: stream' => (false, line_out, buf, stream')
  | Some c :: stream' =>
      if Ascii.eqb c nl then (true, buf, "", stream')
      else getline_istream_loop stream' line_out (buf +:+ String c "")
  end.

Definition getline_async_istream (stream : list (option ascii)) (line_out buf : string)
  : bool * string * string * list (option ascii) :=
  getline_istream_loop stream "" buf.

(** The calls of [readsome] that deliver the characters of [s]. *)
Definition stream_of (s : string) : list (option ascii) :=
  map Some (list_ascii_of_string s).

(** *** The constructor (Referee::Referee)

    What the constructor asks of the file system:
    [std::filesystem::exists(f)] and [access(executable, X_OK) == 0]. *)

Record FileSystem := mkFileSystem {
  fs_exists : string -> bool;
  fs_x_ok : string -> bool
}.

(** The loop of lines 496 to 507: the message of the first
    [SpielFatalError], if there is one. *)
Fixpoint check_executables (fs : FileSystem) (executables : list string) : option string :=
  match executables with
  | [] => None
  | executable :: rest =>
      if negb (fs_exists fs executable) then
        Some ("The bot file '" +:+ executable +:+ "' was not found.")
      else if negb (fs_x_ok fs executable) then
        Some ("The bot file '" +:+ executable
              +:+ "' cannot be executed. (missing +x flag?)")
      else check_executables fs rest
  end.

(** The member initialisers of lines 485 to 493 run before the body of the
    constructor.  [LoadGame(game_name)] and the two calls of [MakeObserver]
    are the game engine's, and each can stop the constructor with a
    [SpielFatalError]: the engine says with which message, if it does. *)
Inductive IIGObservationType := kPublicObsType | kPrivateObsType.

Record Engine := mkEngine {
  LoadGame_error : string -> option string;
  MakeObserver_error : string -> IIGObservationType -> option string
}.

Definition initialisers (engine : Engine) (game_name : string) : option string :=
  match LoadGame_error engine game_name with
  | Some msg => Some msg
  | None =>
      match MakeObserver_error engine game_name kPublicObsType with
      | Some msg => Some msg
      | None => MakeObserver_error engine game_name kPrivateObsType
      end
  end.

Section Constructor.

Context {RE : RandomEngine}.

(** The body of [Referee::Referee], lines 494 to 507: the check that there
    is an executable, then the checks of the files. *)
Definition ConstructReferee_body (fs : FileSystem) (game_name : string)
    (executables : list string) (seed : Z) (settings : TournamentSettings)
  : Result Referee unit :=
  match NewReferee game_name executables seed settings with
  | None => Fatal "SPIEL_CHECK_FALSE(executables_.empty())"
  | Some r =>
      match check_executables fs executables with
      | Some msg => Fatal msg
      | None => Ok tt r
      end
  end.

(** [Referee::Referee]: the initialisers, then the body. *)
Definition ConstructReferee (engine : Engine) (fs : FileSystem) (game_name : string)
    (executables : list string) (seed : Z) (settings : TournamentSettings)
  : Result Referee unit :=
  match initialisers engine game_name with
  | Some msg => Fatal msg
  | None => ConstructReferee_body fs game_name executables seed settings
  end.

End Constructor.

(** *** Notions used to state the properties *)

(** What [CheckResponse] makes of the counters of a bot whose channel is
    [c]: nothing when the response is the expected one; otherwise one
    protocol error, and one time-over when the read timed out. *)
Definition charged (expected_response : string) (c : BotChannel) (e : BotErrors)
  : BotErrors :=
  if String.eqb (response c) expected_response then e
  else mkBotErrors (protocol_error e + 1) (illegal_actions e) (ponder_error e)
         (time_over e + (if is_time_out c then 1 else 0)).

(** A file system in which the files of the list exist, and those of the
    second list can be executed. *)
Definition files (present executable : list string) : FileSystem :=
  mkFileSystem (fun f => existsb (String.eqb f) present)
               (fun f => existsb (String.eqb f) executable).

(** A text made of decimal digits only. *)
Definition is_digit (c : ascii) : bool :=
  match digit_of c with
  | Some _ => true
  | None => false
  end.

Fixpoint all_digits (s : string) : bool :=
  match s with
  | EmptyString => true
  | String c s' => is_digit c && all_digits s'
  end.

Section MoreNotions.

Context {G : Game} {RE : RandomEngine}.

(** No counter of [e'] is below the one of [e]. *)
Definition counters_le (e e' : BotErrors) : Prop :=
  protocol_error e <= protocol_error e'
  /\ illegal_actions e <= illegal_actions e'
  /\ ponder_error e <= ponder_error e'
  /\ time_over e <= time_over e'.

(** The run kept the bots' counters in place and lowered none. *)
Definition errors_grow (r r' : Referee) : Prop :=
  length (errors_ r') = length (errors_ r)
  /\ forall (pl : nat) e e',
       errors_ r !! pl = Some e -> errors_ r' !! pl = Some e' -> counters_le e e'.

(** The run announced no match. *)
Definition no_announcement (r r' : Referee) : Prop :=
  matches_announced (log_ r') = matches_announced (log_ r).

(** The length of the history of a state, as a rational. *)
Definition history_len (state : State) : Q :=
  inject_Z (Z.of_nat (length (FullHistory state))).

(** [disqualified[pl]]. *)
Definition flag (v : list bool) (pl : nat) : bool := nth pl v false.

(** The account of bot [pl] in the results, for the corruption threshold
    [thr]: every corrupted match was followed by a restart, but for the one
    that disqualified the bot; the bot was restarted only while its
    corrupted matches were within the threshold; and it is disqualified
    only above the threshold. *)
Definition bot_tally (thr : Z) (res : TournamentResults) (pl : nat) : Prop :=
  zat (corrupted_matches res) pl
  = zat (restarts res) pl + (if flag (disqualified res) pl then 1 else 0)
  /\ (zat (restarts res) pl = 0 \/ zat (restarts res) pl <= thr)
  /\ (flag (disqualified res) pl = true -> thr < zat (corrupted_matches res) pl).

(** The results while the tournament goes on: vectors of [n] entries, no
    bot disqualified, every account in order. *)
Definition standing (thr : Z) (n : nat) (res : TournamentResults) : Prop :=
  length (corrupted_matches res) = n
  /\ length (restarts res) = n
  /\ length (disqualified res) = n
  /\ Forall (fun b => b = false) (disqualified res)
  /\ forall pl, (pl < n)%nat -> bot_tally thr res pl.

(** The run made no channel and changed no [shutdown_] flag. *)
Definition flags_kept (r r' : Referee) : Prop :=
  length (store r') = length (store r)
  /\ forall (b : nat) cb cb',
       store r !! b = Some cb -> store r' !! b = Some cb' ->
       shutdown_ cb' = shutdown_ cb.

(** The run kept the number of entries of [errors_]. *)
Definition errors_len (r r' : Referee) : Prop :=
  length (errors_ r') = length (errors_ r).

(** The results are those of [n] bots, and every recorded match has a
    return and an entry of errors for each of them. *)
Definition printable (n : nat) (res : TournamentResults) : Prop :=
  num_bots_ res = n
  /\ Forall (fun m => forall pl, (pl < n)%nat ->
                is_Some (Returns (terminal m) !! pl) /\ is_Some (errors m !! pl))
       (matches res).

End MoreNotions.

(** The channel once "tournament over" was sent to the bot. *)
Definition told_over (c : BotChannel) : BotChannel :=
  write_in endl (write_in kTournamentOverMessage c).

(** *** Printing the results as CSV (TournamentResults::PrintCsv)

    The function writes to a stream; the model gives the text written.
    [os << d] for a [double] is left to [show_double]; the integers are
    written in decimal.  An index past the end of [Returns()] or of
    [match.errors], undefined behaviour in the source, gives [None]. *)

Section Csv.

Context {G : Game} {RE : RandomEngine}.
Variable show_double : Q -> string.

(** Lines 627 to 631, for one player. *)
Definition csv_header_entry (pl : nat) : string :=
  "returns[" +:+ to_string (Z.of_nat pl) +:+ "],"
  +:+ "protocol_error[" +:+ to_string (Z.of_nat pl) +:+ "],"
  +:+ "illegal_actions[" +:+ to_string (Z.of_nat pl) +:+ "],"
  +:+ "ponder_error[" +:+ to_string (Z.of_nat pl) +:+ "],"
  +:+ "time_over[" +:+ to_string (Z.of_nat pl) +:+ "]".

Fixpoint csv_header_entries (pls : list nat) : string :=
  match pls with
  | [] => ""
  | pl :: pls' => csv_header_entry pl +:+ csv_header_entries pls'
  end.

(** Lines 625 to 633. *)
Definition csv_header (num_bots : nat) : string :=
  "history," +:+ csv_header_entries (seq 0 num_bots) +:+ endl.

(** Lines 638 to 643, for one player. *)
Definition csv_entry (m : MatchResult) (pl : nat) : option string :=
  match Returns (terminal m) !! pl, errors m !! pl with
  | Some ret, Some e =>
      Some ("," +:+ show_double ret
            +:+ "," +:+ to_string (protocol_error e)
            +:+ "," +:+ to_string (illegal_actions e)
            +:+ "," +:+ to_string (ponder_error e)
            +:+ "," +:+ to_string (time_over e))
  | _, _ => None
  end.

Fixpoint csv_entries (m : MatchResult) (pls : list nat) : option string :=
  match pls with
  | [] => Some ""
  | pl :: pls' =>
      match csv_entry m pl, csv_entries m pls' with
      | Some entry, Some rest => Some (entry +:+ rest)
      | _, _ => None
      end
  end.

(** Lines 636 to 645: the row of one match. *)
Definition csv_row (num_bots : nat) (m : MatchResult) : option string :=
  match csv_entries m (seq 0 num_bots) with
  | Some entries =>
      Some (String.concat " " (map to_string (History (terminal m)))
            +:+ entries +:+ endl)
  | None => None
  end.

Fixpoint csv_rows (num_bots : nat) (ms : list MatchResult) : option string :=
  match ms with
  | [] => Some ""
  | m :: ms' =>
      match csv_row num_bots m, csv_rows num_bots ms' with
      | Some row, Some rest => Some (row +:+ rest)
      | _, _ => None
      end
  end.

(** [TournamentResults::PrintCsv]. *)
Definition PrintCsv (results : TournamentResults) (print_header : bool) : option string :=
  match csv_rows (num_bots_ results) (matches results) with
  | Some rows =>
      Some ((if print_header then csv_header (num_bots_ results) else "") +:+ rows)
  | None => None
  end.

End Csv.

(** How often a character occurs in a text. *)
Fixpoint count_char (ch : ascii) (s : string) : nat :=
  match s with
  | EmptyString => 0
  | String c s' => (if Ascii.eqb c ch then 1 else 0) + count_char ch s'
  end.

(** A way to write a [double]: its integer part, in decimal. *)
Definition show_integer_part (q : Q) : string := to_string (Qtruncate q).

(** *** More runs used as examples *)

(** [started2] after [ShutDownPlayer(0)]: the first half of a restart of
    bot 0. *)
Definition shut0 : @Referee LowRng :=
  match ShutDownPlayer 0 started2 with
  | Ok _ r => r
  | _ => started2
  end.

(** [started1] with the bot over a limit of 3 errors. *)
Definition over_limit1 : @Referee LowRng :=
  set_errors [mkBotErrors 4 0 0 0] started1.

(** A channel that holds the answer [line], read in time. *)
Definition answered (line : string) : BotChannel :=
  commit_outcome (Line line) channel_after_start.

(** The files of the bots: "bot0" can be executed, "bot1" cannot, and
    "bot2" does not exist. *)
Definition some_files : FileSystem := files ["bot0"; "bot1"] ["bot0"].

(** An engine that knows the game "turn" and makes its observers. *)
Definition turn_engine : Engine :=
  mkEngine (fun name => if String.eqb name "turn" then None else Some "unknown game")
           (fun _ _ => None).

(** Bot 0 answers the handshake; bot 1 is alive and writes nothing. *)
Definition ready_and_silent : nat -> nat -> Outcome :=
  some_bots [[Line "ready"; Silent]].

(** The double nearest to 0.29, and the one nearest to 0.7. *)
Definition double_0_29 : Q := round_double (29 # 100).
Definition double_0_7 : Q := round_double (7 # 10).

(** A match of [TurnGame 2] in which the bots played 0 and 1, recorded
    without errors, and the results that hold it. *)
Definition match_0_1 : @MatchResult (TurnGame 2) :=
  @mkMatchResult (TurnGame 2) [0; 1] [Reset; Reset].

Definition results_0_1 : @TournamentResults (TurnGame 2) :=
  push_match match_0_1 (NewTournamentResults 2).

(** * Properties *)

(** ** The reader *)

Lemma getline_loop_consumes fd line_out buf :
  exists consumed,
    fd = (consumed ++ (getline_loop fd line_out buf).2)%list
    /\ ((getline_loop fd line_out buf).1.1.1 = true -> In (ReadChar nl) consumed)
    /\ ((getline_loop fd line_out buf).1.1.1 = false ->
        (getline_loop fd line_out buf).1.1.2 = line_out).
Proof.
  revert line_out buf.
  induction fd as [|x fd IH]; intros line_out buf; simpl.
  - exists []. split_and!; done.
  - destruct x as [ch| |].
    + destruct (Ascii.eqb ch nl) eqn:E; simpl.
      * apply Ascii.eqb_eq in E. subst ch.
        exists [ReadChar nl]. split_and!; [done | intros _; now left | done].
      * destruct (IH line_out (buf +:+ String ch "")) as (cs & Hfd & Ht & Hf).
        exists (ReadChar ch :: cs). split_and!.
        -- simpl. now rewrite <- Hfd.
        -- intros H. right. now apply Ht.
        -- exact Hf.
    + exists [ReadNothing]. split_and!; done.
    + destruct (IH line_out buf) as (cs & Hfd & Ht & Hf).
      exists (ReadError :: cs). split_and!.
      * simpl. now rewrite <- Hfd.
      * intros H. right. now apply Ht.
      * exact Hf.
Qed.

(** A poll that reads no line leaves the response slot empty. *)
Lemma getline_async_clears fd line_out buf :
  (getline_async fd line_out buf).1.1.1 = false ->
  (getline_async fd line_out buf).1.1.2 = "".
Proof.
  unfold getline_async. intros H.
  destruct (getline_loop_consumes fd "" buf) as (_ & _ & _ & Hf). now apply Hf.
Qed.

(** The first poll forgets what the response slot held. *)
Lemma read_cycle_forgets p polls fd c stale :
  read_cycle (p :: polls) fd (set_response stale c) = read_cycle (p :: polls) fd c.
Proof.
  destruct c, p as [el [|] [|]]; reflexivity.
Qed.

Lemma read_cycle_consumes polls : forall fd c,
  exists consumed,
    fd = (consumed ++ (read_cycle polls fd c).2)%list
    /\ (response_ (read_cycle polls fd c).1.2 <> response_ c ->
        response_ (read_cycle polls fd c).1.2 <> "" ->
        In (ReadChar nl) consumed).
Proof.
  induction polls as [|p polls IH]; intros fd c.
  - exists []. simpl. split; [reflexivity | congruence].
  - cbn [read_cycle].
    set (c1 := referee_flags p c).
    assert (Hr1 : response_ c1 = response_ c).
    { subst c1. unfold referee_flags. destruct (p_cancel p), (p_shutdown p); reflexivity. }
    destruct (getline_loop_consumes fd "" (buf_ c1)) as (cs & Hfd & Ht & Hf).
    unfold getline_async.
    destruct (getline_loop fd "" (buf_ c1)) as [[[line_read line_out] buf] fd1] eqn:E.
    simpl in Hfd, Ht, Hf.
    destruct line_read.
    + exists cs. simpl. split; [exact Hfd | intros _ _; now apply Ht].
    + specialize (Hf eq_refl). subst line_out.
      set (c2 := set_time_out _ _).
      assert (Hr2 : response_ c2 = "") by reflexivity.
      destruct (time_out_ c2) eqn:Eto;
        [exists cs; simpl; split; [exact Hfd | intros _ H; now elim H] |].
      destruct (cancel_read_ c2) eqn:Ecr;
        [exists cs; simpl; split; [exact Hfd | intros _ H; now elim H] |].
      destruct (shutdown_ c2) eqn:Esd;
        [exists cs; simpl; split; [exact Hfd | intros _ H; now elim H] |].
      destruct (IH fd1 c2) as (cs' & Hfd' & Hnl).
      exists (cs ++ cs')%list. split.
      * rewrite <- app_assoc, <- Hfd'. exact Hfd.
      * intros _ Hne. apply in_or_app. right. apply Hnl; [| exact Hne].
        rewrite Hr2. exact Hne.
Qed.

(** A cycle that the reader has left ends in one of the three ways of
    [Outcome]: a line and no timeout, or an empty response. *)
Lemma read_cycle_outcome polls : forall fd c,
  time_out_ c = false ->
  (read_cycle polls fd c).1.1 = Parked ->
  exists o : Outcome,
    response_ (read_cycle polls fd c).1.2 = response_ (commit_outcome o c)
    /\ time_out_ (read_cycle polls fd c).1.2 = time_out_ (commit_outcome o c)
    /\ wait_for_message_ (read_cycle polls fd c).1.2
       = wait_for_message_ (commit_outcome o c).
Proof.
  induction polls as [|p polls IH]; intros fd c Hto Hend; [discriminate|].
  cbn [read_cycle] in *.
  set (c1 := referee_flags p c) in *.
  assert (Hto1 : time_out_ c1 = false).
  { subst c1. unfold referee_flags. destruct (p_cancel p), (p_shutdown p); exact Hto. }
  pose proof (getline_async_clears fd (response_ c1) (buf_ c1)) as Hclear.
  destruct (getline_async fd (response_ c1) (buf_ c1))
    as [[[line_read line_out] buf] fd1].
  simpl in Hclear. destruct line_read.
  - exists (Line line_out). simpl. rewrite Hto1. done.
  - rewrite (Hclear eq_refl) in *.
    set (c2 := set_time_out _ _) in *.
    destruct (time_out_ c2) eqn:Eto;
      [exists TimedOut; split_and!; [done | exact Eto | done]|].
    destruct (cancel_read_ c2);
      [exists NoLine; split_and!; [done | exact Eto | done]|].
    destruct (shutdown_ c2); [discriminate|].
    destruct (IH fd1 c2 Eto Hend) as (o & E1 & E2 & E3).
    exists o. rewrite E1, E2, E3. destruct o; try done.
    cbn [commit_outcome response_ time_out_ wait_for_message_ set_response].
    split_and!; [done | congruence |].
    subst c2 c1. unfold referee_flags. now destruct (p_cancel p), (p_shutdown p).
Qed.



(** ** Reasoning about runs *)

Section Runs.

Context {G : Game} {RE : RandomEngine}.
Variable bots : nat -> nat -> Outcome.

Lemma bind_Ok {A B} (m : M A) (f : A -> M B) r b r2 :
  bind m f r = Ok b r2 -> exists a r1, m r = Ok a r1 /\ f a r1 = Ok b r2.
Proof.
  unfold bind. destruct (m r) as [a r1| | |]; try discriminate. eauto.
Qed.

Lemma bind_run {A B} (m : M A) (f : A -> M B) r a r1 :
  m r = Ok a r1 -> bind m f r = f a r1.
Proof. unfold bind. now intros ->. Qed.

(** Whether a cycle is under way does not depend on [cancel_read_]. *)
Lemma reading_cancel r a c sto :
  reading (set_store sto r) a (set_cancel_read true c) = reading r a c.
Proof. reflexivity. Qed.

(** [CancelReadBlocking] returns when no read cycle is under way on the
    channel, and then it has set [cancel_read_] and nothing else; when a
    cycle is under way it does not return. *)
Lemma CancelReadBlocking_cases a r :
  match store r !! a with
  | Some c =>
      CancelReadBlocking a r
      = if reading r a c then Hang
        else Ok tt (set_store (<[a := set_cancel_read true c]> (store r)) r)
  | None => CancelReadBlocking a r = Fatal "dangling channel"
  end.
Proof.
  unfold CancelReadBlocking, lock_mx_read, bind, update_channel, get_channel, gets.
  destruct (store r !! a) as [c|] eqn:Ec; [|reflexivity].
  cbn [store set_store].
  rewrite list_lookup_insert_eq by (now apply lookup_lt_Some in Ec).
  rewrite reading_cancel. now destruct (reading r a c).
Qed.

Lemma CancelReadBlocking_Ok a r u r' :
  CancelReadBlocking a r = Ok u r' ->
  exists c, store r !! a = Some c /\ reading r a c = false
            /\ r' = set_store (<[a := set_cancel_read true c]> (store r)) r.
Proof.
  intros H. pose proof (CancelReadBlocking_cases a r) as Hc.
  destruct (store r !! a) as [c|]; [|congruence].
  exists c. destruct (reading r a c); [congruence|].
  rewrite Hc in H. inversion H. done.
Qed.

Lemma CancelReadBlocking_run a r c :
  store r !! a = Some c ->
  reading r a c = false ->
  CancelReadBlocking a r = Ok tt (set_store (<[a := set_cancel_read true c]> (store r)) r).
Proof.
  intros Ec Hr. pose proof (CancelReadBlocking_cases a r) as Hc.
  now rewrite Ec, Hr in Hc.
Qed.

Section Keeps.

Variable R : Referee -> Referee -> Prop.
Hypothesis R_refl : forall r, R r r.
Hypothesis R_trans : forall r1 r2 r3, R r1 r2 -> R r2 r3 -> R r1 r3.

Lemma keeps_ret {A} (a : A) : keeps R (ret a).
Proof. intros r a' r' H. inversion H. subst. apply R_refl. Qed.

Lemma keeps_fatal {A} msg : keeps R (@fatal _ A msg).
Proof. intros r a r' H. discriminate. Qed.

Lemma keeps_hang {A} : keeps R (@hang _ A).
Proof. intros r a r' H. discriminate. Qed.

Lemma keeps_gets {A} (f : Referee -> A) : keeps R (gets f).
Proof. intros r a r' H. inversion H. subst. apply R_refl. Qed.

Lemma keeps_bind {A B} (m : M A) (f : A -> M B) :
  keeps R m -> (forall a, keeps R (f a)) -> keeps R (bind m f).
Proof.
  intros Hm Hf r b r2 H. apply bind_Ok in H as (a & r1 & H1 & H2).
  eapply R_trans; [eapply Hm | eapply Hf]; eauto.
Qed.

Lemma keeps_for_each pls body :
  (forall pl, keeps R (body pl)) -> keeps R (for_each pls body).
Proof.
  intros Hb. induction pls as [|pl pls IH]; simpl.
  - apply keeps_ret.
  - apply keeps_bind; [apply Hb | intros _; exact IH].
Qed.

Lemma keeps_modify f : (forall r, R r (f r)) -> keeps R (modify f).
Proof. intros Hf r a r' H. inversion H. subst. apply Hf. Qed.

Lemma keeps_at_index {A} what (v : list A) i : keeps R (at_index what v i).
Proof.
  intros r a r' H. unfold at_index in H. destruct (v !! i); inversion H.
  subst. apply R_refl.
Qed.

Lemma keeps_channel_at pl : keeps R (channel_at pl).
Proof.
  intros r a r' H. unfold channel_at in H.
  destruct (channels_ r !! pl) as [[b|]|]; inversion H. subst. apply R_refl.
Qed.

Lemma keeps_get_channel a : keeps R (get_channel a).
Proof.
  intros r c r' H. unfold get_channel in H.
  destruct (store r !! a); inversion H. subst. apply R_refl.
Qed.

Lemma keeps_errors_at pl : keeps R (errors_at pl).
Proof.
  intros r c r' H. unfold errors_at in H.
  destruct (errors_ r !! pl); inversion H. subst. apply R_refl.
Qed.

Lemma keeps_executable_at pl : keeps R (executable_at pl).
Proof.
  intros r c r' H. unfold executable_at in H.
  destruct (executables_ r !! pl); inversion H. subst. apply R_refl.
Qed.

Lemma keeps_channels_back : keeps R channels_back.
Proof.
  intros r c r' H. unfold channels_back in H.
  destruct (last (channels_ r)) as [[b|]|]; inversion H. subst. apply R_refl.
Qed.

Lemma keeps_CancelReadBlocking a :
  keeps R (update_channel a (set_cancel_read true)) -> keeps R (CancelReadBlocking a).
Proof.
  intros K r u r' H. apply CancelReadBlocking_Ok in H as (c & Ec & _ & ->).
  apply (K r tt). unfold update_channel. now rewrite Ec.
Qed.

Lemma keeps_join threads pl : keeps R (join threads pl).
Proof.
  intros r c r' H. unfold join in H.
  destruct (threads r !! pl) as [[b|]|]; try discriminate.
  destruct (store r !! b) as [ch|]; try discriminate.
  destruct (shutdown_ ch); inversion H. subst. apply R_refl.
Qed.

End Keeps.

End Runs.

(** ** What the operations leave alone *)

Section Quiet.

Context {G : Game} {RE : RandomEngine}.
Variable bots : nat -> nat -> Outcome.

Lemma quiet_refl r : quiet r r.
Proof. repeat split. Qed.

Lemma quiet_trans r1 r2 r3 : quiet r1 r2 -> quiet r2 r3 -> quiet r1 r3.
Proof.
  intros (E1 & S1 & N1 & L1) (E2 & S2 & N2 & L2).
  unfold quiet. split_and!; [congruence | congruence | congruence |].
  intros pl. rewrite L2. apply L1.
Qed.

Lemma q_ret {A} (a : A) : keeps quiet (ret a).
Proof. apply keeps_ret, quiet_refl. Qed.

Lemma q_fatal {A} msg : keeps quiet (@fatal _ A msg).
Proof. apply keeps_fatal. Qed.

Lemma q_gets {A} (f : Referee -> A) : keeps quiet (gets f).
Proof. apply keeps_gets, quiet_refl. Qed.

Lemma q_bind {A B} (m : M A) (f : A -> M B) :
  keeps quiet m -> (forall a, keeps quiet (f a)) -> keeps quiet (bind m f).
Proof. apply keeps_bind, quiet_trans. Qed.

Lemma q_for_each pls body :
  (forall pl, keeps quiet (body pl)) -> keeps quiet (for_each pls body).
Proof. apply keeps_for_each; [apply quiet_refl | apply quiet_trans]. Qed.

Lemma q_for_players body :
  (forall pl, keeps quiet (body pl)) -> keeps quiet (for_players body).
Proof.
  intros Hb. unfold for_players. apply q_bind; [apply q_gets|].
  intros pls. now apply q_for_each.
Qed.

Lemma q_at_index {A} what (v : list A) i : keeps quiet (at_index what v i).
Proof. apply keeps_at_index, quiet_refl. Qed.

Lemma q_channel_at pl : keeps quiet (channel_at pl).
Proof. apply keeps_channel_at, quiet_refl. Qed.

Lemma q_get_channel a : keeps quiet (get_channel a).
Proof. apply keeps_get_channel, quiet_refl. Qed.

Lemma q_errors_at pl : keeps quiet (errors_at pl).
Proof. apply keeps_errors_at, quiet_refl. Qed.

Lemma q_executable_at pl : keeps quiet (executable_at pl).
Proof. apply keeps_executable_at, quiet_refl. Qed.

Lemma q_channels_back : keeps quiet channels_back.
Proof. apply keeps_channels_back, quiet_refl. Qed.

Lemma q_join threads pl : keeps quiet (join threads pl).
Proof. apply keeps_join, quiet_refl. Qed.

Lemma q_modify f :
  (forall r, executables_ (f r) = executables_ r /\ settings_ (f r) = settings_ r
             /\ game_name_ (f r) = game_name_ r /\ log_ (f r) = log_ r) ->
  keeps quiet (modify f).
Proof.
  intros Hf. apply keeps_modify. intros r. destruct (Hf r) as (E & S & N & L).
  repeat split; try assumption. intros pl. now rewrite L.
Qed.

Lemma q_update_channel a f : keeps quiet (update_channel a f).
Proof.
  intros r u r' H. unfold update_channel in H.
  destruct (store r !! a); inversion H. repeat split.
Qed.

Lemma q_update_errors pl f : keeps quiet (update_errors pl f).
Proof.
  intros r u r' H. unfold update_errors in H.
  destruct (errors_ r !! pl); inversion H. repeat split.
Qed.

Lemma q_sleep_ms ms : keeps quiet (sleep_ms bots ms).
Proof. apply q_modify. intros r. repeat split. Qed.

Lemma q_alloc c : keeps quiet (alloc c).
Proof. intros r a r' H. inversion H. repeat split. Qed.

Lemma q_draw {A} (f : Rng -> A * Rng) : keeps quiet (draw f).
Proof.
  intros r a r' H. unfold draw in H. destruct (f (rng_ r)). inversion H.
  repeat split.
Qed.

Lemma q_assign_channels pl v : keeps quiet (assign_slot channels_ set_channels pl v).
Proof.
  intros r a r' H. unfold assign_slot in H.
  destruct (decide _); inversion H. repeat split.
Qed.

Lemma q_assign_stdout pl v :
  keeps quiet (assign_slot threads_stdout_ set_threads_stdout pl v).
Proof.
  intros r a r' H. unfold assign_slot in H.
  destruct (decide _); inversion H. repeat split.
Qed.

Lemma q_assign_stderr pl v :
  keeps quiet (assign_slot threads_stderr_ set_threads_stderr pl v).
Proof.
  intros r a r' H. unfold assign_slot in H.
  destruct (decide _); inversion H. repeat split.
Qed.

Lemma q_log l : (forall pl, is_returns pl l = None) -> keeps quiet (log l).
Proof.
  intros Hl. apply keeps_modify. intros r. repeat split. intros pl. simpl.
  unfold returns_of. rewrite omap_app. simpl. rewrite Hl. apply app_nil_r.
Qed.

End Quiet.

Create HintDb quiet.

#[local] Hint Resolve q_ret q_fatal q_gets q_at_index q_channel_at q_get_channel
  q_errors_at q_executable_at q_channels_back q_join q_update_channel
  q_update_errors q_sleep_ms q_alloc q_draw q_assign_channels q_assign_stdout
  q_assign_stderr : quiet.

(** Goes through a body made of binds, tests and operations known to be
    quiet. *)
Ltac quiet_step :=
  first
    [ solve [eauto with quiet]
    | apply q_for_each; intros ?
    | apply q_for_players; intros ?
    | apply q_bind; [| intros ?]
    | apply q_log; intros ?; reflexivity
    | apply q_modify; intros ?; repeat split
    | match goal with
      | |- keeps quiet (if ?b then _ else _) => destruct b
      | |- keeps quiet (match ?x with _ => _ end) => destruct x
      | |- keeps quiet (let '(_, _) := ?x in _) => destruct x
      end ].

Ltac quiet_tac := repeat quiet_step.

Section QuietOperations.

Context {G : Game} {RE : RandomEngine}.
Variable bots : nat -> nat -> Outcome.

Lemma q_write a s : keeps quiet (write a s).
Proof. apply q_update_channel. Qed.

Lemma q_StartRead a t : keeps quiet (StartRead a t).
Proof. unfold StartRead. quiet_tac. Qed.

Lemma q_CancelReadBlocking a : keeps quiet (CancelReadBlocking a).
Proof. apply keeps_CancelReadBlocking, q_update_channel. Qed.

Lemma q_send_setup a pl : keeps quiet (send_setup a pl).
Proof. unfold send_setup. pose proof q_write. quiet_tac. Qed.

Lemma q_spawn_bot pl : keeps quiet (spawn_bot pl).
Proof. unfold spawn_bot. quiet_tac. Qed.

Lemma q_send_handshake pl : keeps quiet (send_handshake pl).
Proof. unfold send_handshake. pose proof q_send_setup. pose proof q_StartRead. quiet_tac. Qed.

Lemma q_CheckResponse e pl : keeps quiet (CheckResponse e pl).
Proof. unfold CheckResponse. pose proof q_CancelReadBlocking. quiet_tac. Qed.

Lemma q_check_responses e pls : keeps quiet (check_responses e pls).
Proof.
  induction pls as [|pl pls IH]; simpl; pose proof q_CheckResponse; quiet_tac.
Qed.

Lemma q_CheckResponses e : keeps quiet (CheckResponses e).
Proof. unfold CheckResponses. pose proof q_check_responses. quiet_tac. Qed.

Lemma q_StartPlayers : keeps quiet (StartPlayers bots).
Proof.
  unfold StartPlayers.
  pose proof q_spawn_bot. pose proof q_send_handshake. pose proof q_CheckResponses.
  quiet_tac.
Qed.

Lemma q_StartPlayer pl : keeps quiet (StartPlayer bots pl).
Proof.
  unfold StartPlayer.
  pose proof q_send_handshake. pose proof q_CheckResponse.
  quiet_tac.
Qed.

Lemma q_ShutDownPlayer pl : keeps quiet (ShutDownPlayer pl).
Proof. unfold ShutDownPlayer. quiet_tac. Qed.

Lemma q_RestartPlayer pl : keeps quiet (RestartPlayer bots pl).
Proof.
  unfold RestartPlayer. pose proof q_ShutDownPlayer. pose proof q_StartPlayer.
  quiet_tac.
Qed.

Lemma q_TournamentOver : keeps quiet (TournamentOver bots).
Proof. unfold TournamentOver, for_players. pose proof q_write. quiet_tac. Qed.

Lemma q_ResetErrorTracking : keeps quiet ResetErrorTracking.
Proof. unfold ResetErrorTracking. quiet_tac. Qed.

Lemma q_corrupted_match_due pl : keeps quiet (corrupted_match_due pl).
Proof. unfold corrupted_match_due. quiet_tac. Qed.

Lemma q_ParseResponse pl c legal a : keeps quiet (ParseResponse pl c legal a).
Proof. unfold ParseResponse. quiet_tac. Qed.

Lemma q_PickAction legal a : keeps quiet (PickAction legal a).
Proof. unfold PickAction. quiet_tac. Qed.

Lemma q_parse_actions state is_acting pls : forall acts,
  keeps quiet (parse_actions state is_acting pls acts).
Proof.
  induction pls as [|pl pls IH]; intros acts; simpl;
    pose proof q_ParseResponse; pose proof q_PickAction; quiet_tac.
Qed.

Lemma q_apply_actions state acts : keeps quiet (apply_actions state acts).
Proof. unfold apply_actions. quiet_tac. Qed.

Lemma q_check_ponder is_acting pl : keeps quiet (check_ponder is_acting pl).
Proof. unfold check_ponder. quiet_tac. Qed.

Lemma q_PlayTurn state order : keeps quiet (PlayTurn bots state order).
Proof.
  unfold PlayTurn.
  pose proof q_write. pose proof q_StartRead. pose proof q_check_ponder.
  pose proof q_CancelReadBlocking. pose proof q_parse_actions.
  pose proof q_apply_actions.
  quiet_tac.
Qed.

Lemma q_match_loop fuel : forall state order,
  keeps quiet (match_loop bots fuel state order).
Proof.
  induction fuel as [|fuel IH]; intros state order; simpl.
  - destruct (IsTerminal state); [apply q_ret | intros r a r' H; discriminate].
  - pose proof q_PlayTurn. quiet_tac.
Qed.

End QuietOperations.

#[local] Hint Resolve q_write q_StartRead q_CancelReadBlocking q_send_setup
  q_spawn_bot q_send_handshake q_CheckResponse q_check_responses q_CheckResponses q_StartPlayers
  q_StartPlayer q_ShutDownPlayer q_RestartPlayer q_TournamentOver
  q_ResetErrorTracking q_corrupted_match_due q_ParseResponse q_PickAction
  q_parse_actions q_apply_actions q_check_ponder q_PlayTurn q_match_loop : quiet.

(** Takes the first operation off a run and, when it is a quiet one, says
    so. *)
Ltac run_step H :=
  let a := fresh "a" in
  let r1 := fresh "r" in
  let Q := fresh "Q" in
  apply bind_Ok in H as (a & r1 & Q & H);
  try match type of Q with
      | ?m _ = Ok _ _ =>
          let K := fresh "K" in
          assert (K : keeps quiet m) by quiet_tac;
          apply K in Q; clear K
      end.

Section MatchLog.

Context {G : Game} {RE : RandomEngine}.
Variable bots : nat -> nat -> Outcome.

(** The loop of lines 406 to 416 reports, for each player of the list, its
    entry of [returns]. *)
Lemma returns_logged (returns : list Q) (pls : list nat) : forall r r',
  for_each pls (fun pl =>
    let* ret_pl := at_index "returns out of range" returns pl in
    let* _ := log (LogBotReturns pl ret_pl) in
    let* e := errors_at pl in
    log (LogBotErrors pl e)) r = Ok tt r' ->
  executables_ r' = executables_ r /\ settings_ r' = settings_ r
  /\ game_name_ r' = game_name_ r
  /\ (forall pl, In pl pls -> is_Some (returns !! pl))
  /\ forall pl, returns_of pl (log_ r')
                = (returns_of pl (log_ r)
                   ++ omap (fun pl' => if Nat.eqb pl' pl then returns !! pl' else None) pls)%list.
Proof.
  induction pls as [|p pls IH]; intros r r' H; simpl in H.
  - inversion H. subst. split_and!; try done. intros pl. simpl. now rewrite app_nil_r.
  - apply bind_Ok in H as ([] & r1 & H1 & H).
    apply bind_Ok in H1 as (x & r2 & Hx & H1).
    unfold at_index in Hx. destruct (returns !! p) as [y|] eqn:Ey; [|discriminate].
    inversion Hx. subst x r2. clear Hx.
    apply bind_Ok in H1 as ([] & r3 & Hl & H1).
    inversion Hl. subst r3. clear Hl.
    apply bind_Ok in H1 as (e & r4 & He & Hl).
    unfold errors_at in He. simpl in He.
    destruct (errors_ r !! p); [|discriminate]. inversion He. subst. clear He.
    inversion Hl. subst r1. clear Hl.
    apply IH in H as (E & S & N & I & L). simpl in *.
    split_and!; try done.
    { intros pl [<-|Hin]; [now rewrite Ey | now apply I]. }
    intros pl. rewrite L. unfold returns_of. rewrite !omap_app. simpl.
    rewrite Ey. destruct (Nat.eqb p pl); simpl; now rewrite <- !app_assoc.
Qed.

Lemma omap_seq_pick (returns : list Q) (pl n k : nat) :
  (k <= pl < k + n)%nat ->
  omap (fun pl' => if Nat.eqb pl' pl then returns !! pl' else None) (seq k n)
  = match returns !! pl with Some x => [x] | None => [] end.
Proof.
  revert k. induction n as [|n IH]; intros k Hk; [lia|]. simpl.
  destruct (Nat.eqb_spec k pl) as [->|Hne].
  - assert (Hrest : omap (fun pl' => if Nat.eqb pl' pl then returns !! pl' else None)
                      (seq (S pl) n) = []).
    { clear. generalize (Nat.lt_succ_diag_r pl). generalize (S pl) as k.
      induction n as [|n IH]; intros k Hk; [reflexivity|]. simpl.
      destruct (Nat.eqb_spec k pl); [lia|]. apply IH. lia. }
    unfold omap in Hrest. rewrite Hrest. now destruct (returns !! pl).
  - apply IH. lia.
Qed.

(** A match reports the returns of each player once, and they are the
    returns of the state that [PlayMatch] returns. *)
Lemma PlayMatch_log fuel r state r' :
  PlayMatch bots fuel r = Ok state r' ->
  executables_ r' = executables_ r /\ settings_ r' = settings_ r
  /\ game_name_ r' = game_name_ r
  /\ forall pl, (pl < num_bots r)%nat ->
       exists x, Returns state !! pl = Some x
                 /\ returns_of pl (log_ r') = (returns_of pl (log_ r) ++ [x])%list.
Proof.
  intros H. unfold PlayMatch in H.
  apply bind_Ok in H as (n & r0 & Hn & H). inversion Hn. subst n r0. clear Hn.
  destruct (negb _); [discriminate|].
  apply bind_Ok in H as (st & r0 & Hs & H). inversion Hs. subst st r0. clear Hs.
  apply bind_Ok in H as (pls & r0 & Hp & H). inversion Hp. subst pls r0. clear Hp.
  run_step H. run_step H. run_step H. run_step H. run_step H. run_step H.
  apply bind_Ok in H as ([] & r7 & Hlog & H).
  apply returns_logged in Hlog as (E & S & N & I & L).
  run_step H. run_step H. inversion H. subst. clear H.
  destruct Q as (E1 & S1 & N1 & L1), Q0 as (E2 & S2 & N2 & L2),
    Q1 as (E3 & S3 & N3 & L3), Q2 as (E4 & S4 & N4 & L4),
    Q3 as (E5 & S5 & N5 & L5), Q4 as (E6 & S6 & N6 & L6),
    Q5 as (E7 & S7 & N7 & L7), Q6 as (E8 & S8 & N8 & L8).
  split_and!; try congruence.
  intros pl Hpl.
  assert (Hpick := omap_seq_pick (Returns state) pl (num_bots r) 0).
  rewrite L8, L7, L, L6, L5, L4, L3, L2, L1.
  unfold players. rewrite Hpick by lia.
  destruct (I pl) as [x Ex]; [apply in_seq; lia|].
  rewrite Ex. eauto.
Qed.

End MatchLog.

(** ** Welford's update *)

Local Open Scope Q_scope.

Lemma count_app l x : count (l ++ [x]) == count l + 1.
Proof.
  unfold count. rewrite length_app. simpl.
  rewrite Nat2Z.inj_add, inject_Z_plus. reflexivity.
Qed.

Lemma count_nonneg l : 0 <= count l.
Proof.
  unfold count. change 0 with (inject_Z 0). rewrite <- Zle_Qle. lia.
Qed.

Lemma count_succ_nonzero l : ~ count l + 1 == 0.
Proof.
  intros H. pose proof (count_nonneg l) as Hc.
  assert (Hlt : 0 < count l + 1).
  { apply Qlt_le_trans with (0 + 1); [reflexivity|].
    apply Qplus_le_compat; [exact Hc | apply Qle_refl]. }
  rewrite H in Hlt. now apply Qlt_irrefl in Hlt.
Qed.

Lemma Qsum_app l x : Qsum (l ++ [x]) == Qsum l + x.
Proof. induction l as [|y l IH]; simpl; [ring | rewrite IH; ring]. Qed.

Lemma sqdev_app a l x : sqdev a (l ++ [x]) == sqdev a l + (x - a) * (x - a).
Proof. induction l as [|y l IH]; simpl; [ring | rewrite IH; ring]. Qed.

Lemma sqdev_shift a b l :
  sqdev b l == sqdev a l + (2 # 1) * (a - b) * (Qsum l - count l * a)
               + count l * ((a - b) * (a - b)).
Proof.
  induction l as [|y l IH].
  - unfold count. simpl. ring.
  - change (y :: l) with ([y] ++ l)%list at 3 4.
    unfold count in *. simpl length. rewrite Nat2Z.inj_succ, <- Z.add_1_r, inject_Z_plus.
    simpl sqdev. simpl Qsum. rewrite IH. change (inject_Z 1) with 1. ring.
Qed.

Lemma sqdev_proper a b l : a == b -> sqdev a l == sqdev b l.
Proof.
  intros H. induction l as [|y l IH]; simpl; [reflexivity|].
  rewrite IH, H. reflexivity.
Qed.

Lemma welford_nil : welford [] 0 0.
Proof. split; reflexivity. Qed.

Lemma welford_sum rs m a : welford rs m a -> Qsum rs == count rs * m.
Proof.
  intros [Hm _]. destruct rs as [|x rs].
  - unfold count. simpl. ring.
  - rewrite Hm. unfold mean. field.
    change (x :: rs) with ([] ++ x :: rs)%list.
    intros H. pose proof (count_nonneg rs) as Hc.
    unfold count in *. simpl length in H.
    rewrite Nat2Z.inj_succ, <- Z.add_1_r, inject_Z_plus in H.
    apply (count_succ_nonzero rs). exact H.
Qed.

(** Lines 543 to 546 keep the law. *)
Lemma welford_step rs m a x :
  welford rs m a ->
  let m' := m + (x - m) / inject_Z (Z.of_nat (length rs) + 1) in
  welford (rs ++ [x]) m' (a + (x - m) * (x - m')).
Proof.
  intros W m'. pose proof (welford_sum _ _ _ W) as Hs. destruct W as [Hm Ha].
  pose proof (count_succ_nonzero rs) as Hnz.
  assert (Hk : inject_Z (Z.of_nat (length rs) + 1) == count rs + 1).
  { unfold count. rewrite inject_Z_plus. reflexivity. }
  assert (Hm' : m' == m + (x - m) / (count rs + 1)).
  { subst m'. rewrite Hk. reflexivity. }
  split.
  - unfold mean. rewrite Qsum_app, count_app, Hs, Hm'. field. exact Hnz.
  - rewrite sqdev_app, (sqdev_shift m m' rs), <- Ha, Hs, Hm'. field. exact Hnz.
Qed.

Local Close Scope Q_scope.

(** ** The statistics of the tournament *)

Section Statistics.

Context {G : Game} {RE : RandomEngine}.
Variable bots : nat -> nat -> Outcome.

Lemma qat_insert_eq (v : list Q) pl x :
  (pl < length v)%nat -> qat (<[pl := x]> v) pl = x.
Proof.
  intros H. unfold qat. apply nth_lookup_Some with (d := 0%Q).
  now apply list_lookup_insert_eq.
Qed.

Lemma qat_insert_ne (v : list Q) pl pl' x :
  pl <> pl' -> qat (<[pl := x]> v) pl' = qat v pl'.
Proof.
  intros H. unfold qat. rewrite !nth_lookup. now rewrite list_lookup_insert_ne.
Qed.

(** The loop of lines 542 to 547 updates the entries of the players of the
    list, each from its own return, and nothing else. *)
Lemma zat_insert_eq (v : list Z) pl x :
  (pl < length v)%nat -> zat (<[pl := x]> v) pl = x.
Proof.
  intros H. unfold zat. apply nth_lookup_Some with (d := 0).
  now apply list_lookup_insert_eq.
Qed.

Lemma zat_insert_ne (v : list Z) pl pl' x :
  pl <> pl' -> zat (<[pl := x]> v) pl' = zat v pl'.
Proof.
  intros H. unfold zat. rewrite !nth_lookup. now rewrite list_lookup_insert_ne.
Qed.

Lemma update_statistics_spec match_ returns pls : forall results r results' r',
  update_statistics match_ returns pls results r = Ok results' r' ->
  NoDup pls ->
  (forall pl, pl ∈ pls -> (pl < length (returns_mean results))%nat) ->
  length (returns_agg results) = length (returns_mean results) ->
  r' = r
  /\ length (returns_mean results') = length (returns_mean results)
  /\ length (returns_agg results') = length (returns_mean results)
  /\ (forall pl, pl ∉ pls ->
        qat (returns_mean results') pl = qat (returns_mean results) pl
        /\ qat (returns_agg results') pl = qat (returns_agg results) pl)
  /\ (forall pl, pl ∈ pls ->
        exists x, returns !! pl = Some x /\
          let m := qat (returns_mean results) pl in
          let m' := (m + (x - m) / inject_Z (Z.of_nat match_ + 1))%Q in
          qat (returns_mean results') pl = m'
          /\ qat (returns_agg results') pl
             = (qat (returns_agg results) pl + (x - m) * (x - m'))%Q).
Proof.
  induction pls as [|p pls IH]; intros results r results' r' H Hnd Hlt Hlen; simpl in H.
  - inversion H. subst. split_and!; try done. intros pl Hpl. inversion Hpl.
  - apply bind_Ok in H as (x & r1 & Hx & H).
    unfold at_index in Hx. destruct (returns !! p) as [y|] eqn:Ey; [|discriminate].
    inversion Hx. subst x r1. clear Hx.
    apply NoDup_cons in Hnd as [Hnotin Hnd].
    assert (Hp : (p < length (returns_mean results))%nat)
      by (apply Hlt, elem_of_cons; by left).
    apply IH in H as (-> & L1 & L2 & Hout & Hin); simpl;
      rewrite ?length_insert; try done.
    2: { intros pl Hpl. apply Hlt, elem_of_cons. by right. }
    simpl in *. rewrite !length_insert in *.
    split_and!; try done.
    + intros pl Hpl. apply not_elem_of_cons in Hpl as [Hne Hpl].
      destruct (Hout pl Hpl) as [E1 E2].
      rewrite E1, E2. rewrite !qat_insert_ne by done. done.
    + intros pl Hpl. apply elem_of_cons in Hpl as [->|Hpl].
      * exists y. destruct (Hout p Hnotin) as [E1 E2].
        split_and!; try done; [rewrite E1 | rewrite E2]; apply qat_insert_eq; lia.
      * destruct (Hin pl Hpl) as (x & Ex & E1 & E2).
        assert (p <> pl) by (intros ->; contradiction).
        exists x. cbv zeta in E1, E2.
        repeat rewrite qat_insert_ne in E1 by done.
        repeat rewrite qat_insert_ne in E2 by done.
        split; [done | cbv zeta; split; assumption].
Qed.

Lemma q_PrintVerbose results : keeps quiet (PrintVerbose results).
Proof. unfold PrintVerbose. quiet_tac. Qed.

Lemma q_disqualification_update pls match_ thr : forall results,
  keeps quiet (disqualification_update bots pls match_ thr results).
Proof. induction pls as [|pl pls IH]; intros results; simpl; quiet_tac. Qed.

(** The disqualification loop leaves the statistics of the returns alone. *)
Lemma disqualification_update_returns pls match_ thr :
  forall results r returned results' r',
  disqualification_update bots pls match_ thr results r = Ok (returned, results') r' ->
  returns_mean results' = returns_mean results
  /\ returns_agg results' = returns_agg results.
Proof.
  induction pls as [|pl pls IH]; intros results r returned results' r' H; simpl in H.
  - inversion H. done.
  - apply bind_Ok in H as (due & r1 & _ & H). destruct (negb due).
    + now apply IH in H.
    + apply bind_Ok in H as (? & r2 & _ & H).
      simpl in H. destruct (_ <? _).
      * apply bind_Ok in H as (? & r3 & _ & H).
        apply bind_Ok in H as (? & r4 & _ & H). inversion H. done.
      * apply bind_Ok in H as (? & r3 & _ & H).
        apply bind_Ok in H as (? & r4 & _ & H).
        now apply IH in H.
Qed.

End Statistics.

#[local] Hint Resolve q_PrintVerbose q_disqualification_update : quiet.

Section Welford.

Context {G : Game} {RE : RandomEngine}.
Variable bots : nat -> nat -> Outcome.

Lemma check_start_returns pls start_ok num_matches : forall all_ok results,
  returns_mean (check_start pls start_ok num_matches all_ok results).2 = returns_mean results
  /\ returns_agg (check_start pls start_ok num_matches all_ok results).2 = returns_agg results.
Proof.
  induction pls as [|pl pls IH]; intros all_ok results; simpl; [done|].
  destruct (IH (all_ok && nth pl start_ok false)
              (if negb (nth pl start_ok false)
               then set_corrupted_matches
                      (<[pl := num_matches]> (corrupted_matches results)) results
               else results)) as [E1 E2].
  rewrite E1, E2. now destruct (negb _).
Qed.

(** The loop over the matches keeps Welford's law for every player: if the
    running values fit the returns [rs] of the matches played so far, then
    at the end they fit [rs] followed by the returns [rs'] that the log
    reports for the rest of the run. *)
Lemma tournament_loop_welford fuel nm thr pl : forall m k results r results' r' rs,
  tournament_loop bots fuel nm thr (seq k m) results r = Ok results' r' ->
  (pl < num_bots r)%nat ->
  length (returns_mean results) = num_bots r ->
  length (returns_agg results) = num_bots r ->
  length rs = k ->
  welford rs (qat (returns_mean results) pl) (qat (returns_agg results) pl) ->
  exists rs',
    returns_of pl (log_ r') = (returns_of pl (log_ r) ++ rs')%list
    /\ welford (rs ++ rs') (qat (returns_mean results') pl) (qat (returns_agg results') pl).
Proof.
  induction m as [|m IH]; intros k results r results' r' rs H Hpl Lm La Lrs W.
  - simpl in H. run_step H. run_step H. run_step H. inversion H. subst. clear H.
    destruct Q as (_ & _ & _ & L1), Q0 as (_ & _ & _ & L2), Q1 as (_ & _ & _ & L3).
    exists []. rewrite !app_nil_r. split; [|exact W].
    now rewrite L3, L2, L1.
  - cbn [seq tournament_loop] in H.
    run_step H. run_step H.
    destruct Q as (E1 & _ & _ & L1), Q0 as (E2 & _ & _ & L2).
    apply bind_Ok in H as (state & r2 & HPM & H).
    apply PlayMatch_log in HPM as (E3 & _ & _ & L3).
    assert (Hn2 : num_bots r2 = num_bots r) by (unfold num_bots; congruence).
    destruct (L3 pl) as (x & Ex & Lx); [unfold num_bots in *; congruence|].
    apply bind_Ok in H as (pls & r3 & Hp & H). inversion Hp. subst pls r3. clear Hp.
    apply bind_Ok in H as (results1 & r3 & Hst & H).
    apply update_statistics_spec in Hst as (-> & Lm1 & La1 & _ & Hin);
      simpl; try congruence.
    2: { apply NoDup_seq. }
    2: { intros p Hp. apply elem_of_seq in Hp. unfold players in *. lia. }
    simpl in Lm1, La1.
    destruct (Hin pl) as (x' & Ex' & Em & Ea).
    { apply elem_of_seq. unfold players. lia. }
    simpl in Em, Ea. rewrite Ex in Ex'. inversion Ex'. subst x'. clear Ex' Hin.
    apply bind_Ok in H as ([returned results2] & r4 & Hdq & H).
    pose proof (q_disqualification_update bots _ _ _ _ _ _ _ Hdq) as (E4 & _ & _ & L4).
    apply disqualification_update_returns in Hdq as [Dm Da].
    assert (W1 : welford (rs ++ [x]) (qat (returns_mean results2) pl)
                   (qat (returns_agg results2) pl)).
    { rewrite Dm, Da, Em, Ea. subst k. now apply welford_step. }
    destruct returned.
    + inversion H. subst. clear H. exists [x]. split; [|exact W1].
      now rewrite L4, Lx, L2, L1.
    + apply bind_Ok in H as (errs & r5 & He & H). inversion He. subst errs r5. clear He.
      apply (IH (S k) _ _ _ _ (rs ++ [x])%list) in H as (rs' & Lr & W').
      * exists (x :: rs'). split.
        -- rewrite Lr, L4, Lx, L2, L1. now rewrite <- !app_assoc.
        -- now rewrite <- app_assoc in W'.
      * unfold num_bots in *. congruence.
      * simpl. unfold num_bots in *. congruence.
      * simpl. unfold num_bots in *. congruence.
      * rewrite length_app. simpl. lia.
      * exact W1.
Qed.

Lemma qat_replicate n pl : qat (replicate n 0%Q) pl = 0%Q.
Proof.
  unfold qat. revert pl. induction n as [|n IH]; intros [|pl]; simpl; auto.
Qed.

End Welford.

Section Tournament.

Context {G : Game} {RE : RandomEngine}.
Variable bots : nat -> nat -> Outcome.

(** C8: Welford's law.  In a run of [PlayTournament] that returns, let
    [rs] be the returns of player [pl] in the matches played, r_1..r_K, as
    the log reports them, one per match.  Then [returns_mean[pl]] is the
    arithmetic mean of [rs], and [returns_agg[pl] / K] is the population
    variance of [rs] (exact arithmetic, [K] the number of these matches). *)
Theorem welford_law fuel num_matches r results r' pl :
  PlayTournament bots fuel num_matches r = Ok results r' ->
  (pl < num_bots r)%nat ->
  exists rs : list Q,
    returns_of pl (log_ r') = (returns_of pl (log_ r) ++ rs)%list
    /\ (qat (returns_mean results) pl == mean rs)%Q
    /\ (qat (returns_agg results) pl / count rs == population_variance rs)%Q.
Proof.
  intros H Hpl. unfold PlayTournament in H.
  apply bind_Ok in H as (n & rn & Hn & H). inversion Hn. subst n rn. clear Hn.
  apply bind_Ok in H as (start_ok & r1 & HSP & H).
  pose proof (q_StartPlayers bots _ _ _ HSP) as (E1 & _ & _ & L1).
  apply bind_Ok in H as (pls & rp & Hp & H). inversion Hp. subst pls rp. clear Hp.
  destruct (check_start _ _ _ _ _) as [all_ok results0] eqn:Ecs.
  pose proof (check_start_returns (players r1) start_ok num_matches true
                (NewTournamentResults (num_bots r))) as [Em Ea].
  rewrite Ecs in Em, Ea. simpl in Em, Ea.
  assert (W0 : welford [] (qat (returns_mean results0) pl) (qat (returns_agg results0) pl)).
  { rewrite Em, Ea, !qat_replicate. apply welford_nil. }
  assert (Hrs : exists rs,
    returns_of pl (log_ r') = (returns_of pl (log_ r) ++ rs)%list
    /\ welford rs (qat (returns_mean results) pl) (qat (returns_agg results) pl)).
  { destruct (negb all_ok).
    - apply bind_Ok in H as (u & r2 & Hl & H). inversion H. subst. clear H.
      inversion Hl. subst. clear Hl.
      exists []. rewrite app_nil_r. split; [|exact W0].
      simpl. unfold returns_of. rewrite omap_app. simpl. rewrite app_nil_r. apply L1.
    - apply bind_Ok in H as (rate & rr & Hr & H). inversion Hr. subst rate rr. clear Hr.
      destruct (corruption_threshold_of _ _) as [thr|]; [|discriminate].
      apply (tournament_loop_welford _ _ _ _ pl _ _ _ _ _ _ []) in H
        as (rs' & Lr & W').
      + exists rs'. split; [now rewrite Lr, L1 | exact W'].
      + unfold num_bots in *. congruence.
      + rewrite Em, length_replicate. unfold num_bots. congruence.
      + rewrite Ea, length_replicate. unfold num_bots. congruence.
      + reflexivity.
      + exact W0. }
  destruct Hrs as (rs & Lr & Wm & Wa).
  exists rs. split_and!; [exact Lr | exact Wm |].
  unfold population_variance. rewrite Wa, (sqdev_proper _ _ _ Wm). reflexivity.
Qed.

(** *** Disqualification *)

Lemma check_start_disqualified pls start_ok num_matches : forall all_ok results,
  disqualified (check_start pls start_ok num_matches all_ok results).2
  = disqualified results.
Proof.
  induction pls as [|pl pls IH]; intros all_ok results; simpl; [done|].
  rewrite IH. now destruct (negb _).
Qed.

Lemma check_start_corrupted_length pls start_ok num_matches : forall all_ok results,
  length (corrupted_matches (check_start pls start_ok num_matches all_ok results).2)
  = length (corrupted_matches results).
Proof.
  induction pls as [|pl pls IH]; intros all_ok results; simpl; [done|].
  rewrite IH. destruct (negb _); [apply length_insert | done].
Qed.

(** The loop of lines 549 to 565 marks a bot only when it returns. *)
Lemma disqualification_update_flags pls match_ thr :
  forall results r returned results' r',
  disqualification_update bots pls match_ thr results r = Ok (returned, results') r' ->
  if returned
  then exists pl, disqualified results' = <[pl := true]> (disqualified results)
  else disqualified results' = disqualified results.
Proof.
  induction pls as [|pl pls IH]; intros results r returned results' r' H; simpl in H.
  - inversion H. done.
  - apply bind_Ok in H as (due & r1 & _ & H). destruct (negb due).
    + now apply IH in H.
    + apply bind_Ok in H as (? & r2 & _ & H).
      simpl in H. destruct (_ <? _).
      * apply bind_Ok in H as (? & r3 & _ & H).
        apply bind_Ok in H as (? & r4 & _ & H). inversion H. subst.
        exists pl. done.
      * apply bind_Ok in H as (? & r3 & _ & H).
        apply bind_Ok in H as (? & r4 & _ & H).
        now apply IH in H.
Qed.

Lemma update_statistics_disqualified match_ returns pls : forall res r res' r',
  update_statistics match_ returns pls res r = Ok res' r' ->
  disqualified res' = disqualified res.
Proof.
  induction pls as [|p pls IH]; intros res r res' r' H; simpl in H.
  - inversion H. done.
  - apply bind_Ok in H as (? & ? & _ & H). now apply IH in H.
Qed.

Lemma one_mark (flags : list bool) pl i j :
  Forall (fun b => b = false) flags ->
  <[pl := true]> flags !! i = Some true ->
  <[pl := true]> flags !! j = Some true ->
  i = j.
Proof.
  intros Hall Hi Hj.
  assert (Hk : forall k, <[pl := true]> flags !! k = Some true -> k = pl).
  { intros k Hk. destruct (decide (pl = k)) as [->|Hne]; [done|].
    rewrite list_lookup_insert_ne in Hk by done.
    rewrite Forall_lookup in Hall. now apply Hall in Hk. }
  rewrite (Hk i Hi), (Hk j Hj). done.
Qed.

Lemma tournament_loop_flags fuel nm thr : forall todo results r results' r',
  tournament_loop bots fuel nm thr todo results r = Ok results' r' ->
  Forall (fun b => b = false) (disqualified results) ->
  forall i j, disqualified results' !! i = Some true ->
              disqualified results' !! j = Some true -> i = j.
Proof.
  induction todo as [|m todo IH]; intros results r results' r' H Hall i j Hi Hj.
  - simpl in H.
    apply bind_Ok in H as (? & ? & _ & H). apply bind_Ok in H as (? & ? & _ & H).
    apply bind_Ok in H as (? & ? & _ & H). inversion H. subst.
    rewrite Forall_lookup in Hall. now apply Hall in Hi.
  - cbn [tournament_loop] in H.
    apply bind_Ok in H as (? & ? & _ & H). apply bind_Ok in H as (? & ? & _ & H).
    apply bind_Ok in H as (state & ? & _ & H).
    apply bind_Ok in H as (pls & ? & _ & H).
    apply bind_Ok in H as (results1 & ? & Hst & H).
    apply update_statistics_disqualified in Hst. simpl in Hst. rename Hst into E1.
    apply bind_Ok in H as ([returned results2] & ? & Hdq & H).
    apply disqualification_update_flags in Hdq.
    destruct returned.
    + inversion H. subst. destruct Hdq as (pl & Hdq). rewrite Hdq, E1 in Hi, Hj.
      eapply one_mark; eauto.
    + apply bind_Ok in H as (? & ? & _ & H).
      eapply IH; [exact H | | exact Hi | exact Hj].
      simpl. rewrite Hdq, E1. exact Hall.
Qed.

(** *** The order of the disqualification check *)

Lemma e_refl pl0 r : errors_elsewhere pl0 r r.
Proof. intros pl _. reflexivity. Qed.

Lemma e_trans pl0 r1 r2 r3 :
  errors_elsewhere pl0 r1 r2 -> errors_elsewhere pl0 r2 r3 -> errors_elsewhere pl0 r1 r3.
Proof. intros H1 H2 pl Hpl. now rewrite H2, H1. Qed.

Lemma e_same pl0 r r' : errors_ r' = errors_ r -> errors_elsewhere pl0 r r'.
Proof. intros E pl _. now rewrite E. Qed.

Lemma e_modify pl0 f :
  (forall r, errors_ (f r) = errors_ r) -> keeps (errors_elsewhere pl0) (modify f).
Proof. intros Hf. apply keeps_modify. intros r. apply e_same, Hf. Qed.

Lemma e_update_channel pl0 a f : keeps (errors_elsewhere pl0) (update_channel a f).
Proof.
  intros r u r' H. unfold update_channel in H.
  destruct (store r !! a); inversion H. now apply e_same.
Qed.

Lemma e_update_errors pl0 f : keeps (errors_elsewhere pl0) (update_errors pl0 f).
Proof.
  intros r u r' H. unfold update_errors in H.
  destruct (errors_ r !! pl0); inversion H. intros pl Hpl. simpl.
  now rewrite list_lookup_insert_ne.
Qed.

Lemma e_alloc pl0 c : keeps (errors_elsewhere pl0) (alloc c).
Proof. intros r a r' H. inversion H. now apply e_same. Qed.

Lemma e_assign_slot pl0 get set pl v :
  (forall x r, errors_ (set x r) = errors_ r) ->
  keeps (errors_elsewhere pl0) (assign_slot get set pl v).
Proof.
  intros Hs r a r' H. unfold assign_slot in H.
  destruct (decide _); inversion H. apply e_same, Hs.
Qed.

Lemma e_StartRead pl0 a t : keeps (errors_elsewhere pl0) (StartRead a t).
Proof.
  unfold StartRead.
  apply keeps_bind; [apply e_trans | apply keeps_get_channel, e_refl | intros c].
  destruct (shutdown_ c); [apply keeps_fatal|].
  destruct (negb _); [apply keeps_fatal | apply e_update_channel].
Qed.

Lemma e_send_handshake pl0 pl : keeps (errors_elsewhere pl0) (send_handshake pl).
Proof.
  unfold send_handshake, send_setup, write.
  repeat first
    [ apply e_StartRead | apply e_update_channel
    | apply keeps_channel_at, e_refl | apply keeps_gets, e_refl
    | apply keeps_bind; [apply e_trans | | intros ?] ].
Qed.

Lemma e_CheckResponse e pl0 : keeps (errors_elsewhere pl0) (CheckResponse e pl0).
Proof.
  unfold CheckResponse.
  apply keeps_bind; [apply e_trans | apply keeps_channel_at, e_refl | intros chn].
  apply keeps_bind;
    [apply e_trans | apply keeps_CancelReadBlocking, e_update_channel | intros _].
  apply keeps_bind; [apply e_trans | apply keeps_get_channel, e_refl | intros c].
  destruct (negb _); [|apply keeps_ret, e_refl].
  apply keeps_bind; [apply e_trans | apply e_update_errors | intros _].
  apply keeps_bind; [apply e_trans | | intros _; apply keeps_ret, e_refl].
  destruct (is_time_out c); [apply e_update_errors | apply keeps_ret, e_refl].
Qed.

(** A restart changes the counters of the restarted bot only. *)
Lemma e_RestartPlayer pl0 : keeps (errors_elsewhere pl0) (RestartPlayer bots pl0).
Proof.
  unfold RestartPlayer, ShutDownPlayer, StartPlayer.
  repeat first
    [ apply e_send_handshake | apply e_CheckResponse | apply e_update_channel
    | apply e_update_errors | apply e_alloc
    | apply e_assign_slot; intros ? ?; reflexivity
    | apply e_modify; intros ?; reflexivity
    | apply keeps_channel_at, e_refl | apply keeps_gets, e_refl
    | apply keeps_executable_at, e_refl | apply keeps_channels_back, e_refl
    | apply keeps_join, e_refl | apply keeps_ret, e_refl
    | apply keeps_bind; [apply e_trans | | intros ?] ].
Qed.

Lemma corrupted_match_due_run pl r due r' :
  corrupted_match_due pl r = Ok due r' -> r' = r /\ due = is_due r pl.
Proof.
  unfold corrupted_match_due, bind, errors_at, gets, ret, is_due.
  destruct (errors_ r !! pl); [|discriminate]. intros H. inversion H. done.
Qed.

(** The loop of lines 549 to 565 goes through the bots in the order of the
    list.  When it returns from inside, it has marked the first bot of the
    list that crosses the threshold, and it has not come to the bots after
    it; otherwise no bot of the list crosses the threshold. *)
Lemma disqualification_update_first pls match_ thr :
  forall res r returned res' r',
  disqualification_update bots pls match_ thr res r = Ok (returned, res') r' ->
  NoDup pls ->
  (forall pl, pl ∈ pls -> (pl < length (corrupted_matches res))%nat) ->
  if returned
  then exists pre pl post,
         pls = (pre ++ pl :: post)%list
         /\ crosses thr res r pl = true
         /\ (forall p, p ∈ pre -> crosses thr res r p = false)
         /\ disqualified res' = <[pl := true]> (disqualified res)
         /\ (forall p, p ∈ post ->
               corrupted_matches res' !! p = corrupted_matches res !! p)
  else forall p, p ∈ pls -> crosses thr res r p = false.
Proof.
  induction pls as [|p0 pls IH]; intros res r returned res' r' H Hnd Hlen; simpl in H.
  - inversion H. subst. intros p Hp. inversion Hp.
  - apply NoDup_cons in Hnd as [Hnotin Hnd].
    assert (Hp0 : (p0 < length (corrupted_matches res))%nat)
      by (apply Hlen, elem_of_cons; by left).
    assert (Hrest : forall p, p ∈ pls -> (p < length (corrupted_matches res))%nat)
      by (intros p Hp; apply Hlen, elem_of_cons; by right).
    apply bind_Ok in H as (due & r1 & Hd & H).
    apply corrupted_match_due_run in Hd as [-> ->].
    destruct (is_due r p0) eqn:Edue; cbn [negb] in H.
    + apply bind_Ok in H as ([] & r2 & Hl & H).
      assert (El : r2 = set_log (log_ r ++ [LogExceeded p0 (Z.of_nat match_)]) r)
        by (now inversion Hl).
      clear Hl. cbn [corrupted_matches set_corrupted_matches] in H.
      rewrite zat_insert_eq in H by exact Hp0.
      destruct (thr <? zat (corrupted_matches res) p0 + 1) eqn:Ethr.
      * apply bind_Ok in H as ([] & r3 & _ & H).
        apply bind_Ok in H as ([] & r4 & _ & H). inversion H. subst. clear H.
        exists [], p0, pls. split_and!; try done.
        -- unfold crosses. now rewrite Edue, Ethr.
        -- intros p Hp. inversion Hp.
        -- intros p Hp. cbn. apply list_lookup_insert_ne. intros ->. contradiction.
      * apply bind_Ok in H as ([] & r3 & Hl & H).
        assert (El3 : r3 = set_log (log_ r2 ++ [LogRestart p0]) r2) by (now inversion Hl).
        clear Hl.
        apply bind_Ok in H as ([] & r4 & HR & H).
        pose proof (e_RestartPlayer _ _ _ _ HR) as Helse.
        pose proof (q_RestartPlayer bots _ _ _ _ HR) as (_ & Hset & _).
        assert (Hsame : forall p, p ∈ pls ->
                  crosses thr
                    (set_restarts (<[p0 := zat (restarts res) p0 + 1]> (restarts res))
                       (set_corrupted_matches
                          (<[p0 := zat (corrupted_matches res) p0 + 1]>
                             (corrupted_matches res)) res)) r4 p
                  = crosses thr res r p).
        { intros p Hp. assert (Hne : p0 <> p) by (intros ->; contradiction).
          unfold crosses, is_due. cbn [corrupted_matches set_restarts set_corrupted_matches].
          rewrite zat_insert_ne by exact Hne.
          rewrite Helse, Hset by (intros ->; contradiction). subst r3 r2. reflexivity. }
        apply IH in H; [|exact Hnd|].
        2:{ intros p Hp. cbn. rewrite length_insert. now apply Hrest. }
        destruct returned.
        -- destruct H as (pre & pl & post & -> & Hc & Hpre & Hdq & Hpost).
           assert (Hin : pl ∈ (pre ++ pl :: post)%list)
             by (apply elem_of_app; right; apply elem_of_cons; by left).
           exists (p0 :: pre), pl, post. split_and!.
           ++ reflexivity.
           ++ now rewrite <- Hsame.
           ++ intros p Hp. apply elem_of_cons in Hp as [->|Hp].
              ** unfold crosses. now rewrite Ethr, andb_false_r.
              ** rewrite <- Hsame; [now apply Hpre|].
                 apply elem_of_app. by left.
           ++ exact Hdq.
           ++ intros p Hp. rewrite (Hpost p Hp). cbn.
              apply list_lookup_insert_ne. intros ->. apply Hnotin.
              apply elem_of_app. right. apply elem_of_cons. by right.
        -- intros p Hp. apply elem_of_cons in Hp as [->|Hp].
           ++ unfold crosses. now rewrite Ethr, andb_false_r.
           ++ rewrite <- Hsame by exact Hp. now apply H.
    + apply IH in H; [|exact Hnd | exact Hrest].
      destruct returned.
      * destruct H as (pre & pl & post & -> & Hc & Hpre & Hdq & Hpost).
        exists (p0 :: pre), pl, post. split_and!; try done.
        intros p Hp. apply elem_of_cons in Hp as [->|Hp]; [|now apply Hpre].
        unfold crosses. now rewrite Edue.
      * intros p Hp. apply elem_of_cons in Hp as [->|Hp]; [|now apply H].
        unfold crosses. now rewrite Edue.
Qed.

(** The bots before and after a place in the list of the players. *)
Lemma seq_split n (pre post : list nat) pl :
  seq 0 n = (pre ++ pl :: post)%list ->
  (forall p, (p < pl)%nat -> p ∈ pre)
  /\ (forall p, (pl < p < n)%nat -> p ∈ post).
Proof.
  intros E.
  assert (Hpl : pl = length pre).
  { assert (Hl : seq 0 n !! length pre = Some pl)
      by (rewrite E; apply list_lookup_middle; reflexivity).
    apply lookup_seq in Hl. lia. }
  split.
  - intros p Hp.
    assert (Hl : seq 0 n !! p = Some p).
    { apply lookup_seq. split; [lia|].
      apply (f_equal length) in E. rewrite length_seq, length_app in E. simpl in E. lia. }
    rewrite E, lookup_app_l in Hl by lia. now apply list_elem_of_lookup_2 in Hl.
  - intros p Hp.
    assert (Hl : seq 0 n !! p = Some p) by (apply lookup_seq; lia).
    rewrite E, lookup_app_r in Hl by lia.
    destruct (p - length pre)%nat as [|k] eqn:Ek; [lia|]. simpl in Hl.
    now apply list_elem_of_lookup_2 in Hl.
Qed.

Lemma update_statistics_fields match_ returns pls : forall res r res' r',
  update_statistics match_ returns pls res r = Ok res' r' ->
  r' = r /\ matches res' = matches res
  /\ history_len_mean res' = history_len_mean res
  /\ corrupted_matches res' = corrupted_matches res
  /\ restarts res' = restarts res
  /\ disqualified res' = disqualified res.
Proof.
  induction pls as [|p pls IH]; intros res r res' r' H; simpl in H.
  - inversion H. done.
  - apply bind_Ok in H as (x & r1 & Hx & H).
    unfold at_index in Hx. destruct (returns !! p); [|discriminate].
    inversion Hx. subst. now apply IH in H.
Qed.

Lemma disqualification_update_lengths pls match_ thr :
  forall res r returned res' r',
  disqualification_update bots pls match_ thr res r = Ok (returned, res') r' ->
  length (corrupted_matches res') = length (corrupted_matches res)
  /\ length (disqualified res') = length (disqualified res).
Proof.
  induction pls as [|pl pls IH]; intros res r returned res' r' H; simpl in H.
  - inversion H. done.
  - apply bind_Ok in H as (due & r1 & _ & H). destruct (negb due).
    + now apply IH in H.
    + apply bind_Ok in H as (? & r2 & _ & H).
      simpl in H. destruct (_ <? _).
      * apply bind_Ok in H as (? & r3 & _ & H).
        apply bind_Ok in H as (? & r4 & _ & H). inversion H. subst. simpl.
        now rewrite !length_insert.
      * apply bind_Ok in H as (? & r3 & _ & H).
        apply bind_Ok in H as (? & r4 & _ & H).
        apply IH in H. simpl in H. now rewrite !length_insert in H.
Qed.

(** The loop over the matches: a bot that is marked was marked by the
    disqualification loop that ended the tournament. *)
Lemma tournament_loop_first fuel nm thr : forall todo results r results' r',
  tournament_loop bots fuel nm thr todo results r = Ok results' r' ->
  Forall (fun b => b = false) (disqualified results) ->
  length (corrupted_matches results) = num_bots r ->
  length (disqualified results) = num_bots r ->
  forall pl, disqualified results' !! pl = Some true ->
  exists match_ results0 r0,
    disqualification_update bots (players r) match_ thr results0 r0
    = Ok (true, results') r'
    /\ Forall (fun b => b = false) (disqualified results0)
    /\ length (corrupted_matches results0) = num_bots r
    /\ length (disqualified results0) = num_bots r.
Proof.
  induction todo as [|m todo IH]; intros results r results' r' H Hall Hlc Hld pl Hpl.
  - simpl in H.
    apply bind_Ok in H as (? & ? & _ & H). apply bind_Ok in H as (? & ? & _ & H).
    apply bind_Ok in H as (? & ? & _ & H). inversion H. subst.
    rewrite Forall_lookup in Hall. now apply Hall in Hpl.
  - cbn [tournament_loop] in H.
    apply bind_Ok in H as ([] & r1 & H1 & H).
    assert (E1 : executables_ r1 = executables_ r) by (now inversion H1). clear H1.
    apply bind_Ok in H as ([] & r2 & H2 & H).
    apply q_ResetErrorTracking in H2 as (E2 & _).
    apply bind_Ok in H as (state & r3 & HPM & H).
    apply PlayMatch_log in HPM as (E3 & _).
    apply bind_Ok in H as (pls & r4 & Hp & H). inversion Hp. subst pls r4. clear Hp.
    assert (Hn3 : num_bots r3 = num_bots r) by (unfold num_bots; congruence).
    assert (Hpls : players r3 = players r) by (unfold players; now rewrite Hn3).
    apply bind_Ok in H as (results1 & r5 & Hst & H).
    apply update_statistics_fields in Hst as (-> & _ & _ & C1 & _ & D1).
    cbn [corrupted_matches disqualified update_history_len set_history_len_mean] in C1, D1.
    apply bind_Ok in H as ([returned results2] & r6 & Hdq & H).
    pose proof (disqualification_update_flags _ _ _ _ _ _ _ _ Hdq) as F2.
    pose proof (disqualification_update_lengths _ _ _ _ _ _ _ _ Hdq) as [L2 L2'].
    pose proof (q_disqualification_update bots _ _ _ _ _ _ _ Hdq) as (E6 & _).
    destruct returned.
    + inversion H. subst results2 r6. clear H.
      exists m, results1, r3. rewrite <- Hpls. split_and!; [exact Hdq | | | ].
      * now rewrite D1.
      * now rewrite C1.
      * now rewrite D1.
    + apply bind_Ok in H as (errs & r7 & He & H). inversion He. subst errs r7. clear He.
      assert (Hn6 : num_bots r6 = num_bots r) by (unfold num_bots in *; congruence).
      apply (IH _ _ _ _ H) in Hpl as (match_ & results0 & r0 & Hrun & Hf & Hl & Hl').
      * exists match_, results0, r0. unfold players in *.
        rewrite Hn6 in Hrun, Hl, Hl'. done.
      * cbn. now rewrite F2, D1.
      * cbn. now rewrite L2, C1, Hn6.
      * cbn. now rewrite L2', D1, Hn6.
Qed.

(** C10: in a run of [PlayTournament] at most one bot is marked
    disqualified, and it is the first in the order of the indices that
    crosses the threshold.  The bot that is marked was marked by the loop of
    lines 549 to 565 after the last match: when that loop began no bot was
    marked; the marked bot had a corrupted match that put it above the
    threshold; no bot with a lower index had; and a bot with a higher index
    is not marked and its corrupted matches are not even counted, also when
    it crossed the threshold in that same match. *)
Theorem at_most_one_disqualified fuel num_matches r results r' :
  PlayTournament bots fuel num_matches r = Ok results r' ->
  (forall i j : nat,
     disqualified results !! i = Some true ->
     disqualified results !! j = Some true ->
     i = j)
  /\ forall pl : nat, disqualified results !! pl = Some true ->
       exists (thr : Z) (match_ : nat) (results0 : TournamentResults) (r0 : Referee),
         corruption_threshold_of num_matches (disqualification_rate (settings_ r))
         = Some thr
         /\ disqualification_update bots (players r) match_ thr results0 r0
            = Ok (true, results) r'
         /\ Forall (fun b => b = false) (disqualified results0)
         /\ crosses thr results0 r0 pl = true
         /\ (forall pl' : nat, (pl' < pl)%nat -> crosses thr results0 r0 pl' = false)
         /\ (forall pl' : nat, (pl < pl' < num_bots r)%nat ->
               disqualified results !! pl' = Some false
               /\ corrupted_matches results !! pl'
                  = corrupted_matches results0 !! pl').
Proof.
  intros H.
  assert (Hone : forall i j : nat,
            disqualified results !! i = Some true ->
            disqualified results !! j = Some true -> i = j).
  { intros i j Hi Hj. unfold PlayTournament in H.
    apply bind_Ok in H as (n & ? & _ & H).
    apply bind_Ok in H as (start_ok & ? & _ & H).
    apply bind_Ok in H as (pls & ? & _ & H).
    pose proof (check_start_disqualified pls start_ok num_matches true
                  (NewTournamentResults n)) as Ed.
    destruct (check_start _ _ _ _ _) as [all_ok results0]. simpl in Ed.
    assert (Hall : Forall (fun b => b = false) (disqualified results0)).
    { rewrite Ed. apply Forall_replicate. done. }
    destruct (negb all_ok).
    - apply bind_Ok in H as (? & ? & _ & H). inversion H. subst.
      rewrite Forall_lookup in Hall. now apply Hall in Hi.
    - apply bind_Ok in H as (? & ? & _ & H).
      destruct (corruption_threshold_of _ _) as [thr|]; [|discriminate].
      eapply tournament_loop_flags; eauto. }
  split; [exact Hone|]. intros pl Hpl.
  unfold PlayTournament in H.
  apply bind_Ok in H as (n & rn & Hn & H). inversion Hn. subst n rn. clear Hn.
  apply bind_Ok in H as (start_ok & r1 & HSP & H).
  pose proof (q_StartPlayers _ _ _ _ HSP) as (E1 & S1 & _).
  assert (Hn1 : num_bots r1 = num_bots r) by (unfold num_bots; congruence).
  apply bind_Ok in H as (pls & rp & Hp & H). inversion Hp. subst pls rp. clear Hp.
  pose proof (check_start_disqualified (players r1) start_ok num_matches true
                (NewTournamentResults (num_bots r))) as Ed.
  pose proof (check_start_corrupted_length (players r1) start_ok num_matches true
                (NewTournamentResults (num_bots r))) as Ec.
  destruct (check_start _ _ _ _ _) as [all_ok results1]. cbn [fst snd] in Ed, Ec.
  assert (Hall : Forall (fun b => b = false) (disqualified results1)).
  { rewrite Ed. apply Forall_replicate. done. }
  destruct (negb all_ok).
  { apply bind_Ok in H as (? & ? & _ & H). inversion H. subst.
    rewrite Forall_lookup in Hall. now apply Hall in Hpl. }
  apply bind_Ok in H as (rate & rr & Hr & H). inversion Hr. subst rate rr. clear Hr.
  rewrite S1 in H.
  destruct (corruption_threshold_of _ _) as [thr|] eqn:Ethr; [|discriminate].
  destruct (tournament_loop_first _ _ _ _ _ _ _ _ H Hall) with (pl := pl)
    as (match_ & results0 & r0 & Hrun & Hf & Hl & Hl').
  { rewrite Ec. cbn. now rewrite length_replicate. }
  { rewrite Ed. cbn. now rewrite length_replicate. }
  { exact Hpl. }
  unfold players in Hrun. rewrite Hn1 in Hrun, Hl, Hl'. fold (players r) in Hrun.
  pose proof (disqualification_update_first _ _ _ _ _ _ _ _ Hrun) as Hfirst.
  cbv beta iota in Hfirst.
  destruct Hfirst as (pre & pl0 & post & Eseq & Hc & Hpre & Hdq & Hpost).
  { apply NoDup_seq. }
  { intros p Hp. apply elem_of_seq in Hp. lia. }
  assert (Epl : pl = pl0).
  { rewrite Hdq in Hpl. destruct (decide (pl0 = pl)) as [->|Hne]; [done|].
    rewrite list_lookup_insert_ne in Hpl by exact Hne.
    rewrite Forall_lookup in Hf. now apply Hf in Hpl. }
  subst pl0. destruct (seq_split _ _ _ _ Eseq) as [Hlow Hhigh].
  exists thr, match_, results0, r0. split_and!; try done.
  - intros pl' Hpl'. apply Hpre, Hlow, Hpl'.
  - intros pl' Hpl'. split; [|apply Hpost, Hhigh, Hpl'].
    rewrite Hdq, list_lookup_insert_ne by lia.
    destruct (lookup_lt_is_Some_2 (disqualified results0) pl') as [b Hb]; [lia|].
    rewrite Hb. f_equal. rewrite Forall_lookup in Hf. exact (Hf _ _ Hb).
Qed.

End Tournament.

(** ** The readers of a restarted bot *)

Section Wiring.

Context {G : Game} {RE : RandomEngine}.
Variable bots : nat -> nat -> Outcome.

Lemma w_refl r : same_wiring r r.
Proof. repeat split. Qed.

Lemma w_trans r1 r2 r3 : same_wiring r1 r2 -> same_wiring r2 r3 -> same_wiring r1 r3.
Proof.
  intros (A1 & B1 & C1 & D1 & E1) (A2 & B2 & C2 & D2 & E2).
  unfold same_wiring. split_and!; congruence.
Qed.

Lemma w_update_channel a f : keeps same_wiring (update_channel a f).
Proof.
  intros r u r' H. unfold update_channel in H.
  destruct (store r !! a); inversion H. unfold same_wiring. simpl.
  rewrite length_insert. done.
Qed.

Lemma w_update_errors pl f : keeps same_wiring (update_errors pl f).
Proof.
  intros r u r' H. unfold update_errors in H.
  destruct (errors_ r !! pl); inversion H. unfold same_wiring. simpl.
  rewrite length_insert. done.
Qed.


Lemma w_sleep_ms ms : keeps same_wiring (sleep_ms bots ms).
Proof.
  apply keeps_modify. intros r. unfold same_wiring. simpl.
  rewrite length_imap. done.
Qed.

Lemma w_send_setup a pl : keeps same_wiring (send_setup a pl).
Proof.
  unfold send_setup, write.
  repeat (apply keeps_bind; [apply w_trans | | intros ?]);
    try apply w_update_channel.
  apply keeps_gets, w_refl.
Qed.

Lemma w_StartRead a t : keeps same_wiring (StartRead a t).
Proof.
  unfold StartRead. apply keeps_bind; [apply w_trans | apply keeps_get_channel, w_refl |].
  intros c. destruct (shutdown_ c); [apply keeps_fatal|].
  destruct (negb _); [apply keeps_fatal | apply w_update_channel].
Qed.

Lemma w_send_handshake pl : keeps same_wiring (send_handshake pl).
Proof.
  unfold send_handshake.
  apply keeps_bind; [apply w_trans | apply keeps_channel_at, w_refl | intros chn].
  apply keeps_bind; [apply w_trans | apply w_send_setup | intros _].
  apply keeps_bind; [apply w_trans | apply keeps_gets, w_refl | intros t].
  apply w_StartRead.
Qed.

Lemma w_CheckResponse e pl : keeps same_wiring (CheckResponse e pl).
Proof.
  unfold CheckResponse.
  apply keeps_bind; [apply w_trans | apply keeps_channel_at, w_refl | intros chn].
  apply keeps_bind;
    [apply w_trans | apply keeps_CancelReadBlocking, w_update_channel | intros _].
  apply keeps_bind; [apply w_trans | apply keeps_get_channel, w_refl | intros c].
  destruct (negb _); [|apply keeps_ret, w_refl].
  apply keeps_bind; [apply w_trans | apply w_update_errors | intros _].
  apply keeps_bind; [apply w_trans | | intros _; apply keeps_ret, w_refl].
  destruct (is_time_out c); [apply w_update_errors | apply keeps_ret, w_refl].
Qed.

(** [StartPlayer(pl)] puts a new channel, the one at the next free address,
    in [channels_[pl]], and starts both readers of the slot on the channel
    that [channels_.back()] holds. *)
Lemma StartPlayer_readers pl r ok r' :
  StartPlayer bots pl r = Ok ok r' ->
  (pl < length (channels_ r))%nat
  /\ (pl < length (threads_stdout_ r))%nat
  /\ (pl < length (threads_stderr_ r))%nat
  /\ channels_ r' = <[pl := Some (length (store r))]> (channels_ r)
  /\ exists b : nat,
       last (channels_ r') = Some (Some b)
       /\ threads_stdout_ r' = <[pl := Some b]> (threads_stdout_ r)
       /\ threads_stderr_ r' = <[pl := Some b]> (threads_stderr_ r).
Proof.
  intros H. unfold StartPlayer in H.
  apply bind_Ok in H as (exe & r0 & Hexe & H).
  unfold executable_at in Hexe. destruct (executables_ r !! pl); [|discriminate].
  inversion Hexe. subst. clear Hexe.
  apply bind_Ok in H as (a & r1 & Ha & H). inversion Ha. subst a r1. clear Ha.
  apply bind_Ok in H as ([] & r2 & Hc & H).
  unfold assign_slot in Hc. destruct (decide _); [|discriminate].
  inversion Hc. subst r2. clear Hc. simpl in H.
  apply bind_Ok in H as (b & r3 & Hb & H).
  unfold channels_back in Hb. simpl in Hb.
  destruct (last (<[pl := Some (length (store r0))]> (channels_ r0)))
    as [[b0|]|] eqn:Elast; try discriminate.
  inversion Hb. subst b0 r3. clear Hb.
  apply bind_Ok in H as ([] & r4 & Ht & H).
  unfold assign_slot in Ht. destruct (decide _); [|discriminate].
  inversion Ht. subst r4. clear Ht. simpl in H.
  apply bind_Ok in H as (b' & r5 & Hb & H).
  unfold channels_back in Hb. simpl in Hb. rewrite Elast in Hb.
  inversion Hb. subst b' r5. clear Hb.
  apply bind_Ok in H as ([] & r6 & Ht & H).
  unfold assign_slot in Ht. destruct (decide _); [|discriminate].
  inversion Ht. subst r6. clear Ht. simpl in H.
  apply bind_Ok in H as ([] & r8 & Hs & H). apply w_send_handshake in Hs.
  apply bind_Ok in H as (t & r9 & Ht & H). inversion Ht. subst t r9. clear Ht.
  apply bind_Ok in H as ([] & r11 & Hsl & H). apply w_sleep_ms in Hsl.
  apply w_CheckResponse in H.
  pose proof (w_trans _ _ _ Hs (w_trans _ _ _ Hsl H)) as (A & B & C & _).
  simpl in A, B, C. rewrite A, B, C. split_and!; try done.
  exists b. split_and!; done.
Qed.

(** When [pl] is not the last bot, the channel the new readers are on is
    the channel of the last bot, not the new one. *)
Lemma StartPlayer_readers_elsewhere pl r ok r' :
  StartPlayer bots pl r = Ok ok r' ->
  (S pl < length (channels_ r))%nat ->
  last (channels_ r') = last (channels_ r)
  /\ threads_stdout_ r' !! pl = last (channels_ r)
  /\ threads_stderr_ r' !! pl = last (channels_ r)
  /\ channels_ r' !! pl = Some (Some (length (store r))).
Proof.
  intros H Hpl.
  apply StartPlayer_readers in H as (Lc & Lo & Le & Ec & b & Eb & Et & Ee).
  assert (Elast : last (channels_ r') = last (channels_ r)).
  { rewrite Ec, !last_lookup, length_insert.
    apply list_lookup_insert_ne. lia. }
  rewrite Elast in Eb. split_and!.
  - exact Elast.
  - rewrite Eb, Et. now apply list_lookup_insert_eq.
  - rewrite Eb, Ee. now apply list_lookup_insert_eq.
  - rewrite Ec. now apply list_lookup_insert_eq.
Qed.

End Wiring.

Section Handshake.

Context {G : Game} {RE : RandomEngine}.
Variable bots : nat -> nat -> Outcome.

(** C6: [corrupted_match_due(pl)] holds exactly when the total of the four
    counters of the bot exceeds [max_invalid_behaviors] or its
    [protocol_error] is positive; so one protocol error is enough, whatever
    [max_invalid_behaviors] is. *)
Theorem corrupted_match_due_iff (r : Referee) (pl : nat) (e : BotErrors) :
  errors_ r !! pl = Some e ->
  exists due : bool,
    corrupted_match_due pl r = Ok due r
    /\ total_errors e
       = protocol_error e + illegal_actions e + ponder_error e + time_over e
    /\ (due = true <->
        total_errors e > max_invalid_behaviors (settings_ r) \/ protocol_error e > 0)
    /\ (protocol_error e >= 1 -> due = true).
Proof.
  intros He. unfold corrupted_match_due, bind, errors_at, gets, ret. rewrite He.
  eexists. split; [reflexivity|]. split; [reflexivity|]. split.
  - rewrite orb_true_iff, !Z.ltb_lt. lia.
  - intros Hp. rewrite orb_true_iff, !Z.ltb_lt. lia.
Qed.

Lemma check_responses_length e pls : forall r oks r',
  check_responses e pls r = Ok oks r' -> length oks = length pls.
Proof.
  induction pls as [|pl pls IH]; intros r oks r' H; simpl in H.
  - inversion H. done.
  - apply bind_Ok in H as (ok & r1 & _ & H).
    apply bind_Ok in H as (oks' & r2 & H2 & H). apply IH in H2.
    inversion H. subst. simpl. now rewrite H2.
Qed.

Lemma StartPlayers_length r start_ok r1 :
  StartPlayers bots r = Ok start_ok r1 -> length start_ok = num_bots r.
Proof.
  intros H. unfold StartPlayers in H.
  apply bind_Ok in H as (n & rn & Hn & H). inversion Hn. subst n rn. clear Hn.
  destruct (negb _); [discriminate|].
  run_step H. run_step H.
  apply bind_Ok in H as (t & rt & Ht & H). inversion Ht. subst t rt. clear Ht.
  run_step H.
  unfold CheckResponses in H.
  apply bind_Ok in H as (pls & rp & Hp & H). inversion Hp. subst pls rp. clear Hp.
  apply check_responses_length in H. rewrite H. unfold players.
  rewrite length_seq.
  destruct Q as [E1 _]. destruct Q0 as [E2 _]. destruct Q1 as [E3 _].
  unfold num_bots. congruence.
Qed.

(** Lines 514 to 517, entry by entry. *)
Lemma check_start_spec start_ok num_matches pls : forall all_ok results,
  let out := check_start pls start_ok num_matches all_ok results in
  out.1 = all_ok && forallb (fun pl => nth pl start_ok false) pls
  /\ matches out.2 = matches results
  /\ length (corrupted_matches out.2) = length (corrupted_matches results)
  /\ forall pl, (pl < length (corrupted_matches results))%nat ->
       corrupted_matches out.2 !! pl
       = if existsb (fun p => Nat.eqb p pl && negb (nth p start_ok false)) pls
         then Some num_matches
         else corrupted_matches results !! pl.
Proof.
  induction pls as [|p pls IH]; intros all_ok results; simpl.
  - split_and!; try done. now rewrite andb_true_r.
  - destruct (IH (all_ok && nth p start_ok false)
                (if negb (nth p start_ok false)
                 then set_corrupted_matches
                        (<[p := num_matches]> (corrupted_matches results)) results
                 else results)) as (E1 & E2 & E3 & E4).
    split_and!.
    + rewrite E1. now rewrite andb_assoc.
    + rewrite E2. now destruct (negb _).
    + rewrite E3. destruct (negb _); simpl; [apply length_insert | done].
    + intros pl Hpl. rewrite E4.
      2: { destruct (negb _); simpl; [now rewrite length_insert | done]. }
      destruct (existsb _ pls); [now rewrite orb_true_r|]. rewrite orb_false_r.
      destruct (negb (nth p start_ok false)); simpl.
      * destruct (Nat.eqb_spec p pl) as [->|Hne].
        -- now apply list_lookup_insert_eq.
        -- now apply list_lookup_insert_ne.
      * now rewrite andb_false_r.
Qed.

Lemma existsb_seq_pick (f : nat -> bool) pl n k :
  (k <= pl < k + n)%nat ->
  existsb (fun p => Nat.eqb p pl && f p) (seq k n) = f pl.
Proof.
  revert k. induction n as [|n IH]; intros k Hk; [lia|]. simpl.
  destruct (Nat.eqb_spec k pl) as [->|Hne]; simpl.
  - destruct (f pl); [done|]. clear.
    generalize (Nat.lt_succ_diag_r pl). generalize (S pl) as k.
    induction n as [|n IH]; intros k Hk; [done|]. simpl.
    destruct (Nat.eqb_spec k pl); [lia|]. apply IH. lia.
  - apply IH. lia.
Qed.

Lemma sr_trans r1 r2 r3 :
  same_responses r1 r2 -> same_responses r2 r3 -> same_responses r1 r3.
Proof.
  intros (A1 & B1 & C1 & D1) (A2 & B2 & C2 & D2).
  unfold same_responses. split_and!; congruence.
Qed.

Lemma sr_update_errors pl f : keeps same_responses (update_errors pl f).
Proof.
  intros r u r' H. unfold update_errors in H.
  destruct (errors_ r !! pl); inversion H. repeat split.
Qed.

(** What [CheckResponse] answers: whether the response slot of the channel
    of the bot holds the expected message.  It changes no response slot. *)
Lemma CheckResponse_answer e pl r ok r' :
  CheckResponse e pl r = Ok ok r' ->
  same_responses r r'
  /\ exists a c, channels_ r !! pl = Some (Some a) /\ store r !! a = Some c
                 /\ ok = String.eqb (response c) e.
Proof.
  intros H. unfold CheckResponse in H.
  apply bind_Ok in H as (a & r1 & Ha & H).
  unfold channel_at in Ha.
  destruct (channels_ r !! pl) as [[a'|]|] eqn:Ea; try discriminate.
  inversion Ha. subst a' r1. clear Ha.
  apply bind_Ok in H as ([] & r2 & Hc & H).
  apply CancelReadBlocking_Ok in Hc as (c & Ec & _ & ->).
  apply bind_Ok in H as (c' & r3 & Hg & H).
  unfold get_channel in Hg. simpl in Hg.
  rewrite list_lookup_insert_eq in Hg by (now apply lookup_lt_Some in Ec).
  inversion Hg. subst c' r3. clear Hg.
  assert (Hs : same_responses r (set_store (<[a := set_cancel_read true c]> (store r)) r)).
  { unfold same_responses. split_and!; try done. simpl.
    change (map response_ ?l) with (response_ <$> l).
    rewrite list_fmap_insert. simpl. apply list_insert_id.
    rewrite list_lookup_fmap, Ec. done. }
  change (response (set_cancel_read true c)) with (response c) in H.
  change (is_time_out (set_cancel_read true c)) with (is_time_out c) in H.
  destruct (String.eqb (response c) e) eqn:Eq; simpl in H.
  - inversion H. subst. split; [exact Hs | eauto].
  - apply bind_Ok in H as ([] & r4 & He & H).
    apply bind_Ok in H as ([] & r5 & He' & H). inversion H. subst. clear H.
    apply sr_update_errors in He.
    assert (Hr5 : same_responses r4 r').
    { destruct (is_time_out c).
      - now apply sr_update_errors in He'.
      - inversion He'. subst. repeat split. }
    split; [exact (sr_trans _ _ _ Hs (sr_trans _ _ _ He Hr5)) | eauto].
Qed.

(** The answer of [CheckResponses], bot by bot. *)
Lemma check_responses_answer e pls : forall r (oks : list bool) r',
  check_responses e pls r = Ok oks r' ->
  same_responses r r'
  /\ forall (i pl : nat), pls !! i = Some pl ->
       exists a c, channels_ r !! pl = Some (Some a) /\ store r !! a = Some c
                   /\ oks !! i = Some (String.eqb (response c) e).
Proof.
  induction pls as [|p pls IH]; intros r oks r' H; simpl in H.
  - inversion H. subst. split; [repeat split|]. intros i pl Hi. inversion Hi.
  - apply bind_Ok in H as (ok & r1 & H1 & H).
    apply bind_Ok in H as (oks' & r2 & H2 & H). inversion H. subst. clear H.
    apply CheckResponse_answer in H1 as (Hs1 & a & c & Ea & Ec & ->).
    apply IH in H2 as (Hs2 & Hrest).
    split; [exact (sr_trans _ _ _ Hs1 Hs2)|].
    destruct Hs1 as (C1 & S1 & _ & _).
    intros [|i] pl Hi; simpl in Hi.
    + inversion Hi. subst. exists a, c. done.
    + destruct (Hrest i pl Hi) as (a' & c' & Ea' & Ec' & Eo).
      rewrite C1 in Ea'.
      assert (Hc : exists c0, store r !! a' = Some c0 /\ response c0 = response c').
      { assert (Hm : (response_ <$> store r1) !! a' = (response_ <$> store r) !! a')
          by (change (response_ <$> store r1) with (map response_ (store r1));
              now rewrite S1).
        rewrite !list_lookup_fmap, Ec' in Hm. simpl in Hm.
        destruct (store r !! a') as [c0|]; [|discriminate].
        exists c0. split; [done|]. simpl in Hm. unfold response. congruence. }
      destruct Hc as (c0 & Ec0 & Er). exists a', c0. split_and!; try done.
      simpl. now rewrite Er.
Qed.

(** *** [StartPlayers] on a fresh referee *)

Lemma spawn_bot_next r k e :
  executables_ r !! k = Some e ->
  spawn_bot k (spawned r k) = Ok tt (spawned r (S k)).
Proof.
  intros He. pose proof (lookup_lt_Some _ _ _ He) as Hk.
  unfold spawned.
  rewrite (take_S_r _ _ _ He), imap_app, seq_S, fmap_app, replicate_S_end.
  rewrite length_take, Nat.min_l by lia.
  unfold spawn_bot, bind, executable_at, modify, alloc, channels_back. simpl.
  rewrite He. simpl. rewrite last_snoc. simpl. rewrite last_snoc. simpl.
  rewrite length_imap, length_take, Nat.min_l, Nat.add_0_r by lia.
  reflexivity.
Qed.

Lemma spawn_loop r m : forall k,
  (k + m <= length (executables_ r))%nat ->
  for_each (seq k m) spawn_bot (spawned r k) = Ok tt (spawned r (k + m)).
Proof.
  induction m as [|m IH]; intros k Hk; simpl.
  - now rewrite Nat.add_0_r.
  - destruct (lookup_lt_is_Some_2 (executables_ r) k) as [e He]; [lia|].
    unfold bind. rewrite (spawn_bot_next r k e He). rewrite IH by lia.
    now rewrite Nat.add_succ_r.
Qed.

Lemma send_handshake_step r pl a c :
  channels_ r !! pl = Some (Some a) ->
  store r !! a = Some c ->
  shutdown_ c = false ->
  wait_for_message_ c = true ->
  send_handshake pl r = Ok tt (set_store (<[a := greeted r pl c]> (store r)) r).
Proof.
  intros Ea Ec Hsd Hw. pose proof (lookup_lt_Some _ _ _ Ec) as Ha.
  unfold send_handshake, bind, channel_at. rewrite Ea.
  unfold send_setup, write, bind, gets, update_channel. simpl. rewrite Ec. simpl.
  rewrite list_lookup_insert_eq by exact Ha. simpl.
  rewrite list_insert_insert_eq.
  rewrite list_lookup_insert_eq by exact Ha. simpl.
  rewrite list_insert_insert_eq.
  rewrite list_lookup_insert_eq by exact Ha. simpl.
  rewrite list_insert_insert_eq.
  unfold StartRead, bind, get_channel. simpl.
  rewrite list_lookup_insert_eq by exact Ha. simpl.
  rewrite Hsd, Hw. simpl.
  unfold update_channel. simpl.
  rewrite list_lookup_insert_eq by exact Ha. simpl.
  rewrite list_insert_insert_eq. reflexivity.
Qed.

(** The loop of the handshake: the channel of every bot of the list is
    greeted, and nothing else changes. *)
Lemma handshake_loop pls : forall r,
  NoDup pls ->
  (forall pl, pl ∈ pls ->
     channels_ r !! pl = Some (Some pl)
     /\ exists c, store r !! pl = Some c /\ shutdown_ c = false
                  /\ wait_for_message_ c = true) ->
  exists sto,
    for_each pls send_handshake r = Ok tt (set_store sto r)
    /\ length sto = length (store r)
    /\ forall (i : nat) c, store r !! i = Some c ->
         sto !! i = Some (if bool_decide (i ∈ pls) then greeted r i c else c).
Proof.
  induction pls as [|p pls IH]; intros r Hnd Hpre.
  - exists (store r). simpl. split_and!; [now destruct r | done |].
    intros i c Hi. rewrite Hi. done.
  - apply NoDup_cons in Hnd as [Hnotin Hnd].
    destruct (Hpre p) as (Ea & c & Ec & Hsd & Hw); [apply elem_of_cons; by left|].
    pose proof (lookup_lt_Some _ _ _ Ec) as Hp.
    set (r1 := set_store (<[p := greeted r p c]> (store r)) r).
    destruct (IH r1 Hnd) as (sto & Hrun & Hlen & Hsto).
    { intros pl Hpl. assert (p <> pl) by (intros ->; contradiction).
      destruct (Hpre pl) as (Ea' & c' & Ec' & Hflags); [apply elem_of_cons; by right|].
      split; [exact Ea'|]. exists c'. split; [|exact Hflags].
      simpl. now rewrite list_lookup_insert_ne. }
    exists sto. simpl. unfold bind.
    rewrite (send_handshake_step r p p c Ea Ec Hsd Hw). fold r1.
    rewrite Hrun. split_and!.
    + reflexivity.
    + rewrite Hlen. simpl. apply length_insert.
    + intros i ci Hi. destruct (decide (i = p)) as [->|Hne].
      * rewrite Ec in Hi. inversion Hi. subst ci.
        rewrite (Hsto p (greeted r p c)) by (simpl; now apply list_lookup_insert_eq).
        rewrite bool_decide_eq_false_2 by exact Hnotin.
        rewrite bool_decide_eq_true_2 by (apply elem_of_cons; by left). done.
      * rewrite (Hsto i ci) by (simpl; rewrite list_lookup_insert_ne; done).
        destruct (decide (i ∈ pls)) as [Hin|Hout].
        -- rewrite !bool_decide_eq_true_2; [done | apply elem_of_cons; by right | done].
        -- rewrite !bool_decide_eq_false_2; [done | | done].
           intros H. apply elem_of_cons in H as [?|?]; contradiction.
Qed.

(** What a [CheckResponse] that returns has done to the channels. *)
Lemma CheckResponse_store e pl r ok r' :
  CheckResponse e pl r = Ok ok r' ->
  exists a c,
    channels_ r !! pl = Some (Some a) /\ store r !! a = Some c
    /\ reading r a c = false
    /\ store r' = <[a := set_cancel_read true c]> (store r)
    /\ threads_stdout_ r' = threads_stdout_ r.
Proof.
  intros H. pose proof (w_CheckResponse _ _ _ _ _ H) as (_ & T & _).
  unfold CheckResponse in H.
  apply bind_Ok in H as (a & r1 & Ha & H).
  unfold channel_at in Ha.
  destruct (channels_ r !! pl) as [[a'|]|] eqn:Ea; try discriminate.
  inversion Ha. subst a' r1. clear Ha.
  apply bind_Ok in H as ([] & r2 & Hc & H).
  apply CancelReadBlocking_Ok in Hc as (c & Ec & Hr & ->).
  exists a, c. split_and!; try done.
  assert (Hu : forall f r0 u r1, update_errors pl f r0 = Ok u r1 -> store r1 = store r0).
  { intros f r0 u r1 Hf. unfold update_errors in Hf.
    destruct (errors_ r0 !! pl); inversion Hf. done. }
  apply bind_Ok in H as (c' & r3 & Hg & H).
  assert (E3 : store r3 = <[a := set_cancel_read true c]> (store r)).
  { apply (keeps_get_channel (fun r0 r1 => store r1 = store r0)) in Hg; [exact Hg|].
    reflexivity. }
  clear Hg. destruct (negb _).
  - apply bind_Ok in H as ([] & r4 & He & H). apply Hu in He.
    apply bind_Ok in H as ([] & r5 & He' & H). inversion H. subst r5. clear H.
    assert (E5 : store r' = store r4).
    { destruct (is_time_out _); [now apply Hu in He' | now inversion He']. }
    congruence.
  - inversion H. now subst.
Qed.

(** On a channel without a read cycle under way [CheckResponse] returns;
    on one with a cycle under way it does not. *)
Lemma CheckResponse_returns e pl r a c :
  channels_ r !! pl = Some (Some a) ->
  store r !! a = Some c ->
  reading r a c = false ->
  is_Some (errors_ r !! pl) ->
  exists ok r', CheckResponse e pl r = Ok ok r'.
Proof.
  intros Ea Ec Hr [er Eer]. pose proof (lookup_lt_Some _ _ _ Ec) as Ha.
  pose proof (lookup_lt_Some _ _ _ Eer) as Hpl.
  unfold CheckResponse, bind at 1, channel_at. rewrite Ea.
  unfold bind at 1. rewrite (CancelReadBlocking_run a r c Ec Hr).
  unfold bind, get_channel. cbn [store set_store].
  rewrite list_lookup_insert_eq by exact Ha.
  destruct (negb _); [|eauto].
  unfold update_errors. simpl. rewrite Eer.
  destruct (time_out_ c); simpl; [|eauto].
  rewrite list_lookup_insert_eq by exact Hpl. eauto.
Qed.

Lemma CheckResponse_hangs e pl r a c :
  channels_ r !! pl = Some (Some a) ->
  store r !! a = Some c ->
  reading r a c = true ->
  CheckResponse e pl r = Hang.
Proof.
  intros Ea Ec Hr. pose proof (CancelReadBlocking_cases a r) as Hc.
  rewrite Ec, Hr in Hc.
  unfold CheckResponse, bind at 1, channel_at. rewrite Ea.
  unfold bind at 1. now rewrite Hc.
Qed.

(** A channel of a bot on which no read cycle is under way. *)
Lemma check_responses_returns e pls : forall r,
  (forall pl, pl ∈ pls ->
     exists a c, channels_ r !! pl = Some (Some a) /\ store r !! a = Some c
                 /\ reading r a c = false /\ (pl < length (errors_ r))%nat) ->
  exists oks r', check_responses e pls r = Ok oks r'.
Proof.
  induction pls as [|p pls IH]; intros r Hpre; simpl; [eauto|].
  destruct (Hpre p) as (a & c & Ea & Ec & Hr & Hp); [apply elem_of_cons; by left|].
  destruct (CheckResponse_returns e p r a c Ea Ec Hr) as (ok & r1 & H1);
    [now apply lookup_lt_is_Some_2 |].
  pose proof (w_CheckResponse _ _ _ _ _ H1) as (C & _ & _ & Ls & Le).
  destruct (CheckResponse_store _ _ _ _ _ H1) as (a0 & c0 & Ea0 & Ec0 & _ & Es & Et).
  destruct (IH r1) as (oks & r2 & H2).
  { intros pl Hpl.
    destruct (Hpre pl) as (a' & c' & Ea' & Ec' & Hr' & Hp'); [apply elem_of_cons; by right|].
    destruct (decide (a0 = a')) as [->|Hne].
    - exists a', (set_cancel_read true c0). rewrite C, Es, Le.
      split_and!; [exact Ea' | | | exact Hp'].
      + apply list_lookup_insert_eq. now apply lookup_lt_Some in Ec0.
      + rewrite Ec0 in Ec'. inversion Ec'. subst c'.
        unfold reading, has_reader in *. now rewrite Et.
    - exists a', c'. rewrite C, Es, Le.
      split_and!; [exact Ea' | now rewrite list_lookup_insert_ne | | exact Hp'].
      unfold reading, has_reader in *. now rewrite Et. }
  unfold bind. rewrite H1, H2. eauto.
Qed.

(** [CheckResponses] does not return when a read cycle is under way on
    the channel of one of the bots. *)
Lemma check_responses_hangs e pls : forall r,
  (forall pl, pl ∈ pls ->
     exists a c, channels_ r !! pl = Some (Some a) /\ store r !! a = Some c
                 /\ (pl < length (errors_ r))%nat) ->
  (exists pl a c, pl ∈ pls /\ channels_ r !! pl = Some (Some a)
                  /\ store r !! a = Some c /\ reading r a c = true) ->
  check_responses e pls r = Hang.
Proof.
  induction pls as [|p pls IH]; intros r Hpre (bad & ab & cb & Hin & Eab & Ecb & Hrb).
  - inversion Hin.
  - destruct (Hpre p) as (a & c & Ea & Ec & Hp); [apply elem_of_cons; by left|].
    simpl. unfold bind at 1.
    destruct (reading r a c) eqn:Hr.
    { now rewrite (CheckResponse_hangs e p r a c Ea Ec Hr). }
    destruct (CheckResponse_returns e p r a c Ea Ec Hr) as (ok & r1 & H1);
      [now apply lookup_lt_is_Some_2 |].
    rewrite H1. unfold bind at 1.
    pose proof (w_CheckResponse _ _ _ _ _ H1) as (C & _ & _ & Ls & Le).
    destruct (CheckResponse_store _ _ _ _ _ H1) as (a0 & c0 & Ea0 & Ec0 & _ & Es & Et).
    assert (Hkeep : forall a' c', store r !! a' = Some c' ->
              exists c1, store r1 !! a' = Some c1 /\ reading r1 a' c1 = reading r a' c').
    { intros a' c' Ec'. destruct (decide (a0 = a')) as [->|Hne].
      - exists (set_cancel_read true c0). rewrite Es. split.
        + apply list_lookup_insert_eq. now apply lookup_lt_Some in Ec0.
        + rewrite Ec0 in Ec'. inversion Ec'. subst c'.
          unfold reading, has_reader. now rewrite Et.
      - exists c'. rewrite Es. split; [now rewrite list_lookup_insert_ne|].
        unfold reading, has_reader. now rewrite Et. }
    rewrite IH; [reflexivity | |].
    + intros pl Hpl.
      destruct (Hpre pl) as (a' & c' & Ea' & Ec' & Hp'); [apply elem_of_cons; by right|].
      destruct (Hkeep a' c' Ec') as (c1 & Ec1 & _).
      exists a', c1. rewrite C, Le. done.
    + apply elem_of_cons in Hin as [->|Hin].
      { rewrite Ea in Eab. inversion Eab. subst ab.
        rewrite Ec in Ecb. inversion Ecb. subst cb. congruence. }
      destruct (Hkeep ab cb Ecb) as (c1 & Ec1 & Hr1).
      exists bad, ab, c1. rewrite C, Hr1. done.
Qed.

Lemma fresh_spawned r : fresh r -> spawned r 0 = r.
Proof.
  destruct r. unfold fresh, spawned. simpl.
  intros (-> & -> & -> & -> & ->). reflexivity.
Qed.

Lemma has_reader_started (r : Referee) n a c :
  threads_stdout_ r = Some <$> seq 0 n ->
  (a < n)%nat ->
  shutdown_ c = false ->
  has_reader r a c = true.
Proof.
  intros Ht Ha Hsd. unfold has_reader. rewrite Hsd, andb_true_r, Ht.
  apply existsb_exists. exists (Some a). split; [|apply Nat.eqb_refl].
  apply list_elem_of_In, list_elem_of_fmap. exists a. split; [done|].
  apply elem_of_seq. lia.
Qed.

(** What a sleep leaves at the address of a channel that has a reader and
    a read cycle under way: the outcome the script gives for this sleep. *)
Lemma sleep_commits (r : Referee) n a c :
  threads_stdout_ r = Some <$> seq 0 n ->
  (a < n)%nat ->
  store r !! a = Some c ->
  wait_for_message_ c = false ->
  shutdown_ c = false ->
  imap (fun a c =>
          if reading r a c
          then commit_outcome (bots (clock r) (bot_index_ c)) c
          else c) (store r) !! a
  = Some (commit_outcome (bots (clock r) (bot_index_ c)) c).
Proof.
  intros Ht Ha Hs Hw Hsd. rewrite list_lookup_imap, Hs. cbn [fmap option_fmap option_map].
  unfold reading. rewrite Hw, (has_reader_started r n a c Ht Ha Hsd). reflexivity.
Qed.

Lemma response_commit o c :
  String.eqb (response (commit_outcome o c)) kReadyMessage = answers_ready o.
Proof. destruct o; reflexivity. Qed.

(** On a fresh referee, and with no bot that stays silent, [StartPlayers]
    returns, the sleep of the handshake is its only one, and its answer for
    a bot tells whether the bot answered "ready". *)
Lemma StartPlayers_fresh r :
  fresh r ->
  NumPlayers = num_bots r ->
  (forall pl : nat, (pl < num_bots r)%nat -> bots (clock r) pl <> Silent) ->
  exists (oks : list bool) r1,
    StartPlayers bots r = Ok oks r1
    /\ length oks = num_bots r
    /\ (forall pl : nat, (pl < num_bots r)%nat ->
          oks !! pl = Some (answers_ready (bots (clock r) pl)))
    /\ clock r1 = S (clock r)
    /\ log_ r1 = log_ r.
Proof.
  intros Hfresh Hn Hlive. set (n := num_bots r).
  assert (Hspawn : for_players spawn_bot r = Ok tt (spawned r n)).
  { pose proof (spawn_loop r n 0) as Hloop.
    rewrite (fresh_spawned r Hfresh) in Hloop.
    unfold for_players. rewrite (bind_run (gets players) _ r _ r eq_refl).
    apply Hloop. unfold n, num_bots. lia. }
  set (r1 := spawned r n) in *.
  assert (Hch1 : channels_ r1 = Some <$> seq 0 n) by reflexivity.
  assert (Hth1 : threads_stdout_ r1 = Some <$> seq 0 n) by reflexivity.
  assert (Her1 : errors_ r1 = replicate n Reset) by reflexivity.
  assert (Hst1 : forall pl, (pl < n)%nat ->
            exists e, store r1 !! pl = Some (MakeBotChannel pl e)).
  { intros pl Hpl. destruct (lookup_lt_is_Some_2 (executables_ r) pl) as [e He];
      [exact Hpl|].
    exists e. unfold r1, spawned. simpl. rewrite take_ge by (unfold n, num_bots; lia).
    rewrite list_lookup_imap, He. reflexivity. }
  destruct (handshake_loop (seq 0 n) r1) as (sto & Hgreet & Hlen & Hsto).
  { apply NoDup_seq. }
  { intros pl Hpl. apply elem_of_seq in Hpl.
    split; [rewrite Hch1, list_lookup_fmap, lookup_seq_lt by lia; reflexivity|].
    destruct (Hst1 pl) as [e He]; [lia|]. eauto. }
  assert (Hgreet' : for_players send_handshake r1 = Ok tt (set_store sto r1)).
  { unfold for_players, bind, gets. exact Hgreet. }
  set (r2 := set_store sto r1) in *.
  pose (r3 := set_clock (S (clock r2))
            (set_store
               (imap (fun a c =>
                        if reading r2 a c
                        then commit_outcome (bots (clock r2) (bot_index_ c)) c
                        else c) (store r2)) r2)).
  assert (Hsleep : sleep_ms bots (timeout_ready (settings_ r2)) r2 = Ok tt r3)
    by reflexivity.
  assert (Er3 : r3 = set_clock (S (clock r2))
            (set_store
               (imap (fun a c =>
                        if reading r2 a c
                        then commit_outcome (bots (clock r2) (bot_index_ c)) c
                        else c) (store r2)) r2)) by reflexivity.
  clearbody r3.
  assert (Hst3 : forall pl, (pl < n)%nat ->
            exists c, store r3 !! pl = Some (commit_outcome (bots (clock r) pl) c)).
  { intros pl Hpl. destruct (Hst1 pl Hpl) as [e He].
    pose proof (Hsto pl _ He) as Hs.
    rewrite bool_decide_eq_true_2 in Hs by (apply elem_of_seq; lia).
    exists (greeted r1 pl (MakeBotChannel pl e)).
    rewrite Er3. cbn [store set_store set_clock].
    exact (sleep_commits r2 n pl _ Hth1 Hpl Hs eq_refl eq_refl). }
  destruct (check_responses_returns kReadyMessage (seq 0 n) r3) as (oks & r4 & Hcheck).
  { intros pl Hpl. apply elem_of_seq in Hpl.
    destruct (Hst3 pl) as [c Ec]; [lia|].
    exists pl, (commit_outcome (bots (clock r) pl) c). split_and!.
    - rewrite Er3. simpl. rewrite list_lookup_fmap, lookup_seq_lt by lia. reflexivity.
    - exact Ec.
    - unfold reading. specialize (Hlive pl ltac:(unfold n in Hpl; lia)).
      now destruct (bots (clock r) pl).
    - rewrite Er3. simpl. rewrite length_replicate. lia. }
  exists oks, r4.
  pose proof (check_responses_length _ _ _ _ _ Hcheck) as Hlo.
  rewrite length_seq in Hlo.
  pose proof (check_responses_answer _ _ _ _ _ Hcheck) as ((_ & _ & Hlog & Hclock) & Hans).
  split_and!.
  - unfold StartPlayers.
    rewrite (bind_run (gets num_bots) _ r (num_bots r) r eq_refl).
    rewrite Hn, Nat.eqb_refl. cbn [negb].
    rewrite (bind_run _ _ _ _ _ Hspawn), (bind_run _ _ _ _ _ Hgreet').
    rewrite (bind_run (gets _) _ r2 _ r2 eq_refl).
    rewrite (bind_run _ _ _ _ _ Hsleep).
    unfold CheckResponses.
    rewrite (bind_run (gets players) _ r3 _ r3 eq_refl).
    replace (players r3) with (seq 0 n) by (rewrite Er3; reflexivity).
    exact Hcheck.
  - exact Hlo.
  - intros pl Hpl.
    destruct (Hans pl pl) as (a & c & Ea & Ec & Eo); [now apply lookup_seq_lt|].
    rewrite Er3 in Ea. simpl in Ea.
    rewrite list_lookup_fmap, lookup_seq_lt in Ea by exact Hpl.
    inversion Ea. subst a.
    destruct (Hst3 pl Hpl) as (c0 & Ec0). rewrite Ec0 in Ec. inversion Ec. subst c.
    rewrite Eo. f_equal. apply response_commit.
  - rewrite Hclock, Er3. reflexivity.
  - rewrite Hlog, Er3. reflexivity.
Qed.

(** C7: if a bot fails the ready handshake of [StartPlayers], that is if
    its entry in the answer of [StartPlayers] is false, [PlayTournament]
    returns at once: the state of the referee is the one [StartPlayers]
    left, with the line "Could not start all players correctly" in the log,
    so no match was played and no match is recorded;
    [corrupted_matches[pl]] is [num_matches] for every bot that failed and
    0 for every bot that answered "ready". *)
Theorem failed_handshake_aborts fuel num_matches r (start_ok : list bool) r1 :
  StartPlayers bots r = Ok start_ok r1 ->
  (exists pl : nat, start_ok !! pl = Some false) ->
  exists results,
    PlayTournament bots fuel num_matches r
    = Ok results (set_log (log_ r1 ++ [LogCouldNotStart]) r1)
    /\ matches results = []
    /\ forall (pl : nat) (ok : bool), start_ok !! pl = Some ok ->
         corrupted_matches results !! pl = Some (if ok then 0 else num_matches).
Proof.
  intros HSP (bad & Hbad).
  pose proof (StartPlayers_length _ _ _ HSP) as Hlen.
  pose proof (q_StartPlayers bots _ _ _ HSP) as (E1 & _).
  assert (Hn : num_bots r1 = num_bots r) by (unfold num_bots; congruence).
  unfold PlayTournament, bind at 1. simpl. unfold bind at 1. rewrite HSP.
  unfold bind at 1. simpl.
  pose proof (check_start_spec start_ok num_matches (players r1) true
                (NewTournamentResults (num_bots r))) as (A1 & A2 & A3 & A4).
  destruct (check_start _ _ _ _ _) as [all_ok results0]. simpl in *.
  assert (Hall : all_ok = false).
  { rewrite A1. apply not_true_is_false. intros Hf. rewrite forallb_forall in Hf.
    specialize (Hf bad). rewrite (nth_lookup_Some _ _ _ _ Hbad) in Hf.
    discriminate Hf. apply in_seq. apply lookup_lt_Some in Hbad. lia. }
  subst all_ok. exists results0. split_and!; [now rewrite Hall | exact A2 |].
  intros pl ok Hok.
  assert (Hpl : (pl < num_bots r)%nat) by (apply lookup_lt_Some in Hok; lia).
  rewrite length_replicate in A4. rewrite A4 by exact Hpl.
  unfold players. rewrite Hn.
  rewrite (existsb_seq_pick (fun p => negb (nth p start_ok false))) by lia.
  rewrite (nth_lookup_Some _ _ _ _ Hok).
  destruct ok; simpl; [|done].
  now apply lookup_replicate_2.
Qed.

End Handshake.

(** ** The actions of a turn *)

Section Actions.

Context {G : Game} {RE : RandomEngine}.
Variable bots : nat -> nat -> Outcome.

(** The candidate is either left at [kInvalidAction] or a legal action. *)
Lemma ParseResponse_candidate pl c legal r cand r1 :
  ParseResponse pl c legal kInvalidAction r = Ok cand r1 ->
  cand = kInvalidAction \/ In cand legal.
Proof.
  unfold ParseResponse. intros H.
  destruct (is_time_out c).
  { apply bind_Ok in H as (? & ? & _ & H). inversion H. now left. }
  destruct (negb (has_read c)).
  { apply bind_Ok in H as (? & ? & _ & H). inversion H. now left. }
  destruct (strtol _) as [v end_].
  destruct (negb (String.eqb end_ "")).
  { apply bind_Ok in H as (? & ? & _ & H). inversion H. now left. }
  destruct (existsb (Z.eqb (to_int v)) legal) eqn:Ex; simpl in H.
  2: { apply bind_Ok in H as (? & ? & _ & H). inversion H. now left. }
  apply bind_Ok in H as (e & ? & _ & H).
  apply bind_Ok in H as (max & ? & _ & H).
  destruct (max <? total_errors e); inversion H; subst; [now left|].
  right. apply existsb_exists in Ex as (a & Ha & Heq).
  apply Z.eqb_eq in Heq. now subst.
Qed.

(** The random action is a legal one. *)
Lemma PickAction_legal legal cand r a r' :
  PickAction legal cand r = Ok a r' ->
  cand = kInvalidAction \/ In cand legal ->
  In a legal.
Proof.
  unfold PickAction. intros H Hc.
  destruct (Z.eqb_spec cand kInvalidAction) as [->|Hne].
  - destruct (_ <? 0); [discriminate|].
    apply bind_Ok in H as (idx & r1 & _ & H).
    destruct (idx <? 0); [discriminate|].
    unfold at_index in H. destruct (legal !! Z.to_nat idx) as [x|] eqn:Ex; [|discriminate].
    inversion H. subst. apply list_elem_of_In. eapply list_elem_of_lookup_2. exact Ex.
  - inversion H. subst. destruct Hc; [contradiction | assumption].
Qed.

(** With a legal action to choose from, the random choice returns. *)
Lemma PickAction_returns legal r :
  legal <> [] ->
  exists a r', PickAction legal kInvalidAction r = Ok a r' /\ In a legal.
Proof.
  intros Hne. unfold PickAction. rewrite Z.eqb_refl.
  assert (Hlen : 0 <= Z.of_nat (length legal) - 1) by (destruct legal; [done | simpl; lia]).
  destruct (Z.ltb_spec (Z.of_nat (length legal) - 1) 0) as [|_]; [lia|].
  unfold bind, draw.
  pose proof (uniform_int_range 0 (Z.of_nat (length legal) - 1) (rng_ r) Hlen) as Hr.
  destruct (uniform_int 0 (Z.of_nat (length legal) - 1) (rng_ r)) as [idx g].
  simpl in Hr. destruct (Z.ltb_spec idx 0) as [|_]; [lia|].
  unfold at_index.
  destruct (lookup_lt_is_Some_2 legal (Z.to_nat idx)) as [a Ha]; [lia|].
  rewrite Ha. exists a, (set_rng g r). split; [done|].
  apply list_elem_of_In. eapply list_elem_of_lookup_2. exact Ha.
Qed.

(** The loop over the players: the entry of every acting player of the list
    becomes a legal action of that player, and no other entry changes. *)
Lemma parse_actions_spec state is_acting pls : forall (acts : list Action) r acts' r',
  parse_actions state is_acting pls acts r = Ok acts' r' ->
  NoDup pls ->
  (forall p, p ∈ pls -> (p < length acts)%nat) ->
  length acts' = length acts
  /\ (forall p : nat, p ∉ pls -> acts' !! p = acts !! p)
  /\ (forall p : nat, p ∈ pls -> acting is_acting p = true ->
        exists a, acts' !! p = Some a /\ In a (LegalActions state p)).
Proof.
  induction pls as [|pl pls IH]; intros acts r acts' r' H Hnd Hlt; simpl in H.
  - inversion H. subst. split_and!; try done. intros p Hp. inversion Hp.
  - apply NoDup_cons in Hnd as [Hnotin Hnd].
    destruct (acting is_acting pl) eqn:Eact; simpl in H.
    + apply bind_Ok in H as (chn & r1 & _ & H).
      apply bind_Ok in H as (c & r2 & _ & H).
      apply bind_Ok in H as (cand & r3 & Hparse & H).
      apply bind_Ok in H as (a & r4 & Hpick & H).
      apply ParseResponse_candidate in Hparse.
      apply (PickAction_legal _ _ _ _ _ Hpick) in Hparse.
      apply IH in H as (L & Hout & Hin); [|done|].
      2: { intros p Hp. rewrite length_insert. apply Hlt, elem_of_cons. by right. }
      rewrite length_insert in L. split_and!; [done| |].
      * intros p Hp. apply not_elem_of_cons in Hp as [Hne Hp].
        rewrite (Hout p Hp). now apply list_lookup_insert_ne.
      * intros p Hp Hact. apply elem_of_cons in Hp as [->|Hp]; [|now apply Hin].
        exists a. split; [|done]. rewrite (Hout pl Hnotin).
        apply list_lookup_insert_eq. apply Hlt, elem_of_cons. by left.
    + apply IH in H as (L & Hout & Hin); [|done|].
      2: { intros p Hp. apply Hlt, elem_of_cons. by right. }
      split_and!; [done| |].
      * intros p Hp. apply not_elem_of_cons in Hp as [Hne Hp]. now apply Hout.
      * intros p Hp Hact. apply elem_of_cons in Hp as [->|Hp]; [congruence|].
        now apply Hin.
Qed.

Lemma acting_cached state n pl :
  (pl < n)%nat ->
  acting (map (IsPlayerActing state) (seq 0 n)) pl = IsPlayerActing state pl.
Proof.
  intros H. unfold acting.
  change (map (IsPlayerActing state) (seq 0 n)) with (IsPlayerActing state <$> seq 0 n).
  rewrite list_lookup_fmap, lookup_seq_lt by done. reflexivity.
Qed.

(** C4: in any turn of a match, an action that the referee applies to the
    state for an acting bot is one of the legal actions of that bot in that
    state, whether it is the answer of the bot or a random substitute.  At
    a node of simultaneous moves the vector applied holds a legal action
    for every acting bot; at a node with one player to move the action
    applied is legal for that player if it is acting. *)
Theorem applied_actions_are_legal state player_order r state' player_order' r' :
  PlayTurn bots state player_order r = Ok (state', player_order') r' ->
  IsChanceNode state = false ->
  if IsSimultaneousNode state then
    exists bot_actions : list Action,
      state' = ApplyActions state bot_actions
      /\ forall pl : nat, (pl < num_bots r)%nat -> IsPlayerActing state pl = true ->
           exists a, bot_actions !! pl = Some a /\ In a (LegalActions state pl)
  else
    exists (cur : nat) (a : Action),
      CurrentPlayer state = Z.of_nat cur /\ (cur < num_bots r)%nat
      /\ state' = ApplyAction state a
      /\ (IsPlayerActing state cur = true -> In a (LegalActions state cur)).
Proof.
  intros H Hchance. unfold PlayTurn in H.
  apply bind_Ok in H as (pls & rp & Hp & H). inversion Hp. subst pls rp. clear Hp.
  apply bind_Ok in H as (order & r1 & _ & H).
  apply bind_Ok in H as (? & r2 & _ & H).
  apply bind_Ok in H as (st & r3 & _ & H).
  apply bind_Ok in H as (? & r4 & _ & H).
  apply bind_Ok in H as (? & r5 & _ & H).
  apply bind_Ok in H as (? & r6 & _ & H).
  apply bind_Ok in H as (? & r7 & _ & H).
  apply bind_Ok in H as (bot_actions & r8 & Hparse & H).
  apply bind_Ok in H as (state1 & r9 & Happly & H).
  inversion H. subst. clear H.
  apply parse_actions_spec in Hparse as (L & _ & Hin).
  2: { apply NoDup_seq. }
  2: { intros p Hp. rewrite length_replicate. unfold players in *.
       rewrite length_seq. apply elem_of_seq in Hp. lia. }
  rewrite length_replicate in L. unfold players in *. rewrite length_seq in L.
  assert (Hlegal : forall pl, (pl < num_bots r)%nat -> IsPlayerActing state pl = true ->
            exists a, bot_actions !! pl = Some a /\ In a (LegalActions state pl)).
  { intros pl Hpl Hact. apply Hin; [apply elem_of_seq; lia|].
    now rewrite acting_cached. }
  unfold apply_actions in Happly. rewrite Hchance in Happly.
  destruct (IsSimultaneousNode state).
  - inversion Happly. subst. eauto.
  - destruct (Z.ltb_spec (CurrentPlayer state) 0) as [|Hcur]; [discriminate|].
    apply bind_Ok in Happly as (a & ra & Ha & Happly). inversion Happly. subst.
    unfold at_index in Ha.
    destruct (bot_actions !! Z.to_nat (CurrentPlayer state)) as [act|] eqn:Ex;
      [|discriminate].
    inversion Ha. subst. clear Ha.
    exists (Z.to_nat (CurrentPlayer state)), a.
    assert (Hlt : (Z.to_nat (CurrentPlayer state) < num_bots r)%nat).
    { apply lookup_lt_Some in Ex. lia. }
    split_and!; [lia | exact Hlt | reflexivity |].
    intros Hact. destruct (Hlegal _ Hlt Hact) as (a' & Ea & Hl). congruence.
Qed.

End Actions.

(** ** [strtol] on the decimal writing of an integer *)

Lemma read_digits_acc d : forall acc : positive,
  read_digits (NilEmpty.string_of_uint d) (Zpos acc) true
  = (Zpos (Pos.of_uint_acc d acc), true, "").
Proof.
  induction d; intros acc; cbn [NilEmpty.string_of_uint read_digits Pos.of_uint_acc];
    try reflexivity;
    match goal with
    | |- context [digit_of ?c] =>
        let v := eval vm_compute in (digit_of c) in
        change (digit_of c) with v; cbv iota
    end;
    rewrite <- IHd; f_equal; lia.
Qed.

Lemma read_digits_of_uint d : forall seen,
  read_digits (NilEmpty.string_of_uint d) 0 seen
  = (Z.of_N (Pos.of_uint d), match d with Decimal.Nil => seen | _ => true end, "").
Proof.
  induction d; intros seen; cbn [NilEmpty.string_of_uint read_digits Pos.of_uint];
    try reflexivity;
    match goal with
    | |- context [digit_of ?c] =>
        let v := eval vm_compute in (digit_of c) in
        change (digit_of c) with v; cbv iota
    end;
    match goal with
    | |- context [10 * 0 + ?k] =>
        let v := eval vm_compute in (10 * 0 + k) in change (10 * 0 + k) with v
    end;
    try (rewrite (read_digits_acc d); reflexivity).
  rewrite IHd. now destruct d.
Qed.

Lemma c_str_of_uint d :
  c_str (NilEmpty.string_of_uint d) = NilEmpty.string_of_uint d.
Proof. induction d; simpl; try reflexivity; now rewrite IHd. Qed.

Lemma to_uint_not_nil p : Pos.to_uint p <> Decimal.Nil.
Proof.
  intros H. pose proof (DecimalPos.Unsigned.of_to p) as E. rewrite H in E. discriminate.
Qed.

(** The digits of a positive number, as [strtol] reads them after the
    white space and the sign. *)
Lemma read_digits_to_uint p :
  read_digits (NilEmpty.string_of_uint (Pos.to_uint p)) 0 false = (Zpos p, true, "").
Proof.
  rewrite read_digits_of_uint, DecimalPos.Unsigned.of_to.
  pose proof (to_uint_not_nil p). now destruct (Pos.to_uint p).
Qed.

Lemma clamp_long_id z : LONG_MIN <= z <= LONG_MAX -> clamp_long z = z.
Proof.
  intros H. unfold clamp_long.
  destruct (Z.ltb_spec z LONG_MIN); [lia|]. destruct (Z.ltb_spec LONG_MAX z); [lia|].
  reflexivity.
Qed.

(** [strtol] reads the decimal writing of a [long] back, to the end. *)
Lemma strtol_to_string z :
  LONG_MIN <= z <= LONG_MAX -> strtol (c_str (to_string z)) = (z, "").
Proof.
  intros Hz. unfold to_string. destruct z as [|p|p]; [reflexivity | |].
  - cbn [Z.to_int NilZero.string_of_int].
    pose proof (to_uint_not_nil p) as Hnil. pose proof (read_digits_to_uint p) as Hd.
    unfold NilZero.string_of_uint.
    destruct (Pos.to_uint p) eqn:E; [contradiction | ..];
      rewrite c_str_of_uint; unfold strtol;
      cbn [NilEmpty.string_of_uint skip_spaces] in *;
      match goal with
      | |- context [isspace ?c] =>
          let v := eval vm_compute in (isspace c) in change (isspace c) with v; cbv iota
      end;
      cbv beta iota; rewrite Hd; cbv beta iota; now rewrite clamp_long_id.
  - cbn [Z.to_int NilZero.string_of_int].
    pose proof (to_uint_not_nil p) as Hnil. pose proof (read_digits_to_uint p) as Hd.
    unfold NilZero.string_of_uint.
    assert (Hs : NilEmpty.string_of_uint (Pos.to_uint p) <> ""
                 -> c_str (String "-" (NilEmpty.string_of_uint (Pos.to_uint p)))
                    = String "-" (NilEmpty.string_of_uint (Pos.to_uint p))).
    { intros _. cbn [c_str]. change (Ascii.eqb "-" "000") with false. cbv iota.
      now rewrite c_str_of_uint. }
    destruct (Pos.to_uint p) eqn:E; [contradiction | ..];
      rewrite Hs by discriminate; unfold strtol;
      cbn [skip_spaces];
      change (isspace "-") with false; cbv beta iota;
      rewrite Hd; cbv beta iota; rewrite clamp_long_id by exact Hz; reflexivity.
Qed.

(** ** The parse of an answer, case by case *)

Section Classification.

Context {G : Game} {RE : RandomEngine}.

(** The five cases of lines 332 to 361, in their order, with what each does
    to the counters of the bot.  The parse is the one of [strtol]: the
    answer is taken as the number [to_int v] when [strtol] stops at the end
    of the C string. *)
Lemma ParseResponse_cases pl c legal r e :
  errors_ r !! pl = Some e ->
  let count f := Ok kInvalidAction (set_errors (<[pl := f e]> (errors_ r)) r) in
  ParseResponse pl c legal kInvalidAction r =
    if is_time_out c then count inc_time_over
    else if negb (has_read c) then count inc_protocol_error
    else if negb (String.eqb (strtol (c_str (response c))).2 "")
         then count inc_protocol_error
    else if negb (existsb (Z.eqb (to_int (strtol (c_str (response c))).1)) legal)
         then count inc_illegal_actions
    else if max_invalid_behaviors (settings_ r) <? total_errors e
         then Ok kInvalidAction r
    else Ok (to_int (strtol (c_str (response c))).1) r.
Proof.
  intros He count. unfold ParseResponse.
  destruct (is_time_out c).
  { unfold bind, update_errors. now rewrite He. }
  destruct (negb (has_read c)).
  { unfold bind, update_errors. now rewrite He. }
  destruct (strtol _) as [v end_]. simpl.
  destruct (negb (String.eqb end_ "")).
  { unfold bind, update_errors. now rewrite He. }
  destruct (negb (existsb (Z.eqb (to_int v)) legal)).
  { unfold bind, update_errors. now rewrite He. }
  unfold bind, errors_at, gets. rewrite He.
  now destruct (_ <? _).
Qed.

Lemma to_string_not_empty z : to_string z <> "".
Proof.
  unfold to_string. destruct z as [|p|p]; [discriminate | | discriminate].
  cbn [Z.to_int NilZero.string_of_int]. unfold NilZero.string_of_uint.
  destruct (Pos.to_uint p); discriminate.
Qed.

Lemma to_int_id z : - 2 ^ 31 <= z < 2 ^ 31 -> to_int z = z.
Proof. intros H. unfold to_int. rewrite Z.mod_small; lia. Qed.

(** An answer in time that is the decimal writing of an [int]: it becomes
    the candidate when it is a legal action (unless the bot is over its
    limit of errors), and counts as an illegal action otherwise. *)
Lemma ParseResponse_decimal pl c legal r e z :
  errors_ r !! pl = Some e ->
  is_time_out c = false ->
  response c = to_string z ->
  - 2 ^ 31 <= z < 2 ^ 31 ->
  ParseResponse pl c legal kInvalidAction r =
    if existsb (Z.eqb z) legal
    then if max_invalid_behaviors (settings_ r) <? total_errors e
         then Ok kInvalidAction r
         else Ok z r
    else Ok kInvalidAction (set_errors (<[pl := inc_illegal_actions e]> (errors_ r)) r).
Proof.
  intros He Hto Hresp Hz.
  rewrite (ParseResponse_cases pl c legal r e He). cbv zeta.
  rewrite Hto. unfold has_read. unfold response in Hresp. rewrite Hresp.
  destruct (String.eqb_spec (to_string z) "") as [E|_];
    [now apply to_string_not_empty in E|].
  cbn [negb]. unfold response. rewrite Hresp.
  rewrite strtol_to_string by (unfold LONG_MIN, LONG_MAX; lia).
  cbn [fst snd]. rewrite to_int_id by exact Hz.
  change (negb (String.eqb "" "")) with false. cbv iota.
  now destruct (existsb (Z.eqb z) legal).
Qed.

End Classification.


(** ** Runs of the referee on the small game *)

(** C1: three matches are announced, the disqualification rate is 0.5, and
    the bot corrupts the first two matches: it writes "x" where "start" is
    due, which is one protocol error.  After the second match
    [corrupted_matches[0]] is 2, above the threshold 1; the bot is marked
    disqualified, "tournament over" is sent, and [PlayTournament] returns
    without a third match.  Two matches were played, but only the first is
    among [matches]: the return of line 559 comes before the [push_back] of
    line 567. *)
Theorem disqualifying_match_is_not_recorded :
  exists results r',
    PlayTournament (G := TurnGame 1) twice_wrong 5 3 (referee1 3 (1 # 2)) = Ok results r'
    /\ corruption_threshold_of 3 (1 # 2) = Some 1
    /\ corrupted_matches results = [2]
    /\ disqualified results = [true]
    /\ returns_of 0 (log_ r') = [0%Q; 0%Q]
    /\ matches_announced (log_ r') = [1; 2]
    /\ (exists c, store r' !! 1%nat = Some c
                  /\ stdin_ c = "turn" +:+ endl +:+ "0" +:+ endl +:+ "  0 1" +:+ endl
                                +:+ "match over 0" +:+ endl
                                +:+ "tournament over" +:+ endl)
    /\ length (matches results) = 1%nat.
Proof.
  eexists _, _. split; [vm_compute; reflexivity|].
  split_and!; try reflexivity.
  eexists. split; reflexivity.
Qed.

(** C2: two bots are running and bot 0 is restarted.  [StartPlayer(0)]
    spawns the executable of bot 0 and puts the new channel, at address 2, in
    [channels_[0]]; but both reader threads of slot 0 are started on
    [channels_.back()], the channel of bot 1 at address 1.  Nothing reads
    the new channel: bot 0 answers "ready", and the ready check finds an
    empty response and counts a protocol error. *)
Theorem restarted_reader_is_on_the_last_channel :
  exists r',
    RestartPlayer always_ready 0 started2 = Ok tt r'
    /\ always_ready (clock started2) 0 = Line "ready"
    /\ channels_ r' = [Some 2%nat; Some 1%nat]
    /\ threads_stdout_ r' = [Some 1%nat; Some 1%nat]
    /\ threads_stderr_ r' = [Some 1%nat; Some 1%nat]
    /\ (exists c, store r' !! 2%nat = Some c
                  /\ bot_index_ c = 0%nat /\ executable_ c = "bot0"
                  /\ response c = "" /\ wait_for_message_ c = false)
    /\ errors_ r' !! 0%nat = Some (mkBotErrors 1 0 0 0).
Proof.
  eexists. split; [vm_compute; reflexivity|].
  split_and!; try reflexivity.
  eexists. split; [reflexivity|]. split_and!; reflexivity.
Qed.

(** C3: two matches, and the bot writes "x" where "start" is due in the
    first.  At the end of the first match the log reports one protocol
    error for the bot; the bot is restarted, which resets its counters, and only then is
    the match recorded: the [MatchResult] of the first match holds no error
    at all. *)
Theorem restart_erases_the_recorded_errors :
  exists results r',
    PlayTournament (G := TurnGame 1) wrong_then_polite 5 2 (referee1 3 1) = Ok results r'
    /\ In (LogBotErrors 0 (mkBotErrors 1 0 0 0)) (log_ r')
    /\ corrupted_matches results = [1]
    /\ restarts results = [1]
    /\ map errors (matches results) = [[mkBotErrors 0 0 0 0]; [mkBotErrors 0 0 0 0]].
Proof.
  eexists _, _. split; [vm_compute; reflexivity|].
  split_and!; try reflexivity.
  simpl. tauto.
Qed.

(** C5: the bot answers its turn with a line that is one NUL character,
    which is no decimal integer.  [strtol] sees an empty C string, converts
    nothing and leaves [end] at the terminator, so the test of line 345
    passes and the answer counts as the action 0: no counter moves and the
    match is recorded without an error.  The same holds for the line
    "4294967296", an integer outside the legal set {0, 1}: the assignment
    to [int action] makes it 0. *)
Theorem odd_answers_count_as_action_0 :
  (exists results r',
     PlayTournament (G := TurnGame 1) (answers nul_line) 5 1 (referee1 3 1) = Ok results r'
     /\ map errors (matches results) = [[mkBotErrors 0 0 0 0]]
     /\ map terminal (matches results) = [[0]]
     /\ corrupted_matches results = [0])
  /\ (exists results r',
        PlayTournament (G := TurnGame 1) (answers big_line) 5 1 (referee1 3 1) = Ok results r'
        /\ map errors (matches results) = [[mkBotErrors 0 0 0 0]]
        /\ map terminal (matches results) = [[0]]
        /\ corrupted_matches results = [0])
  /\ has_read (commit_outcome (Line nul_line) channel_after_start) = true
  /\ strtol (c_str nul_line) = (0, "")
  /\ strtol (c_str big_line) = (4294967296, "")
  /\ to_int 4294967296 = 0.
Proof.
  split; [|split; [|split_and!; vm_compute; reflexivity]];
    eexists _, _; (split; [vm_compute; reflexivity|]); split_and!; reflexivity.
Qed.

(** ** The theorems at work on the small game *)


Lemma applied_actions_are_legal_witness :
  (exists (cur : nat) (a : Action),
     CurrentPlayer (Game := TurnGame 1) [] = Z.of_nat cur
     /\ (cur < num_bots started1)%nat
     /\ [0] = ApplyAction (Game := TurnGame 1) [] a
     /\ (IsPlayerActing (Game := TurnGame 1) [] cur = true ->
         In a (LegalActions (Game := TurnGame 1) [] cur)))
  /\ (exists r', PlayTurn (G := TurnGame 1) ready_then_late [] [0%nat] started1
                 = Ok ([0], [0%nat]) r'
                 /\ errors_ r' = [mkBotErrors 0 0 0 1]).
Proof.
  split.
  - eapply (applied_actions_are_legal (G := TurnGame 1) ready_then_0 [] [0%nat] started1
              [0] [0%nat]).
    + vm_compute; reflexivity.
    + reflexivity.
  - eexists. split; [vm_compute; reflexivity | reflexivity].
Defined.

Lemma corrupted_match_due_iff_witness :
  exists due : bool,
    corrupted_match_due 0 referee_with_error = Ok due referee_with_error
    /\ total_errors (mkBotErrors 1 0 0 0) = 1 + 0 + 0 + 0
    /\ (due = true <->
        total_errors (mkBotErrors 1 0 0 0) > 3 \/ protocol_error (mkBotErrors 1 0 0 0) > 0)
    /\ (protocol_error (mkBotErrors 1 0 0 0) >= 1 -> due = true).
Proof.
  exact (corrupted_match_due_iff referee_with_error 0 (mkBotErrors 1 0 0 0) eq_refl).
Defined.

Lemma failed_handshake_aborts_witness :
  exists start_ok r1,
    StartPlayers (G := TurnGame 2) banana (referee2 3 1) = Ok start_ok r1
    /\ start_ok = [true; false]
    /\ exists results,
         PlayTournament (G := TurnGame 2) banana 5 7 (referee2 3 1)
         = Ok results (set_log (log_ r1 ++ [LogCouldNotStart]) r1)
         /\ matches results = []
         /\ forall (pl : nat) (ok : bool), start_ok !! pl = Some ok ->
              corrupted_matches results !! pl = Some (if ok then 0 else 7).
Proof.
  eexists _, _. split; [vm_compute; reflexivity|]. split; [reflexivity|].
  apply (failed_handshake_aborts (G := TurnGame 2) banana 5 7 (referee2 3 1)).
  - vm_compute; reflexivity.
  - exists 1%nat. reflexivity.
Defined.

Lemma welford_law_witness :
  exists results r',
    PlayTournament (G := TurnGame 1) zero_then_one 5 2 (referee1 3 (1 # 2)) = Ok results r'
    /\ exists rs : list Q,
         returns_of 0 (log_ r') = (returns_of 0 (log_ (referee1 3 (1 # 2))) ++ rs)%list
         /\ (qat (returns_mean results) 0 == mean rs)%Q
         /\ (qat (returns_agg results) 0 / count rs == population_variance rs)%Q.
Proof.
  eexists _, _. split; [vm_compute; reflexivity|].
  apply (welford_law (G := TurnGame 1) zero_then_one 5 2 (referee1 3 (1 # 2))).
  - vm_compute; reflexivity.
  - unfold num_bots; simpl; lia.
Defined.

Lemma at_most_one_disqualified_witness :
  exists results r',
    PlayTournament (G := TurnGame 2) both_wrong 5 1 (referee2 3 0) = Ok results r'
    /\ disqualified results = [true; false]
    /\ corrupted_matches results = [1; 0]
    /\ errors_ r' = [mkBotErrors 1 0 0 0; mkBotErrors 1 0 0 0]
    /\ (forall i j : nat,
          disqualified results !! i = Some true ->
          disqualified results !! j = Some true -> i = j)
    /\ forall pl : nat, disqualified results !! pl = Some true ->
         exists (thr : Z) (match_ : nat) results0 r0,
           corruption_threshold_of 1 (disqualification_rate (settings_ (referee2 3 0)))
           = Some thr
           /\ disqualification_update (G := TurnGame 2) both_wrong
                (players (referee2 3 0)) match_ thr results0 r0
              = Ok (true, results) r'
           /\ Forall (fun b => b = false) (disqualified results0)
           /\ crosses thr results0 r0 pl = true
           /\ (forall pl' : nat, (pl' < pl)%nat -> crosses thr results0 r0 pl' = false)
           /\ (forall pl' : nat, (pl < pl' < num_bots (referee2 3 0))%nat ->
                 disqualified results !! pl' = Some false
                 /\ corrupted_matches results !! pl'
                    = corrupted_matches results0 !! pl').
Proof.
  eexists _, _. split; [vm_compute; reflexivity|].
  split; [reflexivity|]. split; [reflexivity|]. split; [reflexivity|].
  apply (at_most_one_disqualified (G := TurnGame 2) both_wrong 5 1 (referee2 3 0)).
  vm_compute; reflexivity.
Defined.


(** * More of the code *)

(** ** Lines and pipes *)

Lemma append_cons (c : ascii) (s1 s2 : string) :
  String c s1 +:+ s2 = String c (s1 +:+ s2).
Proof. reflexivity. Qed.

Lemma append_nil_l (s : string) : "" +:+ s = s.
Proof. reflexivity. Qed.

Lemma append_assoc (s1 s2 s3 : string) : (s1 +:+ s2) +:+ s3 = s1 +:+ s2 +:+ s3.
Proof.
  induction s1 as [|c s1 IH]; [reflexivity|]. now rewrite !append_cons, IH.
Qed.

Lemma append_nil_r (s : string) : s +:+ "" = s.
Proof. induction s as [|c s IH]; [reflexivity|]. now rewrite append_cons, IH. Qed.

(** The loop on the characters of a text without a newline: they all go to
    the buffer. *)
Lemma getline_loop_reads_of s : forall fd line_out buf,
  no_newline s = true ->
  getline_loop (reads_of s ++ fd) line_out buf = getline_loop fd line_out (buf +:+ s).
Proof.
  induction s as [|ch s IH]; intros fd line_out buf Hs; simpl in *.
  - now rewrite append_nil_r.
  - apply andb_true_iff in Hs as [Hch Hs]. apply negb_true_iff in Hch.
    rewrite Hch. unfold reads_of in IH. rewrite IH by exact Hs.
    now rewrite append_assoc, append_cons, append_nil_l.
Qed.

(** X1: a line of the bot is read back as it was written.  When the pipe
    delivers the characters of [s], which holds no newline, and then a
    newline, [getline_async] returns true with the line [buf ++ s], empties
    the buffer and leaves the rest of the pipe unread. *)
Theorem getline_async_reads_a_line (s : string) (rest : list ReadResult)
    (stale buf : string) :
  no_newline s = true ->
  getline_async (reads_of s ++ ReadChar nl :: rest) stale buf
  = (true, buf +:+ s, "", rest).
Proof.
  intros Hs. unfold getline_async. rewrite getline_loop_reads_of by exact Hs.
  simpl. reflexivity.
Qed.

(** The loop of utils.cc on the characters of a text without a newline. *)
Lemma getline_istream_loop_stream_of s : forall stream line_out buf,
  no_newline s = true ->
  getline_istream_loop (stream_of s ++ stream) line_out buf
  = getline_istream_loop stream line_out (buf +:+ s).
Proof.
  induction s as [|ch s IH]; intros stream line_out buf Hs; simpl in *.
  - now rewrite append_nil_r.
  - apply andb_true_iff in Hs as [Hch Hs]. apply negb_true_iff in Hch.
    rewrite Hch. unfold stream_of in IH. rewrite IH by exact Hs.
    now rewrite append_assoc, append_cons, append_nil_l.
Qed.

(** X2: on a stream, a line that arrives in two pieces is put together.
    The first call of the [getline_async] of utils.cc finds the first piece
    and then a pause of the writer ([readsome] gives 0): it returns false
    with an empty line and keeps the piece in the buffer.  The next call,
    on what is left of the stream and with that buffer, returns the whole
    line. *)
Theorem getline_async_joins_the_pieces (s1 s2 : string) (rest : list (option ascii))
    (stale buf : string) :
  no_newline s1 = true ->
  no_newline s2 = true ->
  let first :=
    getline_async_istream (stream_of s1 ++ None :: stream_of s2 ++ Some nl :: rest)
      stale buf in
  first = (false, "", buf +:+ s1, (stream_of s2 ++ Some nl :: rest)%list)
  /\ getline_async_istream first.2 first.1.1.2 first.1.2
     = (true, buf +:+ s1 +:+ s2, "", rest).
Proof.
  intros H1 H2 first.
  assert (E : first = (false, "", buf +:+ s1, (stream_of s2 ++ Some nl :: rest)%list)).
  { subst first. unfold getline_async_istream.
    now rewrite getline_istream_loop_stream_of by exact H1. }
  split; [exact E|]. rewrite E. cbn [fst snd].
  unfold getline_async_istream. rewrite getline_istream_loop_stream_of by exact H2.
  simpl. now rewrite append_assoc.
Qed.

(** The loop of referee.cc goes through what a descriptor gives before its
    end: the characters go to the buffer, and on -1 it reads again. *)
Lemma getline_loop_waits fd : forall rest line_out buf,
  never_at_end fd = true ->
  no_newline (text_of fd) = true ->
  getline_loop (fd ++ rest) line_out buf
  = getline_loop rest line_out (buf +:+ text_of fd).
Proof.
  induction fd as [|[ch| |] fd IH]; intros rest line_out buf He Hs; simpl in *.
  - now rewrite append_nil_r.
  - apply andb_true_iff in Hs as [Hch Hs]. apply negb_true_iff in Hch.
    rewrite Hch, IH by assumption.
    now rewrite append_assoc, append_cons, append_nil_l.
  - discriminate.
  - now apply IH.
Qed.

(** X3: on a descriptor, [getline_async] waits for the newline.  As long as
    the bot keeps its output open ([read] never gives 0), the call of
    referee.cc does not return before the newline: whatever pauses lie
    before and between the characters ([read] gives -1), one call returns
    true with the whole line, and leaves what comes after the newline
    unread.  (The variant of utils.cc returns false at the first pause.) *)
Theorem getline_async_waits_for_the_newline (fd rest : list ReadResult)
    (stale buf : string) :
  never_at_end fd = true ->
  no_newline (text_of fd) = true ->
  getline_async (fd ++ ReadChar nl :: rest) stale buf
  = (true, buf +:+ text_of fd, "", rest).
Proof.
  intros He Hs. unfold getline_async.
  rewrite getline_loop_waits by assumption. simpl. reflexivity.
Qed.

(** One call neither drops nor invents a character: the buffer and what
    the pipe still holds, before the call, are the line read (with its
    newline), the buffer and what the pipe still holds, after it. *)
Lemma getline_loop_conserves fd : forall line_out buf,
  buf +:+ text_of fd
  = (if (getline_loop fd line_out buf).1.1.1
     then (getline_loop fd line_out buf).1.1.2 +:+ endl else "")
    +:+ (getline_loop fd line_out buf).1.2 +:+ text_of (getline_loop fd line_out buf).2.
Proof.
  induction fd as [|[ch| |] fd IH]; intros line_out buf; simpl.
  - reflexivity.
  - destruct (Ascii.eqb ch nl) eqn:E; simpl.
    + apply Ascii.eqb_eq in E. subst ch. unfold endl.
      now rewrite append_assoc, append_cons, !append_nil_l.
    + rewrite <- IH. now rewrite append_assoc, append_cons, append_nil_l.
  - reflexivity.
  - apply IH.
Qed.

Lemma referee_flags_buf p c : buf_ (referee_flags p c) = buf_ c.
Proof. unfold referee_flags. now destruct (p_cancel p), (p_shutdown p). Qed.

(** X4: the reader neither drops nor invents a character.  Whatever the
    polls of a read cycle are, the buffer of the channel followed by what
    the pipe holds, before the cycle, is the line delivered in the response
    slot with its newline (if a line was delivered), followed by the buffer
    and by what the pipe still holds, after it. *)
Theorem read_cycle_conserves_input (polls : list Poll) :
  forall (fd : list ReadResult) (c : BotChannel),
  exists delivered : string,
    (delivered = "" \/ delivered = response_ (read_cycle polls fd c).1.2 +:+ endl)
    /\ buf_ c +:+ text_of fd
       = delivered +:+ buf_ (read_cycle polls fd c).1.2
         +:+ text_of (read_cycle polls fd c).2.
Proof.
  induction polls as [|p polls IH]; intros fd c.
  - exists "". split; [now left | reflexivity].
  - cbn [read_cycle]. unfold getline_async.
    pose proof (getline_loop_conserves fd "" (buf_ (referee_flags p c))) as Hc.
    rewrite referee_flags_buf in Hc at 1.
    destruct (getline_loop fd "" (buf_ (referee_flags p c)))
      as [[[line_read line_out] buf] fd1].
    cbn [fst snd] in Hc. destruct line_read.
    + exists (line_out +:+ endl). split; [now right | exact Hc].
    + set (c2 := set_time_out _ _).
      assert (Hb : buf_ c2 = buf) by reflexivity.
      destruct (time_out_ c2); [exists ""; split; [now left | exact Hc]|].
      destruct (cancel_read_ c2); [exists ""; split; [now left | exact Hc]|].
      destruct (shutdown_ c2); [exists ""; split; [now left | exact Hc]|].
      destruct (IH fd1 c2) as (d & Hd & E). exists d. split; [exact Hd|].
      rewrite <- E. exact Hc.
Qed.

(** A cycle whose first poll finds a whole line in the pipe. *)
Lemma read_cycle_line p polls s rest c0 :
  no_newline s = true ->
  read_cycle (p :: polls) (reads_of s ++ ReadChar nl :: rest) c0
  = (Parked,
     set_wait_for_message true
       (set_buf "" (set_response (buf_ c0 +:+ s) (referee_flags p c0))),
     rest).
Proof.
  intros Hs. cbn [read_cycle]. unfold getline_async.
  rewrite getline_loop_reads_of by exact Hs. cbn [getline_loop].
  rewrite Ascii.eqb_refl, referee_flags_buf. reflexivity.
Qed.

Lemma referee_flags_time_out p c : time_out_ (referee_flags p c) = time_out_ c.
Proof. unfold referee_flags. now destruct (p_cancel p), (p_shutdown p). Qed.

(** X5: a line that is whole in the pipe when the reader first looks is
    accepted, even when the deadline has passed by then or the referee has
    cancelled the read: [getline_async] is the first test of the loop, and
    [time_out_] is assigned only when no line was read.  The cycle ends with
    the line in the response slot and [time_out_] false. *)
Theorem a_line_in_the_pipe_beats_the_deadline (c : BotChannel) (time_limit : Z)
    (p : Poll) (polls : list Poll) (s : string) (rest : list ReadResult) :
  no_newline s = true ->
  let cycle := read_cycle (p :: polls) (reads_of s ++ ReadChar nl :: rest)
                 (start_read time_limit c) in
  cycle.1.1 = Parked
  /\ response cycle.1.2 = buf_ c +:+ s
  /\ is_time_out cycle.1.2 = false
  /\ wait_for_message_ cycle.1.2 = true
  /\ cycle.2 = rest.
Proof.
  intros Hs cycle. subst cycle. rewrite read_cycle_line by exact Hs.
  cbn [fst snd]. split_and!; try reflexivity.
  unfold is_time_out. cbn [time_out_ set_wait_for_message set_buf set_response].
  now rewrite referee_flags_time_out.
Qed.

(** A cycle on a pipe that delivers no newline leaves no response. *)
Lemma read_cycle_no_line p polls fd c :
  ~ In (ReadChar nl) fd ->
  response_ (read_cycle (p :: polls) fd c).1.2 = "".
Proof.
  intros Hno.
  destruct (String.eqb_spec (response_ (read_cycle (p :: polls) fd c).1.2) "")
    as [E|Hne]; [exact E|].
  exfalso. rewrite <- (read_cycle_forgets p polls fd c "") in Hne.
  destruct (read_cycle_consumes (p :: polls) fd (set_response "" c))
    as (cs & Hfd & Hnl).
  apply Hno. rewrite Hfd. apply in_or_app. left. now apply Hnl.
Qed.

(** X6: the line that comes after the deadline is the answer of the cycle
    in which it was awaited, and no timeout is noted.  While the bot keeps
    its output open and writes no newline, the reader is inside
    [getline_async] and does not look at the clock: whenever the newline
    comes, and whatever the time elapsed by then, the cycle ends with the
    line in the response slot and [time_out_] false.  The cycle that the
    next [StartRead] begins finds what came after that newline: when that
    holds no newline, its response is empty. *)
Theorem a_late_line_answers_its_own_cycle (c : BotChannel) (t t' : Z)
    (p p' : Poll) (polls polls' : list Poll) (fd rest : list ReadResult) :
  never_at_end fd = true ->
  no_newline (text_of fd) = true ->
  ~ In (ReadChar nl) rest ->
  let first := read_cycle (p :: polls) (fd ++ ReadChar nl :: rest) (start_read t c) in
  let second := read_cycle (p' :: polls') first.2 (start_read t' first.1.2) in
  first.1.1 = Parked
  /\ response first.1.2 = buf_ c +:+ text_of fd
  /\ is_time_out first.1.2 = false
  /\ first.2 = rest
  /\ response second.1.2 = "".
Proof.
  intros He Hs Hrest first second.
  assert (E : first
    = (Parked,
       set_wait_for_message true
         (set_buf "" (set_response (buf_ c +:+ text_of fd)
                        (referee_flags p (start_read t c)))),
       rest)).
  { subst first. cbn [read_cycle]. unfold getline_async.
    rewrite getline_loop_waits by assumption. cbn [getline_loop].
    rewrite Ascii.eqb_refl, referee_flags_buf. reflexivity. }
  subst second. rewrite E. cbn [fst snd]. split_and!; try reflexivity.
  - unfold is_time_out. cbn [time_out_ set_wait_for_message set_buf set_response].
    now rewrite referee_flags_time_out.
  - unfold response. now apply read_cycle_no_line.
Qed.

(** ** The protocol of a channel *)

Section Channel.

Context {G : Game} {RE : RandomEngine}.
Variable bots : nat -> nat -> Outcome.

(** X7: [StartRead] cannot be called twice in a row on a channel.  After a
    [StartRead] that returned, the channel waits for its reader; a second
    [StartRead] before the reader has ended the cycle fails the check of
    [wait_for_message_] and stops the referee. *)
Theorem StartRead_twice_stops (a : nat) (t t' : Z) (r r1 : Referee) :
  StartRead a t r = Ok tt r1 ->
  StartRead a t' r1 = Fatal "SPIEL_CHECK_TRUE(wait_for_message_)".
Proof.
  unfold StartRead, bind, get_channel, update_channel, fatal. intros H.
  destruct (store r !! a) as [c|] eqn:Ec; [|discriminate].
  destruct (shutdown_ c) eqn:Esd; [discriminate|].
  destruct (negb (wait_for_message_ c)); [discriminate|].
  rewrite Ec in H. inversion H. subst r1. clear H. simpl.
  rewrite list_lookup_insert_eq by (now apply lookup_lt_Some in Ec).
  simpl. now rewrite Esd.
Qed.

Lemma CheckResponse_run e pl r ok r' :
  CheckResponse e pl r = Ok ok r' ->
  exists a c,
    channels_ r !! pl = Some (Some a) /\ store r !! a = Some c
    /\ ok = String.eqb (response c) e
    /\ channels_ r' = channels_ r
    /\ store r' = <[a := set_cancel_read true c]> (store r)
    /\ (forall pl', pl' <> pl -> errors_ r' !! pl' = errors_ r !! pl')
    /\ errors_ r' !! pl = charged e c <$> errors_ r !! pl.
Proof.
  intros H. unfold CheckResponse in H.
  apply bind_Ok in H as (a & r1 & Ha & H).
  unfold channel_at in Ha.
  destruct (channels_ r !! pl) as [[a'|]|] eqn:Ea; try discriminate.
  inversion Ha. subst a' r1. clear Ha.
  apply bind_Ok in H as ([] & r2 & Hc & H).
  apply CancelReadBlocking_Ok in Hc as (c & Ec & _ & ->).
  apply bind_Ok in H as (c' & r3 & Hg & H).
  unfold get_channel in Hg. simpl in Hg.
  rewrite list_lookup_insert_eq in Hg by (now apply lookup_lt_Some in Ec).
  inversion Hg. subst c' r3. clear Hg.
  change (response (set_cancel_read true c)) with (response c) in H.
  change (is_time_out (set_cancel_read true c)) with (is_time_out c) in H.
  exists a, c. unfold charged.
  destruct (String.eqb (response c) e) eqn:Eq; simpl in H.
  - inversion H. subst. split_and!; try done. simpl. now destruct (errors_ r !! pl).
  - apply bind_Ok in H as ([] & r4 & He & H).
    unfold update_errors in He. simpl in He.
    destruct (errors_ r !! pl) as [er|] eqn:Eer; [|discriminate].
    inversion He. subst r4. clear He.
    pose proof (lookup_lt_Some _ _ _ Eer) as Hpl.
    apply bind_Ok in H as ([] & r5 & He' & H). inversion H. subst r5. clear H.
    destruct (is_time_out c).
    + unfold update_errors in He'. simpl in He'.
      rewrite list_lookup_insert_eq in He' by exact Hpl.
      inversion He'. subst r'. clear He'. simpl.
      rewrite list_insert_insert_eq.
      split_and!; try done.
      * intros pl' Hne. now rewrite list_lookup_insert_ne.
      * now rewrite list_lookup_insert_eq.
    + inversion He'. subst r'. clear He'. simpl.
      split_and!; try done.
      * intros pl' Hne. now rewrite list_lookup_insert_ne.
      * rewrite list_lookup_insert_eq by exact Hpl. unfold inc_protocol_error.
        now rewrite Z.add_0_r.
Qed.

Lemma check_responses_run e pls : forall r (oks : list bool) r',
  check_responses e pls r = Ok oks r' ->
  NoDup pls ->
  channels_ r' = channels_ r
  /\ length (store r') = length (store r)
  /\ (forall pl, pl ∉ pls -> errors_ r' !! pl = errors_ r !! pl)
  /\ (forall a c', store r' !! a = Some c' ->
        exists c, store r !! a = Some c
                  /\ set_cancel_read true c' = set_cancel_read true c)
  /\ forall (i pl : nat), pls !! i = Some pl ->
       exists a c, channels_ r !! pl = Some (Some a) /\ store r !! a = Some c
                   /\ oks !! i = Some (String.eqb (response c) e)
                   /\ errors_ r' !! pl = charged e c <$> errors_ r !! pl.
Proof.
  induction pls as [|p pls IH]; intros r oks r' H Hnd; simpl in H.
  - inversion H. subst.
    split_and!; [done | done | done | eauto | intros i pl Hi; inversion Hi].
  - apply NoDup_cons in Hnd as [Hnotin Hnd].
    apply bind_Ok in H as (ok & r1 & H1 & H).
    apply bind_Ok in H as (oks' & r2 & H2 & H). inversion H. subst. clear H.
    apply CheckResponse_run in H1 as (a & c & Ea & Ec & -> & C1 & S1 & Eo1 & Ep1).
    apply IH in H2 as (C2 & L2 & Eo2 & S2 & Hrest); [|exact Hnd].
    assert (Hback : forall a' c1, store r1 !! a' = Some c1 ->
              exists c0, store r !! a' = Some c0
                         /\ set_cancel_read true c1 = set_cancel_read true c0).
    { intros a' c1 Hc1. rewrite S1 in Hc1.
      destruct (decide (a = a')) as [<-|Hne].
      - rewrite list_lookup_insert_eq in Hc1 by (now apply lookup_lt_Some in Ec).
        inversion Hc1. subst c1. exists c. done.
      - rewrite list_lookup_insert_ne in Hc1 by done. exists c1. done. }
    split_and!.
    + congruence.
    + rewrite L2, S1. apply length_insert.
    + intros pl Hpl. apply not_elem_of_cons in Hpl as [Hne Hpl].
      rewrite (Eo2 pl Hpl). now apply Eo1.
    + intros a' c' Hc'. destruct (S2 a' c' Hc') as (c1 & Hc1 & R1).
      destruct (Hback a' c1 Hc1) as (c0 & Hc0 & R0).
      exists c0. split; congruence.
    + intros [|i] pl Hi; simpl in Hi.
      * inversion Hi. subst pl. exists a, c. split_and!; try done.
        rewrite (Eo2 p Hnotin). exact Ep1.
      * destruct (Hrest i pl Hi) as (a' & c1 & Ea' & Ec1 & Eok & Eer).
        destruct (Hback a' c1 Ec1) as (c0 & Hc0 & R0).
        assert (Hne : pl <> p).
        { intros ->. apply Hnotin. eapply list_elem_of_lookup_2. exact Hi. }
        assert (Hresp : response c1 = response c0)
          by (exact (f_equal response_ R0)).
        assert (Hto : is_time_out c1 = is_time_out c0)
          by (exact (f_equal time_out_ R0)).
        exists a', c0. split_and!; [congruence | done | simpl; now rewrite <- Hresp |].
        rewrite Eer, (Eo1 pl Hne). unfold charged. now rewrite Hresp, Hto.
Qed.

(** X8: [CheckResponses] charges each bot for its own answer, once.  The
    answer for bot [pl] tells whether the response slot of its channel holds
    the expected message.  If it does, the counters of the bot stay; if not,
    the bot gets one protocol error, and one time-over besides when its read
    timed out: a bot that lets the deadline pass is charged twice. *)
Theorem CheckResponses_charges_each_bot (e : string) (r : Referee)
    (oks : list bool) (r' : Referee) :
  CheckResponses e r = Ok oks r' ->
  forall pl : nat, (pl < num_bots r)%nat ->
    exists a c,
      channels_ r !! pl = Some (Some a) /\ store r !! a = Some c
      /\ oks !! pl = Some (String.eqb (response c) e)
      /\ errors_ r' !! pl = charged e c <$> errors_ r !! pl.
Proof.
  intros H pl Hpl. unfold CheckResponses in H.
  apply bind_Ok in H as (pls & r0 & Hp & H). inversion Hp. subst pls r0. clear Hp.
  apply check_responses_run in H as (_ & _ & _ & _ & Hrun); [|apply NoDup_seq].
  apply (Hrun pl pl). unfold players. now apply lookup_seq_lt.
Qed.

(** X9: right after [ResetErrorTracking] a bot is due for a corrupted match
    only if the limit [max_invalid_behaviors] is negative: the counters are
    zero, and zero exceeds the limit exactly then. *)
Theorem after_a_reset_no_bot_is_due (r : Referee) (pl : nat) :
  (pl < length (errors_ r))%nat ->
  exists r1,
    ResetErrorTracking r = Ok tt r1
    /\ errors_ r1 !! pl = Some Reset
    /\ corrupted_match_due pl r1
       = Ok (max_invalid_behaviors (settings_ r) <? 0) r1.
Proof.
  intros Hpl. eexists. split; [reflexivity|].
  assert (E : map (fun _ : BotErrors => Reset) (errors_ r) !! pl = Some Reset).
  { destruct (lookup_lt_is_Some_2 (errors_ r) pl Hpl) as [e He].
    change (map ?f ?l) with (f <$> l). now rewrite list_lookup_fmap, He. }
  split; [exact E|].
  unfold corrupted_match_due, bind, errors_at, gets, ret. simpl. rewrite E.
  simpl. now rewrite orb_false_r.
Qed.

End Channel.

(** ** The index sent to a bot *)

(** A text of one character is the decimal writing of a number below 10
    only. *)
Lemma one_char_number (z : Z) (c : ascii) : to_string z = String c "" -> 0 <= z < 10.
Proof.
  unfold to_string. intros H.
  assert (Hi : NilZero.int_of_string (String c "") = Some (Z.to_int z)).
  { rewrite <- H. apply NilZero.isi.
    - destruct z as [|p|p]; try discriminate. simpl. intros E. inversion E.
      now apply to_uint_not_nil in H1.
    - destruct z as [|p|p]; try discriminate. simpl. intros E. inversion E.
      now apply to_uint_not_nil in H1. }
  rewrite <- (DecimalZ.of_to z). clear H. revert Hi. generalize (Z.to_int z).
  intros d Hi.
  destruct c as [[] [] [] [] [] [] [] []]; vm_compute in Hi;
    try discriminate Hi; inversion Hi as [E]; vm_compute;
    split; congruence.
Qed.

(** X10: the index that the handshake sends to bot [pl] is the character
    ['0' + pl]; it is the decimal writing of [pl] exactly for the first ten
    bots. *)
Theorem pl_char_is_the_index_below_ten (pl : nat) :
  String (pl_char pl) "" = to_string (Z.of_nat pl) <-> (pl < 10)%nat.
Proof.
  split.
  - intros H. symmetry in H. apply one_char_number in H. lia.
  - intros H. do 10 (destruct pl as [|pl]; [reflexivity|]). lia.
Qed.

(** ** The constructor *)

Section ConstructorProperties.

Context {RE : RandomEngine}.

Lemma check_executables_none fs executables :
  check_executables fs executables = None
  <-> Forall (fun e => fs_exists fs e = true /\ fs_x_ok fs e = true) executables.
Proof.
  induction executables as [|e rest IH]; simpl.
  - split; [constructor | reflexivity].
  - destruct (fs_exists fs e) eqn:E1; simpl.
    + destruct (fs_x_ok fs e) eqn:E2; simpl.
      * rewrite IH. split; [now constructor | now inversion 1].
      * split; [discriminate | inversion 1 as [|? ? [_ Hx]]; congruence].
    + split; [discriminate | inversion 1 as [|? ? [Hx _]]; congruence].
Qed.

(** X11: the constructor returns a referee exactly when the engine loads
    the game and makes its two observers, there is at least one executable,
    and every executable exists and can be executed.  The initialisers come
    first: when one of them fails, the constructor stops with its message
    whatever the executables are.  The referee that is returned has started
    nothing yet, and has one bot for each executable. *)
Theorem ConstructReferee_succeeds_iff (engine : Engine) (fs : FileSystem)
    (game_name : string) (executables : list string) (seed : Z)
    (settings : TournamentSettings) :
  ((exists r, ConstructReferee engine fs game_name executables seed settings = Ok tt r)
   <-> initialisers engine game_name = None
       /\ executables <> []
       /\ Forall (fun e => fs_exists fs e = true /\ fs_x_ok fs e = true) executables)
  /\ (forall msg, initialisers engine game_name = Some msg ->
        ConstructReferee engine fs game_name executables seed settings = Fatal msg)
  /\ forall r, ConstructReferee engine fs game_name executables seed settings = Ok tt r ->
       fresh r /\ executables_ r = executables /\ (0 < num_bots r)%nat
       /\ game_name_ r = game_name /\ settings_ r = settings
       /\ log_ r = [] /\ clock r = 0%nat.
Proof.
  unfold ConstructReferee, ConstructReferee_body, NewReferee.
  destruct (initialisers engine game_name) as [msg|].
  { split_and!.
    - split; [intros [r H]; discriminate | intros (H & _); discriminate].
    - intros msg' H. now inversion H.
    - intros r H. discriminate. }
  split_and!; [split| |].
  - intros [r H]. destruct executables as [|e rest]; [discriminate|].
    split_and!; [done | discriminate |]. apply check_executables_none.
    now destruct (check_executables fs (e :: rest)).
  - intros (_ & Hne & Hall). destruct executables as [|e rest]; [contradiction|].
    apply check_executables_none in Hall. rewrite Hall. eauto.
  - intros msg H. discriminate.
  - intros r H. destruct executables as [|e rest]; [discriminate|].
    destruct (check_executables fs (e :: rest)); [discriminate|].
    inversion H. subst r. unfold fresh, num_bots. simpl. split_and!; try done. lia.
Qed.

(** X12: when a file is missing or cannot be executed, the body of the
    constructor stops with the message for the first such executable of the
    list: "was not found" if the file does not exist, "cannot be executed"
    if it exists without the right to execute it.  The executables after it
    are not looked at.  So does the constructor, once its initialisers have
    passed. *)
Theorem ConstructReferee_reports_the_first_bad_file (fs : FileSystem)
    (game_name : string) (good : list string) (bad : string) (rest : list string)
    (seed : Z) (settings : TournamentSettings) :
  Forall (fun e => fs_exists fs e = true /\ fs_x_ok fs e = true) good ->
  fs_exists fs bad = false \/ fs_x_ok fs bad = false ->
  let stop : Result Referee unit :=
    Fatal (if fs_exists fs bad
           then "The bot file '" +:+ bad +:+ "' cannot be executed. (missing +x flag?)"
           else "The bot file '" +:+ bad +:+ "' was not found.") in
  ConstructReferee_body fs game_name (good ++ bad :: rest) seed settings = stop
  /\ forall engine, initialisers engine game_name = None ->
       ConstructReferee engine fs game_name (good ++ bad :: rest) seed settings = stop.
Proof.
  intros Hgood Hbad stop.
  assert (Hbody : ConstructReferee_body fs game_name (good ++ bad :: rest) seed settings
                  = stop).
  { unfold ConstructReferee_body, NewReferee.
    destruct (good ++ bad :: rest)%list as [|e l] eqn:El; [now destruct good|].
    rewrite <- El. clear El e l.
    assert (E : check_executables fs (good ++ bad :: rest)
                = Some (if fs_exists fs bad
                        then "The bot file '" +:+ bad
                             +:+ "' cannot be executed. (missing +x flag?)"
                        else "The bot file '" +:+ bad +:+ "' was not found.")).
    { induction Hgood as [|e good [E1 E2] _ IH]; simpl.
      - destruct (fs_exists fs bad); simpl; [|reflexivity].
        destruct Hbad as [Hx|Hx]; [discriminate|]. now rewrite Hx.
      - now rewrite E1, E2. }
    now rewrite E. }
  split; [exact Hbody|]. intros engine He. unfold ConstructReferee. now rewrite He.
Qed.

End ConstructorProperties.

(** ** The answer of an acting bot *)

Lemma string_of_uint_digits d : all_digits (NilEmpty.string_of_uint d) = true.
Proof. induction d; simpl; try reflexivity; exact IHd. Qed.

Lemma is_digit_plain c :
  is_digit c = true ->
  Ascii.eqb c "000" = false /\ isspace c = false
  /\ Ascii.eqb c "-" = false /\ Ascii.eqb c "+" = false.
Proof.
  destruct c as [[] [] [] [] [] [] [] []]; vm_compute; intros H;
    try discriminate H; repeat split.
Qed.

Lemma c_str_digits s t : all_digits s = true -> c_str (s +:+ t) = s +:+ c_str t.
Proof.
  induction s as [|c s IH]; intros H; [reflexivity|].
  simpl in H. apply andb_true_iff in H as [Hc Hs].
  apply is_digit_plain in Hc as (Hnul & _).
  rewrite !append_cons. cbn [c_str]. rewrite Hnul. now rewrite IH.
Qed.

(** The digits are read up to the first character that is none. *)
Lemma read_digits_stops s ch rest : forall acc seen,
  all_digits s = true ->
  digit_of ch = None ->
  exists v, read_digits (s +:+ String ch rest) acc seen
            = (v, seen || negb (String.eqb s ""), String ch rest).
Proof.
  induction s as [|c s IH]; intros acc seen Hs Hch.
  - rewrite append_nil_l. cbn [read_digits]. rewrite Hch. exists acc.
    now rewrite orb_false_r.
  - simpl in Hs. apply andb_true_iff in Hs as [Hc Hs].
    rewrite append_cons. cbn [read_digits]. unfold is_digit in Hc.
    destruct (digit_of c) as [d|]; [|discriminate].
    destruct (IH (10 * acc + d) true Hs Hch) as [v Hv].
    exists v. rewrite Hv. simpl. now rewrite orb_true_r.
Qed.

(** [strtol] on digits followed by something else stops there. *)
Lemma strtol_digits_then s ch rest :
  all_digits s = true ->
  s <> "" ->
  digit_of ch = None ->
  (strtol (s +:+ String ch rest)).2 = String ch rest
  /\ (strtol (String "-" (s +:+ String ch rest))).2 = String ch rest.
Proof.
  intros Hs Hne Hch.
  destruct (read_digits_stops s ch rest 0 false Hs Hch) as [v Hv].
  assert (Hseen : false || negb (String.eqb s "") = true).
  { destruct (String.eqb_spec s ""); [contradiction | reflexivity]. }
  rewrite Hseen in Hv.
  destruct s as [|c s]; [contradiction|].
  simpl in Hs. apply andb_true_iff in Hs as [Hc _].
  apply is_digit_plain in Hc as (_ & Hsp & Hminus & Hplus).
  apply Ascii.eqb_neq in Hminus, Hplus.
  split.
  - unfold strtol. rewrite append_cons in *. cbn [skip_spaces]. rewrite Hsp.
    assert (E : match String c (s +:+ String ch rest) with
                | String "-" s' => (true, s')
                | String "+" s' => (false, s')
                | _ => (false, String c (s +:+ String ch rest))
                end = (false, String c (s +:+ String ch rest))).
    { destruct c as [[] [] [] [] [] [] [] []]; try reflexivity; congruence. }
    rewrite E, Hv. reflexivity.
  - unfold strtol. cbn [skip_spaces]. change (isspace "-") with false. cbv iota.
    rewrite Hv. reflexivity.
Qed.

Lemma to_string_shape z :
  exists s, all_digits s = true /\ s <> ""
            /\ (to_string z = s \/ to_string z = String "-" s).
Proof.
  unfold to_string. destruct z as [|p|p].
  - exists "0". split_and!; [reflexivity | discriminate | now left].
  - exists (NilEmpty.string_of_uint (Pos.to_uint p)).
    pose proof (to_uint_not_nil p) as Hnil.
    split_and!; [apply string_of_uint_digits | | left].
    + destruct (Pos.to_uint p); [contradiction | discriminate ..].
    + cbn [Z.to_int NilZero.string_of_int]. unfold NilZero.string_of_uint.
      now destruct (Pos.to_uint p).
  - exists (NilEmpty.string_of_uint (Pos.to_uint p)).
    pose proof (to_uint_not_nil p) as Hnil.
    split_and!; [apply string_of_uint_digits | | right].
    + destruct (Pos.to_uint p); [contradiction | discriminate ..].
    + cbn [Z.to_int NilZero.string_of_int]. unfold NilZero.string_of_uint.
      now destruct (Pos.to_uint p).
Qed.

(** After the decimal writing of a number, [strtol] stops at the first
    character that is neither a digit nor the end of the C string. *)
Lemma strtol_number_then z ch rest :
  digit_of ch = None ->
  ch <> "000"%char ->
  (strtol (c_str (to_string z +:+ String ch rest))).2 = String ch (c_str rest).
Proof.
  intros Hch Hnul. apply Ascii.eqb_neq in Hnul.
  destruct (to_string_shape z) as (s & Hs & Hne & [E|E]); rewrite E.
  - rewrite c_str_digits by exact Hs. cbn [c_str]. rewrite Hnul.
    now apply strtol_digits_then.
  - rewrite append_cons. cbn [c_str]. change (Ascii.eqb "-" "000") with false.
    cbv iota. rewrite c_str_digits by exact Hs. cbn [c_str]. rewrite Hnul.
    now apply strtol_digits_then.
Qed.

Section Answers.

Context {G : Game} {RE : RandomEngine}.

(** X13: an answer with anything after the number is a protocol error.
    When the response of an acting bot is the decimal writing of a number
    followed by a character that is neither a digit nor NUL (a carriage
    return, a space, a point), [strtol] stops before that character, the
    test [*end != '\0'] fails the answer, and the bot gets one protocol
    error whatever the number is; its action is left to the random
    choice. *)
Theorem an_answer_with_a_tail_is_a_protocol_error (pl : nat) (c : BotChannel)
    (legal : list Action) (r : Referee) (e : BotErrors)
    (z : Z) (ch : ascii) (rest : string) :
  errors_ r !! pl = Some e ->
  is_time_out c = false ->
  response c = to_string z +:+ String ch rest ->
  digit_of ch = None ->
  ch <> "000"%char ->
  ParseResponse pl c legal kInvalidAction r
  = Ok kInvalidAction (set_errors (<[pl := inc_protocol_error e]> (errors_ r)) r).
Proof.
  intros He Hto Hresp Hch Hnul.
  rewrite (ParseResponse_cases pl c legal r e He). cbv zeta.
  rewrite Hto. unfold has_read. unfold response in Hresp. rewrite Hresp.
  assert (Hne : String.eqb (to_string z +:+ String ch rest) "" = false).
  { apply String.eqb_neq. destruct (to_string z); discriminate. }
  rewrite Hne. cbn [negb]. unfold response. rewrite Hresp.
  rewrite strtol_number_then by assumption. reflexivity.
Qed.

(** X14: the referee reads back the actions it sends.  The legal actions
    go to the bot as [std::to_string(a)]; when the response of the bot is
    that text for a legal action [a] in the range of [int], the read did not
    time out and the bot is within its limit of errors, the action kept for
    the bot is [a], no counter moves and nothing is drawn from the random
    engine. *)
Theorem a_legal_action_sent_back_is_kept (pl : nat) (c : BotChannel)
    (legal : list Action) (r : Referee) (e : BotErrors) (a : Action) :
  errors_ r !! pl = Some e ->
  total_errors e <= max_invalid_behaviors (settings_ r) ->
  is_time_out c = false ->
  In a legal ->
  - 2 ^ 31 <= a < 2 ^ 31 ->
  a <> kInvalidAction ->
  response c = to_string a ->
  (let* candidate := ParseResponse pl c legal kInvalidAction in
   PickAction legal candidate) r = Ok a r.
Proof.
  intros He Hmax Hto Hin Hrange Hinv Hresp. unfold bind.
  rewrite (ParseResponse_decimal pl c legal r e a He Hto Hresp Hrange).
  assert (Hex : existsb (Z.eqb a) legal = true).
  { apply existsb_exists. exists a. split; [exact Hin | apply Z.eqb_refl]. }
  rewrite Hex. destruct (Z.ltb_spec (max_invalid_behaviors (settings_ r)) (total_errors e));
    [lia|].
  unfold PickAction. destruct (Z.eqb_spec a kInvalidAction); [contradiction|].
  reflexivity.
Qed.

(** X15: a bot over its limit of errors no longer chooses its actions.
    When the total of its counters exceeds [max_invalid_behaviors], the
    parse leaves [kInvalidAction] for the bot whatever it answered, so that
    its action is drawn at random; and its counters do not go down, so this
    holds for the rest of the match. *)
Theorem over_the_limit_the_answer_is_ignored (pl : nat) (c : BotChannel)
    (legal : list Action) (r : Referee) (e : BotErrors) (a : Action) (r' : Referee) :
  errors_ r !! pl = Some e ->
  max_invalid_behaviors (settings_ r) < total_errors e ->
  ParseResponse pl c legal kInvalidAction r = Ok a r' ->
  a = kInvalidAction
  /\ settings_ r' = settings_ r
  /\ exists e', errors_ r' !! pl = Some e' /\ total_errors e <= total_errors e'.
Proof.
  intros He Hmax H.
  rewrite (ParseResponse_cases pl c legal r e He) in H. cbv zeta in H.
  pose proof (lookup_lt_Some _ _ _ He) as Hpl.
  assert (Hup : forall f, total_errors e <= total_errors (f e) ->
            Ok kInvalidAction (set_errors (<[pl := f e]> (errors_ r)) r) = Ok a r' ->
            a = kInvalidAction /\ settings_ r' = settings_ r
            /\ exists e', errors_ r' !! pl = Some e' /\ total_errors e <= total_errors e').
  { intros f Hf E. inversion E. subst. split_and!; try done.
    exists (f e). simpl. rewrite list_lookup_insert_eq by exact Hpl. done. }
  destruct (is_time_out c); [apply (Hup inc_time_over); [unfold total_errors; simpl; lia | exact H]|].
  destruct (negb (has_read c));
    [apply (Hup inc_protocol_error); [unfold total_errors; simpl; lia | exact H]|].
  destruct (negb (String.eqb _ ""));
    [apply (Hup inc_protocol_error); [unfold total_errors; simpl; lia | exact H]|].
  destruct (negb (existsb (Z.eqb (to_int (strtol (c_str (response c))).1)) legal));
    [apply (Hup inc_illegal_actions); [unfold total_errors; simpl; lia | exact H]|].
  destruct (Z.ltb_spec (max_invalid_behaviors (settings_ r)) (total_errors e)); [|lia].
  inversion H. subst. split_and!; try done. exists e. split; [done | lia].
Qed.

End Answers.

(** ** The counters during a match *)

Section Grow.

Context {G : Game} {RE : RandomEngine}.
Variable bots : nat -> nat -> Outcome.

Lemma counters_le_refl e : counters_le e e.
Proof. unfold counters_le. lia. Qed.

Lemma g_refl r : errors_grow r r.
Proof.
  split; [reflexivity|]. intros pl e e' H1 H2. rewrite H1 in H2. inversion H2.
  apply counters_le_refl.
Qed.

Lemma g_trans r1 r2 r3 : errors_grow r1 r2 -> errors_grow r2 r3 -> errors_grow r1 r3.
Proof.
  intros [L1 H1] [L2 H2]. split; [congruence|].
  intros pl e e3 E1 E3.
  destruct (lookup_lt_is_Some_2 (errors_ r2) pl) as [e2 E2].
  { rewrite L1. now apply lookup_lt_Some in E1. }
  specialize (H1 pl e e2 E1 E2). specialize (H2 pl e2 e3 E2 E3).
  unfold counters_le in *. lia.
Qed.

Lemma g_same r r' : errors_ r' = errors_ r -> errors_grow r r'.
Proof.
  intros E. split; [now rewrite E|]. intros pl e e' H1 H2. rewrite E, H1 in H2.
  inversion H2. apply counters_le_refl.
Qed.

Lemma g_ret {A} (a : A) : keeps errors_grow (ret a).
Proof. apply keeps_ret, g_refl. Qed.

Lemma g_fatal {A} msg : keeps errors_grow (@fatal _ A msg).
Proof. apply keeps_fatal. Qed.

Lemma g_gets {A} (f : Referee -> A) : keeps errors_grow (gets f).
Proof. apply keeps_gets, g_refl. Qed.

Lemma g_bind {A B} (m : M A) (f : A -> M B) :
  keeps errors_grow m -> (forall a, keeps errors_grow (f a)) -> keeps errors_grow (bind m f).
Proof. apply keeps_bind, g_trans. Qed.

Lemma g_for_each pls body :
  (forall pl, keeps errors_grow (body pl)) -> keeps errors_grow (for_each pls body).
Proof. apply keeps_for_each; [apply g_refl | apply g_trans]. Qed.

Lemma g_at_index {A} what (v : list A) i : keeps errors_grow (at_index what v i).
Proof. apply keeps_at_index, g_refl. Qed.

Lemma g_channel_at pl : keeps errors_grow (channel_at pl).
Proof. apply keeps_channel_at, g_refl. Qed.

Lemma g_get_channel a : keeps errors_grow (get_channel a).
Proof. apply keeps_get_channel, g_refl. Qed.

Lemma g_errors_at pl : keeps errors_grow (errors_at pl).
Proof. apply keeps_errors_at, g_refl. Qed.

Lemma g_modify f : (forall r, errors_ (f r) = errors_ r) -> keeps errors_grow (modify f).
Proof. intros Hf. apply keeps_modify. intros r. apply g_same, Hf. Qed.

Lemma g_update_channel a f : keeps errors_grow (update_channel a f).
Proof.
  intros r u r' H. unfold update_channel in H.
  destruct (store r !! a); inversion H. now apply g_same.
Qed.

Lemma g_sleep_ms ms : keeps errors_grow (sleep_ms bots ms).
Proof. apply g_modify. reflexivity. Qed.

Lemma g_log l : keeps errors_grow (log l).
Proof. apply g_modify. reflexivity. Qed.

Lemma g_draw {A} (f : Rng -> A * Rng) : keeps errors_grow (draw f).
Proof.
  intros r a r' H. unfold draw in H. destruct (f (rng_ r)). inversion H.
  now apply g_same.
Qed.

Lemma g_update_errors pl f :
  (forall e, counters_le e (f e)) -> keeps errors_grow (update_errors pl f).
Proof.
  intros Hf r u r' H. unfold update_errors in H.
  destruct (errors_ r !! pl) as [e0|] eqn:E0; inversion H. subst. clear H.
  split; [simpl; apply length_insert|].
  intros p e e' H1 H2. simpl in H2.
  destruct (decide (pl = p)) as [->|Hne].
  - rewrite list_lookup_insert_eq in H2 by (now apply lookup_lt_Some in E0).
    inversion H2. rewrite E0 in H1. inversion H1. subst. apply Hf.
  - rewrite list_lookup_insert_ne in H2 by done. rewrite H1 in H2. inversion H2.
    apply counters_le_refl.
Qed.

End Grow.

Create HintDb grow.

#[local] Hint Resolve g_ret g_fatal g_gets g_at_index g_channel_at g_get_channel
  g_errors_at g_update_channel g_sleep_ms g_log g_draw : grow.

(** Goes through a body made of binds, tests and operations known to lower
    no counter. *)
Ltac grow_step :=
  first
    [ solve [eauto with grow]
    | apply g_for_each; intros ?
    | apply g_bind; [| intros ?]
    | apply g_update_errors; intros ?; unfold counters_le; simpl; lia
    | match goal with
      | |- keeps errors_grow (if ?b then _ else _) => destruct b
      | |- keeps errors_grow (match ?x with _ => _ end) => destruct x
      | |- keeps errors_grow (let '(_, _) := ?x in _) => destruct x
      end ].

Ltac grow_tac := repeat grow_step.

Section GrowOperations.

Context {G : Game} {RE : RandomEngine}.
Variable bots : nat -> nat -> Outcome.

Lemma g_write a s : keeps errors_grow (write a s).
Proof. apply g_update_channel. Qed.

Lemma g_StartRead a t : keeps errors_grow (StartRead a t).
Proof. unfold StartRead. grow_tac. Qed.

Lemma g_CancelReadBlocking a : keeps errors_grow (CancelReadBlocking a).
Proof. apply keeps_CancelReadBlocking, g_update_channel. Qed.

Lemma g_CheckResponse e pl : keeps errors_grow (CheckResponse e pl).
Proof. unfold CheckResponse. pose proof g_CancelReadBlocking. grow_tac. Qed.

Lemma g_check_responses e pls : keeps errors_grow (check_responses e pls).
Proof.
  induction pls as [|pl pls IH]; simpl; pose proof g_CheckResponse; grow_tac.
Qed.

Lemma g_CheckResponses e : keeps errors_grow (CheckResponses e).
Proof. unfold CheckResponses. pose proof g_check_responses. grow_tac. Qed.

Lemma g_ParseResponse pl c legal a : keeps errors_grow (ParseResponse pl c legal a).
Proof. unfold ParseResponse. grow_tac. Qed.

Lemma g_PickAction legal a : keeps errors_grow (PickAction legal a).
Proof. unfold PickAction. grow_tac. Qed.

Lemma g_parse_actions state is_acting pls : forall acts,
  keeps errors_grow (parse_actions state is_acting pls acts).
Proof.
  induction pls as [|pl pls IH]; intros acts; simpl;
    pose proof g_ParseResponse; pose proof g_PickAction; grow_tac.
Qed.

Lemma g_apply_actions state acts : keeps errors_grow (apply_actions state acts).
Proof. unfold apply_actions. grow_tac. Qed.

Lemma g_check_ponder is_acting pl : keeps errors_grow (check_ponder is_acting pl).
Proof. unfold check_ponder. grow_tac. Qed.

Lemma g_PlayTurn state order : keeps errors_grow (PlayTurn bots state order).
Proof.
  unfold PlayTurn.
  pose proof g_write. pose proof g_StartRead. pose proof g_check_ponder.
  pose proof g_CancelReadBlocking. pose proof g_parse_actions.
  pose proof g_apply_actions.
  grow_tac.
Qed.

Lemma g_match_loop fuel : forall state order,
  keeps errors_grow (match_loop bots fuel state order).
Proof.
  induction fuel as [|fuel IH]; intros state order; simpl.
  - destruct (IsTerminal state); [apply g_ret | intros r a r' H; discriminate].
  - pose proof g_PlayTurn. grow_tac.
Qed.

Lemma g_PlayMatch fuel : keeps errors_grow (PlayMatch bots fuel).
Proof.
  unfold PlayMatch.
  pose proof g_write. pose proof g_StartRead. pose proof g_CheckResponses.
  pose proof g_match_loop.
  grow_tac.
Qed.

(** X16: during a match the counters of the bots only go up.  When
    [PlayMatch] returns, [errors_] has the entries it had, and no counter of
    any bot is lower than before: nothing in a match forgives an error
    (only [ResetErrorTracking] and the restart of a bot set counters back,
    and both happen between matches). *)
Theorem PlayMatch_lowers_no_counter (fuel : nat) (r : Referee) (state : State)
    (r' : Referee) :
  PlayMatch bots fuel r = Ok state r' ->
  length (errors_ r') = length (errors_ r)
  /\ forall (pl : nat) e e',
       errors_ r !! pl = Some e -> errors_ r' !! pl = Some e' ->
       protocol_error e <= protocol_error e'
       /\ illegal_actions e <= illegal_actions e'
       /\ ponder_error e <= ponder_error e'
       /\ time_over e <= time_over e'.
Proof. intros H. exact (g_PlayMatch fuel _ _ _ H). Qed.

End GrowOperations.

(** ** The states that are recorded *)

Section Recorded.

Context {G : Game} {RE : RandomEngine}.
Variable bots : nat -> nat -> Outcome.

Lemma match_loop_terminal fuel : forall state order r s r',
  match_loop bots fuel state order r = Ok s r' -> IsTerminal s = true.
Proof.
  induction fuel as [|fuel IH]; intros state order r s r' H; simpl in H.
  - destruct (IsTerminal state) eqn:E; [|discriminate]. inversion H. now subst.
  - destruct (IsTerminal state) eqn:E; [inversion H; now subst|].
    apply bind_Ok in H as ([state1 order1] & r1 & _ & H). now apply IH in H.
Qed.

(** The loop of [PlayMatch] is left only at a terminal state. *)
Lemma PlayMatch_terminal fuel r state r' :
  PlayMatch bots fuel r = Ok state r' -> IsTerminal state = true.
Proof.
  intros H. unfold PlayMatch in H.
  apply bind_Ok in H as (n & r0 & _ & H).
  destruct (negb _); [discriminate|].
  apply bind_Ok in H as (st & r1 & _ & H).
  apply bind_Ok in H as (pls & r2 & _ & H).
  apply bind_Ok in H as (? & r3 & _ & H).
  apply bind_Ok in H as (? & r4 & _ & H).
  apply bind_Ok in H as (? & r5 & _ & H).
  apply bind_Ok in H as (state1 & r6 & Hloop & H).
  apply match_loop_terminal in Hloop.
  apply bind_Ok in H as (? & r7 & _ & H).
  apply bind_Ok in H as (? & r8 & _ & H).
  apply bind_Ok in H as (? & r9 & _ & H).
  apply bind_Ok in H as (? & r10 & _ & H).
  apply bind_Ok in H as (? & r11 & _ & H).
  inversion H. now subst.
Qed.

End Recorded.

(** ** What announces a match *)

Section Announce.

Context {G : Game} {RE : RandomEngine}.
Variable bots : nat -> nat -> Outcome.

Lemma n_refl r : no_announcement r r.
Proof. reflexivity. Qed.

Lemma n_trans r1 r2 r3 :
  no_announcement r1 r2 -> no_announcement r2 r3 -> no_announcement r1 r3.
Proof. unfold no_announcement. congruence. Qed.

Lemma n_same r r' : log_ r' = log_ r -> no_announcement r r'.
Proof. unfold no_announcement. now intros ->. Qed.

Lemma n_ret {A} (a : A) : keeps no_announcement (ret a).
Proof. apply keeps_ret, n_refl. Qed.

Lemma n_fatal {A} msg : keeps no_announcement (@fatal _ A msg).
Proof. apply keeps_fatal. Qed.

Lemma n_gets {A} (f : Referee -> A) : keeps no_announcement (gets f).
Proof. apply keeps_gets, n_refl. Qed.

Lemma n_bind {A B} (m : M A) (f : A -> M B) :
  keeps no_announcement m -> (forall a, keeps no_announcement (f a)) ->
  keeps no_announcement (bind m f).
Proof. apply keeps_bind, n_trans. Qed.

Lemma n_for_each pls body :
  (forall pl, keeps no_announcement (body pl)) -> keeps no_announcement (for_each pls body).
Proof. apply keeps_for_each; [apply n_refl | apply n_trans]. Qed.

Lemma n_for_players body :
  (forall pl, keeps no_announcement (body pl)) -> keeps no_announcement (for_players body).
Proof.
  intros Hb. unfold for_players. apply n_bind; [apply n_gets|].
  intros pls. now apply n_for_each.
Qed.

Lemma n_at_index {A} what (v : list A) i : keeps no_announcement (at_index what v i).
Proof. apply keeps_at_index, n_refl. Qed.

Lemma n_channel_at pl : keeps no_announcement (channel_at pl).
Proof. apply keeps_channel_at, n_refl. Qed.

Lemma n_get_channel a : keeps no_announcement (get_channel a).
Proof. apply keeps_get_channel, n_refl. Qed.

Lemma n_errors_at pl : keeps no_announcement (errors_at pl).
Proof. apply keeps_errors_at, n_refl. Qed.

Lemma n_executable_at pl : keeps no_announcement (executable_at pl).
Proof. apply keeps_executable_at, n_refl. Qed.

Lemma n_channels_back : keeps no_announcement channels_back.
Proof. apply keeps_channels_back, n_refl. Qed.

Lemma n_join threads pl : keeps no_announcement (join threads pl).
Proof. apply keeps_join, n_refl. Qed.

Lemma n_modify f : (forall r, log_ (f r) = log_ r) -> keeps no_announcement (modify f).
Proof. intros Hf. apply keeps_modify. intros r. apply n_same, Hf. Qed.

Lemma n_update_channel a f : keeps no_announcement (update_channel a f).
Proof.
  intros r u r' H. unfold update_channel in H.
  destruct (store r !! a); inversion H. now apply n_same.
Qed.

Lemma n_update_errors pl f : keeps no_announcement (update_errors pl f).
Proof.
  intros r u r' H. unfold update_errors in H.
  destruct (errors_ r !! pl); inversion H. now apply n_same.
Qed.

Lemma n_sleep_ms ms : keeps no_announcement (sleep_ms bots ms).
Proof. apply n_modify. reflexivity. Qed.

Lemma n_alloc c : keeps no_announcement (alloc c).
Proof. intros r a r' H. inversion H. now apply n_same. Qed.

Lemma n_draw {A} (f : Rng -> A * Rng) : keeps no_announcement (draw f).
Proof.
  intros r a r' H. unfold draw in H. destruct (f (rng_ r)). inversion H.
  now apply n_same.
Qed.

Lemma n_assign_slot get set pl v :
  (forall x r, log_ (set x r) = log_ r) ->
  keeps no_announcement (assign_slot get set pl v).
Proof.
  intros Hs r a r' H. unfold assign_slot in H.
  destruct (decide _); inversion H. apply n_same, Hs.
Qed.

Lemma n_log l : matches_announced [l] = [] -> keeps no_announcement (log l).
Proof.
  intros Hl. apply keeps_modify. intros r. unfold no_announcement, matches_announced in *.
  simpl. rewrite omap_app. unfold omap in Hl. unfold omap at 2. rewrite Hl.
  apply app_nil_r.
Qed.

End Announce.

Create HintDb announce.

#[local] Hint Resolve n_ret n_fatal n_gets n_at_index n_channel_at n_get_channel
  n_errors_at n_executable_at n_channels_back n_join n_update_channel
  n_update_errors n_sleep_ms n_alloc n_draw : announce.

Ltac announce_step :=
  first
    [ solve [eauto with announce]
    | apply n_for_each; intros ?
    | apply n_for_players; intros ?
    | apply n_bind; [| intros ?]
    | apply n_log; reflexivity
    | apply n_modify; intros ?; reflexivity
    | apply n_assign_slot; intros ? ?; reflexivity
    | match goal with
      | |- keeps no_announcement (if ?b then _ else _) => destruct b
      | |- keeps no_announcement (match ?x with _ => _ end) => destruct x
      | |- keeps no_announcement (let '(_, _) := ?x in _) => destruct x
      end ].

Ltac announce_tac := repeat announce_step.

Section AnnounceOperations.

Context {G : Game} {RE : RandomEngine}.
Variable bots : nat -> nat -> Outcome.

Lemma n_write a s : keeps no_announcement (write a s).
Proof. apply n_update_channel. Qed.

Lemma n_StartRead a t : keeps no_announcement (StartRead a t).
Proof. unfold StartRead. announce_tac. Qed.

Lemma n_CancelReadBlocking a : keeps no_announcement (CancelReadBlocking a).
Proof. apply keeps_CancelReadBlocking, n_update_channel. Qed.

Lemma n_send_setup a pl : keeps no_announcement (send_setup a pl).
Proof. unfold send_setup. pose proof n_write. announce_tac. Qed.

Lemma n_spawn_bot pl : keeps no_announcement (spawn_bot pl).
Proof. unfold spawn_bot. announce_tac. Qed.

Lemma n_send_handshake pl : keeps no_announcement (send_handshake pl).
Proof.
  unfold send_handshake. pose proof n_send_setup. pose proof n_StartRead. announce_tac.
Qed.

Lemma n_CheckResponse e pl : keeps no_announcement (CheckResponse e pl).
Proof. unfold CheckResponse. pose proof n_CancelReadBlocking. announce_tac. Qed.

Lemma n_check_responses e pls : keeps no_announcement (check_responses e pls).
Proof.
  induction pls as [|pl pls IH]; simpl; pose proof n_CheckResponse; announce_tac.
Qed.

Lemma n_CheckResponses e : keeps no_announcement (CheckResponses e).
Proof. unfold CheckResponses. pose proof n_check_responses. announce_tac. Qed.

Lemma n_StartPlayers : keeps no_announcement (StartPlayers bots).
Proof.
  unfold StartPlayers.
  pose proof n_spawn_bot. pose proof n_send_handshake. pose proof n_CheckResponses.
  announce_tac.
Qed.

Lemma n_StartPlayer pl : keeps no_announcement (StartPlayer bots pl).
Proof.
  unfold StartPlayer.
  pose proof n_send_handshake. pose proof n_CheckResponse.
  announce_tac.
Qed.

Lemma n_ShutDownPlayer pl : keeps no_announcement (ShutDownPlayer pl).
Proof. unfold ShutDownPlayer. announce_tac. Qed.

Lemma n_RestartPlayer pl : keeps no_announcement (RestartPlayer bots pl).
Proof.
  unfold RestartPlayer. pose proof n_ShutDownPlayer. pose proof n_StartPlayer.
  announce_tac.
Qed.

Lemma n_TournamentOver : keeps no_announcement (TournamentOver bots).
Proof. unfold TournamentOver, for_players. pose proof n_write. announce_tac. Qed.

Lemma n_ResetErrorTracking : keeps no_announcement ResetErrorTracking.
Proof. unfold ResetErrorTracking. announce_tac. Qed.

Lemma n_corrupted_match_due pl : keeps no_announcement (corrupted_match_due pl).
Proof. unfold corrupted_match_due. announce_tac. Qed.

Lemma n_ParseResponse pl c legal a : keeps no_announcement (ParseResponse pl c legal a).
Proof. unfold ParseResponse. announce_tac. Qed.

Lemma n_PickAction legal a : keeps no_announcement (PickAction legal a).
Proof. unfold PickAction. announce_tac. Qed.

Lemma n_parse_actions state is_acting pls : forall acts,
  keeps no_announcement (parse_actions state is_acting pls acts).
Proof.
  induction pls as [|pl pls IH]; intros acts; simpl;
    pose proof n_ParseResponse; pose proof n_PickAction; announce_tac.
Qed.

Lemma n_apply_actions state acts : keeps no_announcement (apply_actions state acts).
Proof. unfold apply_actions. announce_tac. Qed.

Lemma n_check_ponder is_acting pl : keeps no_announcement (check_ponder is_acting pl).
Proof. unfold check_ponder. announce_tac. Qed.

Lemma n_PlayTurn state order : keeps no_announcement (PlayTurn bots state order).
Proof.
  unfold PlayTurn.
  pose proof n_write. pose proof n_StartRead. pose proof n_check_ponder.
  pose proof n_CancelReadBlocking. pose proof n_parse_actions.
  pose proof n_apply_actions.
  announce_tac.
Qed.

Lemma n_match_loop fuel : forall state order,
  keeps no_announcement (match_loop bots fuel state order).
Proof.
  induction fuel as [|fuel IH]; intros state order; simpl.
  - destruct (IsTerminal state); [apply n_ret | intros r a r' H; discriminate].
  - pose proof n_PlayTurn. announce_tac.
Qed.

Lemma n_PlayMatch fuel : keeps no_announcement (PlayMatch bots fuel).
Proof.
  unfold PlayMatch.
  pose proof n_write. pose proof n_StartRead. pose proof n_CheckResponses.
  pose proof n_match_loop.
  announce_tac.
Qed.

Lemma n_PrintVerbose results : keeps no_announcement (PrintVerbose results).
Proof. unfold PrintVerbose. announce_tac. Qed.

Lemma n_disqualification_update pls match_ thr : forall results,
  keeps no_announcement (disqualification_update bots pls match_ thr results).
Proof.
  induction pls as [|pl pls IH]; intros results; simpl;
    pose proof n_corrupted_match_due; pose proof n_TournamentOver;
    pose proof n_RestartPlayer; announce_tac.
Qed.

End AnnounceOperations.

(** ** The record of a tournament *)

Section Record.

Context {G : Game} {RE : RandomEngine}.
Variable bots : nat -> nat -> Outcome.

Lemma flag_insert_eq (v : list bool) pl x :
  (pl < length v)%nat -> flag (<[pl := x]> v) pl = x.
Proof.
  intros H. unfold flag. apply nth_lookup_Some with (d := false).
  now apply list_lookup_insert_eq.
Qed.

Lemma flag_insert_ne (v : list bool) pl pl' x :
  pl <> pl' -> flag (<[pl := x]> v) pl' = flag v pl'.
Proof.
  intros H. unfold flag. rewrite !nth_lookup. now rewrite list_lookup_insert_ne.
Qed.

Lemma flag_standing (v : list bool) pl :
  Forall (fun b => b = false) v -> flag v pl = false.
Proof.
  intros H. unfold flag. rewrite nth_lookup.
  destruct (v !! pl) as [b|] eqn:E; [|reflexivity].
  rewrite Forall_lookup in H. exact (H _ _ E).
Qed.

Lemma existsb_standing (v : list bool) :
  Forall (fun b => b = false) v -> existsb id v = false.
Proof. induction 1 as [|b v -> _ IH]; [reflexivity | exact IH]. Qed.

Lemma existsb_marked (v : list bool) pl :
  (pl < length v)%nat -> existsb id (<[pl := true]> v) = true.
Proof.
  intros H. apply existsb_exists. exists true. split; [|reflexivity].
  apply list_elem_of_In. eapply list_elem_of_lookup_2.
  now apply list_lookup_insert_eq.
Qed.

Lemma check_start_fields pls start_ok num_matches : forall all_ok results,
  let out := check_start pls start_ok num_matches all_ok results in
  history_len_mean out.2 = history_len_mean results
  /\ restarts out.2 = restarts results
  /\ (out.1 = true -> out.2 = results).
Proof.
  induction pls as [|p pls IH]; intros all_ok results; simpl; [done|].
  destruct (IH (all_ok && nth p start_ok false)
              (if negb (nth p start_ok false)
               then set_corrupted_matches
                      (<[p := num_matches]> (corrupted_matches results)) results
               else results)) as (E1 & E2 & E3).
  rewrite E1, E2. split_and!; [now destruct (negb _) | now destruct (negb _) |].
  intros Hok. rewrite (E3 Hok).
  pose proof (check_start_spec start_ok num_matches pls
                (all_ok && nth p start_ok false)
                (if negb (nth p start_ok false)
                 then set_corrupted_matches
                        (<[p := num_matches]> (corrupted_matches results)) results
                 else results)) as (A1 & _).
  cbv zeta in A1. rewrite Hok in A1. symmetry in A1.
  apply andb_true_iff in A1 as [A1 _]. apply andb_true_iff in A1 as [_ A1].
  now rewrite A1.
Qed.

(** The loop of lines 549 to 565 keeps the accounts of the bots. *)
Lemma disqualification_update_tally pls match_ thr n :
  forall res r returned res' r',
  disqualification_update bots pls match_ thr res r = Ok (returned, res') r' ->
  (forall pl, pl ∈ pls -> (pl < n)%nat) ->
  standing thr n res ->
  matches res' = matches res
  /\ history_len_mean res' = history_len_mean res
  /\ (forall pl, (pl < n)%nat -> bot_tally thr res' pl)
  /\ if returned then existsb id (disqualified res') = true else standing thr n res'.
Proof.
  induction pls as [|pl pls IH]; intros res r returned res' r' H Hpls Hst; simpl in H.
  - inversion H. subst. destruct Hst as (L1 & L2 & L3 & Hf & Ht). done.
  - assert (Hpl : (pl < n)%nat) by (apply Hpls, elem_of_cons; by left).
    assert (Hrest : forall p, p ∈ pls -> (p < n)%nat)
      by (intros p Hp; apply Hpls, elem_of_cons; by right).
    apply bind_Ok in H as (due & r1 & _ & H). destruct (negb due).
    + now apply IH in H.
    + apply bind_Ok in H as (? & r2 & _ & H).
      destruct Hst as (L1 & L2 & L3 & Hf & Ht).
      cbn [corrupted_matches set_corrupted_matches] in H.
      rewrite zat_insert_eq in H by lia.
      destruct (Ht pl Hpl) as (T1 & T2 & T3).
      rewrite (flag_standing _ pl Hf) in T1.
      destruct (Z.ltb_spec thr (zat (corrupted_matches res) pl + 1)) as [Hover|Hin].
      * apply bind_Ok in H as (? & r3 & _ & H).
        apply bind_Ok in H as (? & r4 & _ & H). inversion H. subst. clear H.
        cbn [matches history_len_mean set_disqualified set_corrupted_matches disqualified].
        split_and!; [done | done | | apply existsb_marked; lia].
        intros p Hp. unfold bot_tally.
        cbn [corrupted_matches restarts disqualified set_disqualified set_corrupted_matches].
        destruct (decide (pl = p)) as [<-|Hne].
        -- rewrite zat_insert_eq, flag_insert_eq by lia. split_and!; [lia | exact T2 | lia].
        -- rewrite zat_insert_ne, flag_insert_ne by done. exact (Ht p Hp).
      * apply bind_Ok in H as (? & r3 & _ & H).
        apply bind_Ok in H as (? & r4 & _ & H).
        apply IH in H; [| exact Hrest |].
        -- exact H.
        -- unfold standing.
           cbn [corrupted_matches restarts disqualified set_restarts set_corrupted_matches].
           rewrite !length_insert. split_and!; try done.
           intros p Hp. unfold bot_tally.
           cbn [corrupted_matches restarts disqualified set_restarts set_corrupted_matches].
           destruct (decide (pl = p)) as [<-|Hne].
           ++ rewrite !zat_insert_eq by lia. rewrite (flag_standing _ pl Hf).
              split_and!; [lia | right; lia | discriminate].
           ++ rewrite !zat_insert_ne by done. exact (Ht p Hp).
Qed.

Lemma announced_app (l1 l2 : list LogLine) :
  matches_announced (l1 ++ l2) = (matches_announced l1 ++ matches_announced l2)%list.
Proof. unfold matches_announced. apply omap_app. Qed.

(** The loop over the matches, with the states of the matches played. *)
Lemma tournament_loop_record fuel nm thr : forall m k res r res' r',
  tournament_loop bots fuel nm thr (seq k m) res r = Ok res' r' ->
  standing thr (num_bots r) res ->
  length (matches res) = k ->
  (history_len_mean res == mean (map history_len (map terminal (matches res))))%Q ->
  exists states : list State,
    (length states <= m)%nat
    /\ Forall (fun s => IsTerminal s = true) states
    /\ matches_announced (log_ r')
       = (matches_announced (log_ r)
          ++ map (fun i => Z.of_nat i + 1) (seq k (length states)))%list
    /\ (history_len_mean res'
        == mean (map history_len (map terminal (matches res) ++ states)))%Q
    /\ (forall pl, (pl < num_bots r)%nat -> bot_tally thr res' pl)
    /\ if existsb id (disqualified res')
       then exists init last,
              states = (init ++ [last])%list
              /\ map terminal (matches res') = (map terminal (matches res) ++ init)%list
       else map terminal (matches res') = (map terminal (matches res) ++ states)%list
            /\ length states = m.
Proof.
  induction m as [|m IH]; intros k res r res' r' H Hst Hk Hmean.
  - simpl in H.
    apply bind_Ok in H as ([] & r1 & H1 & H). apply (n_log LogTournamentIsOver) in H1;
      [|reflexivity].
    apply bind_Ok in H as ([] & r2 & H2 & H). apply n_PrintVerbose in H2.
    apply bind_Ok in H as ([] & r3 & H3 & H). apply n_TournamentOver in H3.
    inversion H. subst. clear H.
    exists []. destruct Hst as (L1 & L2 & L3 & Hf & Ht).
    rewrite (existsb_standing _ Hf). cbn [length seq map]. rewrite !app_nil_r.
    split_and!; try done. unfold no_announcement in *. congruence.
  - cbn [seq tournament_loop] in H.
    apply bind_Ok in H as ([] & r1 & H1 & H). inversion H1. subst r1. clear H1.
    apply bind_Ok in H as ([] & r2 & H2 & H).
    pose proof (q_ResetErrorTracking _ _ _ H2) as (E2 & _).
    apply n_ResetErrorTracking in H2. cbn [log_ set_log executables_] in H2, E2.
    unfold no_announcement in H2. cbn [log_ set_log] in H2.
    rewrite announced_app in H2.
    apply bind_Ok in H as (state & r3 & HPM & H).
    pose proof (PlayMatch_log _ _ _ _ _ HPM) as (E3 & _).
    pose proof (PlayMatch_terminal _ _ _ _ _ HPM) as Hterm.
    apply n_PlayMatch in HPM. unfold no_announcement in HPM.
    apply bind_Ok in H as (pls & r4 & Hp & H). inversion Hp. subst pls r4. clear Hp.
    apply bind_Ok in H as (res1 & r5 & Hs & H).
    apply update_statistics_fields in Hs as (-> & M1 & H1 & C1 & R1 & D1).
    cbn [matches history_len_mean corrupted_matches restarts disqualified
         update_history_len set_history_len_mean] in M1, H1, C1, R1, D1.
    assert (Hn3 : num_bots r3 = num_bots r) by (unfold num_bots; congruence).
    assert (Hst1 : standing thr (num_bots r) res1).
    { destruct Hst as (L1 & L2 & L3 & Hf & Ht). unfold standing, bot_tally.
      rewrite C1, R1, D1. done. }
    assert (W1 : (history_len_mean res1
                  == mean (map history_len (map terminal (matches res))
                           ++ [history_len state]))%Q).
    { rewrite H1.
      assert (W : welford (map history_len (map terminal (matches res)))
                    (history_len_mean res)
                    (sqdev (history_len_mean res)
                       (map history_len (map terminal (matches res))))).
      { split; [exact Hmean | reflexivity]. }
      pose proof (welford_step _ _ _ (history_len state) W) as [W' _].
      rewrite !length_map, Hk in W'. exact W'. }
    apply bind_Ok in H as ([returned res2] & r6 & Hdq & H).
    pose proof (q_disqualification_update bots _ _ _ _ _ _ _ Hdq) as (E6 & _).
    pose proof (n_disqualification_update bots _ _ _ _ _ _ _ Hdq) as N6.
    unfold no_announcement in N6.
    apply (disqualification_update_tally _ _ _ (num_bots r)) in Hdq
      as (M2 & H2' & T2 & Hret); [| | exact Hst1].
    2: { intros pl Hpl. unfold players in Hpl. apply elem_of_seq in Hpl. lia. }
    destruct returned.
    + inversion H. subst. clear H. exists [state].
      rewrite Hret, H2', M2, M1.
      split_and!.
      * simpl. lia.
      * now constructor.
      * rewrite N6, HPM, H2. reflexivity.
      * rewrite map_app. exact W1.
      * exact T2.
      * exists [], state. split; [reflexivity | now rewrite app_nil_r].
    + apply bind_Ok in H as (errs & r7 & He & H). inversion He. subst errs r7. clear He.
      apply (IH (S k)) in H as (states & Hlen & Hall & Hann & Hm & Ht & Hrec).
      * exists (state :: states).
        cbn [matches push_match] in Hm, Hrec.
        rewrite M2, M1, (map_app terminal) in Hm, Hrec. cbn [map terminal] in Hm, Hrec.
        rewrite <- app_assoc in Hm, Hrec. cbn [app] in Hm.
        split_and!.
        -- simpl. lia.
        -- now constructor.
        -- rewrite Hann, N6, HPM, H2. cbn [length seq map].
           now rewrite <- app_assoc.
        -- exact Hm.
        -- intros pl Hpl. apply Ht. unfold num_bots in *. congruence.
        -- destruct (existsb id (disqualified res')).
           ++ destruct Hrec as (init & last & -> & Hrec).
              exists (state :: init), last. split; [reflexivity|].
              rewrite Hrec. now rewrite <- app_assoc.
           ++ destruct Hrec as [Hrec Hl]. split; [|simpl; lia].
              rewrite Hrec. reflexivity.
      * assert (Hn6 : num_bots r6 = num_bots r) by (unfold num_bots in *; congruence).
        rewrite Hn6. destruct Hret as (L1 & L2 & L3 & Hf & Ht). done.
      * cbn [matches push_match]. rewrite length_app, M2, M1. simpl. lia.
      * cbn [matches push_match history_len_mean]. rewrite H2', M2, M1.
        rewrite !map_app. exact W1.
Qed.

Lemma zat_replicate n pl : zat (replicate n 0) pl = 0.
Proof.
  unfold zat. revert pl. induction n as [|n IH]; intros [|pl]; simpl; auto.
Qed.

Lemma standing_new thr n : standing thr n (NewTournamentResults n).
Proof.
  unfold standing, NewTournamentResults. simpl. rewrite !length_replicate.
  split_and!; try done.
  - now apply Forall_replicate.
  - intros pl Hpl. unfold bot_tally. simpl.
    rewrite !zat_replicate, (flag_standing _ pl) by (now apply Forall_replicate).
    split_and!; [done | now left | discriminate].
Qed.

(** The two ways of [PlayTournament]: the start fails and it returns at
    once, or every bot answered "ready" and the loop over the matches
    runs. *)
Lemma PlayTournament_cases fuel nm r results r' :
  PlayTournament bots fuel nm r = Ok results r' ->
  exists (start_ok : list bool) r1,
    StartPlayers bots r = Ok start_ok r1
    /\ ((exists pl, (pl < num_bots r)%nat /\ nth pl start_ok false = false)
        /\ results = (check_start (players r1) start_ok nm true
                        (NewTournamentResults (num_bots r))).2
        /\ r' = set_log (log_ r1 ++ [LogCouldNotStart]) r1
        \/ (forall pl, (pl < num_bots r)%nat -> nth pl start_ok false = true)
           /\ exists thr,
                corruption_threshold_of nm (disqualification_rate (settings_ r))
                = Some thr
                /\ tournament_loop bots fuel nm thr
                     (seq 0 (Z.to_nat nm)) (NewTournamentResults (num_bots r)) r1
                   = Ok results r').
Proof.
  intros H. unfold PlayTournament in H.
  apply bind_Ok in H as (n & rn & Hn & H). inversion Hn. subst n rn. clear Hn.
  apply bind_Ok in H as (start_ok & r1 & HSP & H).
  pose proof (q_StartPlayers bots _ _ _ HSP) as (E1 & S1 & _).
  assert (Hn1 : num_bots r1 = num_bots r) by (unfold num_bots; congruence).
  apply bind_Ok in H as (pls & rp & Hp & H). inversion Hp. subst pls rp. clear Hp.
  exists start_ok, r1. split; [exact HSP|].
  pose proof (check_start_spec start_ok nm (players r1) true
                (NewTournamentResults (num_bots r))) as (A1 & _).
  pose proof (check_start_fields (players r1) start_ok nm true
                (NewTournamentResults (num_bots r))) as (_ & _ & A2).
  cbv zeta in A1, A2.
  destruct (check_start _ _ _ _ _) as [all_ok results0]. cbn [fst snd] in *.
  rewrite andb_true_l in A1. destruct all_ok; cbn [negb] in H.
  - right. symmetry in A1. rewrite forallb_forall in A1.
    split.
    + intros pl Hpl. apply A1. unfold players. apply in_seq. lia.
    + apply bind_Ok in H as (rate & rr & Hr & H). inversion Hr. subst rate rr. clear Hr.
      rewrite (A2 eq_refl) in H. rewrite S1 in H.
      destruct (corruption_threshold_of _ _) as [thr|]; [|discriminate]. eauto.
  - left. apply bind_Ok in H as ([] & r2 & Hl & H). inversion H. subst. clear H.
    inversion Hl. subst. clear Hl. split_and!; try done.
    assert (Hex : exists pl, In pl (players r1) /\ nth pl start_ok false = false).
    { symmetry in A1. clear -A1. induction (players r1) as [|p l IH]; simpl in A1; [congruence|].
      destruct (nth p start_ok false) eqn:E.
      - destruct IH as (pl & Hin & Hpl); [exact A1|]. exists pl. split; [now right | done].
      - exists p. split; [now left | done]. }
    destruct Hex as (pl & Hin & Hpl). exists pl. split; [|exact Hpl].
    unfold players in Hin. apply in_seq in Hin. lia.
Qed.

(** The record of a run of [PlayTournament] that returns: the terminal
    states of the matches that were played, in their order. *)
Lemma PlayTournament_record fuel nm r results r' :
  PlayTournament bots fuel nm r = Ok results r' ->
  exists states : list State,
    (length states <= Z.to_nat nm)%nat
    /\ Forall (fun s => IsTerminal s = true) states
    /\ matches_announced (log_ r')
       = (matches_announced (log_ r)
          ++ map (fun i => Z.of_nat i + 1) (seq 0 (length states)))%list
    /\ (history_len_mean results == mean (map history_len states))%Q
    /\ if existsb id (disqualified results)
       then exists init last,
              states = (init ++ [last])%list /\ map terminal (matches results) = init
       else map terminal (matches results) = states.
Proof.
  intros H. apply PlayTournament_cases in H as (start_ok & r1 & HSP & [Hfail|Hrun]).
  - destruct Hfail as (_ & -> & ->). exists [].
    pose proof (check_start_spec start_ok nm (players r1) true
                  (NewTournamentResults (num_bots r))) as (_ & A2 & _).
    pose proof (check_start_fields (players r1) start_ok nm true
                  (NewTournamentResults (num_bots r))) as (A3 & _).
    pose proof (check_start_disqualified (players r1) start_ok nm true
                  (NewTournamentResults (num_bots r))) as A4.
    cbv zeta in A2, A3. rewrite A2, A3, A4. cbn [length seq map].
    rewrite existsb_standing by (now apply Forall_replicate).
    apply n_StartPlayers in HSP. unfold no_announcement in HSP.
    split_and!.
    + lia.
    + constructor.
    + cbn [log_ set_log]. rewrite announced_app, HSP. reflexivity.
    + reflexivity.
    + reflexivity.
  - destruct Hrun as (_ & thr & Ethr & Hloop).
    pose proof (q_StartPlayers bots _ _ _ HSP) as (E1 & _).
    apply n_StartPlayers in HSP. unfold no_announcement in HSP.
    apply tournament_loop_record in Hloop
      as (states & Hlen & Hall & Hann & Hm & _ & Hrec).
    + exists states. cbn [matches NewTournamentResults map app] in Hm, Hrec.
      split_and!; try done; [now rewrite Hann, HSP|].
      destruct (existsb id (disqualified results)); [exact Hrec | apply Hrec].
    + assert (Hn1 : num_bots r1 = num_bots r) by (unfold num_bots; congruence).
      rewrite Hn1. apply standing_new.
    + reflexivity.
    + reflexivity.
Qed.

(** X17: every recorded match ended.  The state kept in a [MatchResult] of
    the results is terminal: [PlayMatch] leaves its loop only at a terminal
    state, and only states that [PlayMatch] returned are recorded. *)
Theorem recorded_matches_are_terminal (fuel : nat) (num_matches : Z)
    (r : Referee) (results : TournamentResults) (r' : Referee) :
  PlayTournament bots fuel num_matches r = Ok results r' ->
  Forall (fun m => IsTerminal (terminal m) = true) (matches results).
Proof.
  intros H. apply PlayTournament_record in H as (states & _ & Hall & _ & _ & Hrec).
  assert (Ht : Forall (fun s => IsTerminal s = true) (map terminal (matches results))).
  { destruct (existsb id (disqualified results)).
    - destruct Hrec as (init & last & -> & ->). now apply Forall_app in Hall as [Hall _].
    - now rewrite Hrec. }
  clear -Ht. induction (matches results) as [|m l IH]; [constructor|].
  inversion Ht. subst. constructor; [assumption | now apply IH].
Qed.

(** X18: every match that was played is recorded, except the one that ends
    in a disqualification.  In a run of [PlayTournament] that returns, the
    matches announced in the log are 1, 2, ..., [played], at most
    [num_matches] of them; [matches] holds [played] entries when no bot is
    disqualified, and [played - 1] when one is. *)
Theorem all_matches_but_the_disqualifying_one_are_recorded (fuel : nat)
    (num_matches : Z) (r : Referee) (results : TournamentResults) (r' : Referee) :
  PlayTournament bots fuel num_matches r = Ok results r' ->
  exists played : nat,
    matches_announced (log_ r')
    = (matches_announced (log_ r) ++ map (fun i => Z.of_nat i + 1) (seq 0 played))%list
    /\ (played <= Z.to_nat num_matches)%nat
    /\ (length (matches results)
        + (if existsb id (disqualified results) then 1 else 0))%nat = played.
Proof.
  intros H. apply PlayTournament_record in H as (states & Hlen & _ & Hann & _ & Hrec).
  exists (length states). split_and!; [exact Hann | exact Hlen |].
  destruct (existsb id (disqualified results)).
  - destruct Hrec as (init & last & -> & Hrec).
    rewrite <- (length_map terminal), Hrec, length_app. reflexivity.
  - rewrite <- (length_map terminal), Hrec. lia.
Qed.

(** X19: [history_len_mean] is the mean length of the histories of the
    matches played: of the recorded matches when no bot is disqualified,
    and of the recorded matches and the match of the disqualification when
    one is. *)
Theorem history_len_mean_is_the_mean (fuel : nat) (num_matches : Z)
    (r : Referee) (results : TournamentResults) (r' : Referee) :
  PlayTournament bots fuel num_matches r = Ok results r' ->
  exists last_played : list State,
    length last_played = (if existsb id (disqualified results) then 1 else 0)%nat
    /\ (history_len_mean results
        == mean (map history_len (map terminal (matches results) ++ last_played)))%Q.
Proof.
  intros H. apply PlayTournament_record in H as (states & _ & _ & _ & Hm & Hrec).
  destruct (existsb id (disqualified results)).
  - destruct Hrec as (init & last & -> & ->). exists [last]. done.
  - exists []. rewrite app_nil_r, Hrec. done.
Qed.

Lemma PlayTournament_tally fuel nm r start_ok r1 results r' :
  StartPlayers bots r = Ok start_ok r1 ->
  Forall (fun ok => ok = true) start_ok ->
  PlayTournament bots fuel nm r = Ok results r' ->
  exists thr,
    corruption_threshold_of nm (disqualification_rate (settings_ r)) = Some thr
    /\ forall pl, (pl < num_bots r)%nat -> bot_tally thr results pl.
Proof.
  intros HSP Hok H.
  apply PlayTournament_cases in H as (start_ok' & r1' & HSP' & [Hfail|Hrun]).
  - rewrite HSP in HSP'. inversion HSP'. subst start_ok' r1'. clear HSP'.
    destruct Hfail as ((bad & Hbad & Hnth) & _).
    pose proof (StartPlayers_length _ _ _ _ HSP) as Hlen.
    destruct (lookup_lt_is_Some_2 start_ok bad) as [b Hb]; [lia|].
    rewrite (nth_lookup_Some _ _ _ _ Hb) in Hnth. subst b.
    rewrite Forall_lookup in Hok. now apply Hok in Hb.
  - rewrite HSP in HSP'. inversion HSP'. subst start_ok' r1'. clear HSP'.
    destruct Hrun as (_ & thr & Ethr & Hloop).
    pose proof (q_StartPlayers bots _ _ _ HSP) as (E1 & _).
    assert (Hn1 : num_bots r1 = num_bots r) by (unfold num_bots; congruence).
    exists thr. split; [exact Ethr|]. intros pl Hpl.
    apply tournament_loop_record in Hloop as (states & _ & _ & _ & _ & Ht & _).
    + apply Ht. lia.
    + rewrite Hn1. apply standing_new.
    + reflexivity.
    + reflexivity.
Qed.

(** X20: the account of corrupted matches.  In a tournament whose start
    succeeded, every corrupted match of a bot was followed by its restart,
    except the one that disqualified it: [corrupted_matches[pl]] is
    [restarts[pl]], plus one if the bot is disqualified. *)
Theorem corrupted_matches_are_restarts_and_a_disqualification (fuel : nat)
    (num_matches : Z) (r : Referee) (start_ok : list bool) (r1 : Referee)
    (results : TournamentResults) (r' : Referee) :
  StartPlayers bots r = Ok start_ok r1 ->
  Forall (fun ok => ok = true) start_ok ->
  PlayTournament bots fuel num_matches r = Ok results r' ->
  forall pl : nat, (pl < num_bots r)%nat ->
    zat (corrupted_matches results) pl
    = zat (restarts results) pl + (if flag (disqualified results) pl then 1 else 0).
Proof.
  intros HSP Hok H pl Hpl.
  destruct (PlayTournament_tally _ _ _ _ _ _ _ HSP Hok H) as (thr & _ & Ht).
  exact (proj1 (Ht pl Hpl)).
Qed.

(** X21: the corruption threshold decides.  In a tournament whose start
    succeeded the threshold is defined: it is the integer part of the
    product [num_matches * disqualification_rate] as the machine computes
    it, the double nearest to the exact product.  A disqualified bot has
    more corrupted matches than the threshold, a bot that is not
    disqualified has none or at most [threshold], and no bot was restarted
    more than [threshold] times. *)
Theorem the_threshold_decides_the_disqualification (fuel : nat)
    (num_matches : Z) (r : Referee) (start_ok : list bool) (r1 : Referee)
    (results : TournamentResults) (r' : Referee) :
  StartPlayers bots r = Ok start_ok r1 ->
  Forall (fun ok => ok = true) start_ok ->
  PlayTournament bots fuel num_matches r = Ok results r' ->
  exists threshold : Z,
    corruption_threshold_of num_matches (disqualification_rate (settings_ r))
    = Some threshold
    /\ threshold
       = Qtruncate (round_double
                      (inject_Z num_matches * disqualification_rate (settings_ r)))
    /\ forall pl : nat, (pl < num_bots r)%nat ->
         (flag (disqualified results) pl = true ->
          threshold < zat (corrupted_matches results) pl)
         /\ (flag (disqualified results) pl = false ->
             zat (corrupted_matches results) pl = 0
             \/ zat (corrupted_matches results) pl <= threshold)
         /\ (zat (restarts results) pl = 0 \/ zat (restarts results) pl <= threshold).
Proof.
  intros HSP Hok H.
  destruct (PlayTournament_tally _ _ _ _ _ _ _ HSP Hok H) as (threshold & Ethr & Ht).
  exists threshold. split; [exact Ethr|]. split.
  { unfold corruption_threshold_of in Ethr.
    destruct (_ && _); [now inversion Ethr | discriminate]. }
  intros pl Hpl. destruct (Ht pl Hpl) as (T1 & T2 & T3).
  split_and!; [exact T3 | | exact T2].
  intros Hf. rewrite Hf in T1. destruct T2; [left | right]; lia.
Qed.

End Record.

(** ** The start of the players *)

Section Start.

Context {G : Game} {RE : RandomEngine}.
Variable bots : nat -> nat -> Outcome.

Lemma w_check_responses e pls : keeps same_wiring (check_responses e pls).
Proof.
  induction pls as [|p l IH]; simpl.
  - apply keeps_ret, w_refl.
  - apply keeps_bind; [apply w_trans | apply w_CheckResponse | intros ok].
    apply keeps_bind; [apply w_trans | exact IH | intros oks'].
    apply keeps_ret, w_refl.
Qed.

(** [StartPlayers] on a referee that has started nothing, up to the end of
    the sleep of the handshake: bot [pl] has the channel at address [pl],
    with both its readers on it; the channel was greeted, and its read
    cycle has gone as the script says.  What is left is to check the
    responses. *)
Lemma StartPlayers_fresh_sleep r :
  fresh r ->
  NumPlayers = num_bots r ->
  exists r3,
    StartPlayers bots r = check_responses kReadyMessage (seq 0 (num_bots r)) r3
    /\ channels_ r3 = Some <$> seq 0 (num_bots r)
    /\ threads_stdout_ r3 = Some <$> seq 0 (num_bots r)
    /\ threads_stderr_ r3 = Some <$> seq 0 (num_bots r)
    /\ errors_ r3 = replicate (num_bots r) Reset
    /\ length (store r3) = num_bots r
    /\ forall pl : nat, (pl < num_bots r)%nat ->
         exists e,
           executables_ r !! pl = Some e
           /\ store r3 !! pl
              = Some (commit_outcome (bots (clock r) pl)
                        (greeted r pl (MakeBotChannel pl e))).
Proof.
  intros Hfresh Hn. set (n := num_bots r).
  assert (Hspawn : for_players spawn_bot r = Ok tt (spawned r n)).
  { pose proof (spawn_loop r n 0) as Hloop.
    rewrite (fresh_spawned r Hfresh) in Hloop.
    unfold for_players. rewrite (bind_run (gets players) _ r _ r eq_refl).
    apply Hloop. unfold n, num_bots. lia. }
  set (r1 := spawned r n) in *.
  assert (Hch1 : channels_ r1 = Some <$> seq 0 n) by reflexivity.
  assert (Hth1 : threads_stdout_ r1 = Some <$> seq 0 n) by reflexivity.
  assert (Hst1 : forall pl, (pl < n)%nat ->
            exists e, executables_ r !! pl = Some e
                      /\ store r1 !! pl = Some (MakeBotChannel pl e)).
  { intros pl Hpl. destruct (lookup_lt_is_Some_2 (executables_ r) pl) as [e He];
      [exact Hpl|].
    exists e. split; [exact He|].
    unfold r1, spawned. simpl. rewrite take_ge by (unfold n, num_bots; lia).
    rewrite list_lookup_imap, He. reflexivity. }
  destruct (handshake_loop (seq 0 n) r1) as (sto & Hgreet & Hlen & Hsto).
  { apply NoDup_seq. }
  { intros pl Hpl. apply elem_of_seq in Hpl.
    split; [rewrite Hch1, list_lookup_fmap, lookup_seq_lt by lia; reflexivity|].
    destruct (Hst1 pl) as (e & _ & He); [lia|]. eauto. }
  assert (Hgreet' : for_players send_handshake r1 = Ok tt (set_store sto r1)).
  { unfold for_players, bind, gets. exact Hgreet. }
  assert (Hlen1 : length (store r1) = n).
  { unfold r1, spawned. simpl. rewrite length_imap, length_take. unfold n, num_bots. lia. }
  set (r2 := set_store sto r1) in *.
  pose (r3 := set_clock (S (clock r2))
            (set_store
               (imap (fun a c =>
                        if reading r2 a c
                        then commit_outcome (bots (clock r2) (bot_index_ c)) c
                        else c) (store r2)) r2)).
  assert (Hsleep : sleep_ms bots (timeout_ready (settings_ r2)) r2 = Ok tt r3)
    by reflexivity.
  assert (Er3 : r3 = set_clock (S (clock r2))
            (set_store
               (imap (fun a c =>
                        if reading r2 a c
                        then commit_outcome (bots (clock r2) (bot_index_ c)) c
                        else c) (store r2)) r2)) by reflexivity.
  clearbody r3.
  exists r3. split_and!.
  - unfold StartPlayers.
    rewrite (bind_run (gets num_bots) _ r (num_bots r) r eq_refl).
    rewrite Hn, Nat.eqb_refl. cbn [negb].
    rewrite (bind_run _ _ _ _ _ Hspawn), (bind_run _ _ _ _ _ Hgreet').
    rewrite (bind_run (gets _) _ r2 _ r2 eq_refl).
    rewrite (bind_run _ _ _ _ _ Hsleep).
    unfold CheckResponses.
    rewrite (bind_run (gets players) _ r3 _ r3 eq_refl).
    replace (players r3) with (seq 0 n) by (rewrite Er3; reflexivity).
    reflexivity.
  - rewrite Er3. reflexivity.
  - rewrite Er3. reflexivity.
  - rewrite Er3. reflexivity.
  - rewrite Er3. reflexivity.
  - rewrite Er3. cbn [store set_store set_clock]. rewrite length_imap.
    unfold r2. cbn [store set_store]. congruence.
  - intros pl Hpl. destruct (Hst1 pl Hpl) as (e & Hexe & He).
    pose proof (Hsto pl _ He) as Hs.
    rewrite bool_decide_eq_true_2 in Hs by (apply elem_of_seq; lia).
    exists e. split; [exact Hexe|].
    rewrite Er3. cbn [store set_store set_clock].
    exact (sleep_commits bots r2 n pl _ Hth1 Hpl Hs eq_refl eq_refl).
Qed.

(** After the sleep of the handshake a read cycle is still under way on
    the channel of a bot exactly when the bot is silent. *)
Lemma reading_after_handshake (r3 : Referee) n pl o c :
  threads_stdout_ r3 = Some <$> seq 0 n ->
  (pl < n)%nat ->
  shutdown_ c = false ->
  wait_for_message_ c = false ->
  reading r3 pl (commit_outcome o c)
  = match o with Silent => true | _ => false end.
Proof.
  intros Ht Hpl Hsd Hw. unfold reading.
  destruct o; cbn [commit_outcome wait_for_message_ set_wait_for_message set_time_out
                   set_response negb andb]; try reflexivity.
  rewrite Hw. cbn [negb andb]. now apply (has_reader_started r3 n).
Qed.

(** The state that [StartPlayers] leaves on a referee that had started
    nothing, when no bot is silent. *)
Lemma StartPlayers_fresh_state r :
  fresh r ->
  NumPlayers = num_bots r ->
  (forall pl : nat, (pl < num_bots r)%nat -> bots (clock r) pl <> Silent) ->
  exists (oks : list bool) r1,
    StartPlayers bots r = Ok oks r1
    /\ channels_ r1 = Some <$> seq 0 (num_bots r)
    /\ threads_stdout_ r1 = Some <$> seq 0 (num_bots r)
    /\ threads_stderr_ r1 = Some <$> seq 0 (num_bots r)
    /\ length (store r1) = num_bots r
    /\ forall pl : nat, (pl < num_bots r)%nat ->
         exists e c,
           executables_ r !! pl = Some e
           /\ store r1 !! pl = Some c
           /\ set_cancel_read true c
              = set_cancel_read true
                  (commit_outcome (bots (clock r) pl) (greeted r pl (MakeBotChannel pl e)))
           /\ errors_ r1 !! pl = Some (charged kReadyMessage c Reset)
           /\ oks !! pl = Some (answers_ready (bots (clock r) pl)).
Proof.
  intros Hfresh Hn Hlive.
  destruct (StartPlayers_fresh_sleep r Hfresh Hn)
    as (r3 & Erun & Hc3 & Ht3 & Ht3' & He3 & Hl3 & Hst3).
  set (n := num_bots r) in *.
  destruct (check_responses_returns kReadyMessage (seq 0 n) r3) as (oks & r4 & Hcheck).
  { intros pl Hpl. apply elem_of_seq in Hpl.
    destruct (Hst3 pl) as (e & _ & Ec); [lia|].
    eexists pl, _. rewrite Hc3, He3, length_replicate, list_lookup_fmap, lookup_seq_lt by lia.
    split_and!; [reflexivity | exact Ec | | lia].
    rewrite (reading_after_handshake r3 n) by (done || lia).
    specialize (Hlive pl ltac:(lia)). now destruct (bots (clock r) pl). }
  exists oks, r4.
  pose proof (check_responses_run _ _ _ _ _ Hcheck (NoDup_seq 0 n))
    as (C4 & L4 & _ & S4 & Hrun).
  assert (Hthreads : threads_stdout_ r4 = Some <$> seq 0 n
                     /\ threads_stderr_ r4 = Some <$> seq 0 n).
  { pose proof (w_check_responses _ _ _ _ _ Hcheck) as (_ & T1 & T2 & _).
    rewrite T1, T2. done. }
  destruct Hthreads as [T1 T2].
  split_and!.
  - now rewrite Erun.
  - now rewrite C4, Hc3.
  - exact T1.
  - exact T2.
  - now rewrite L4, Hl3.
  - intros pl Hpl. destruct (Hst3 pl Hpl) as (e & Hexe & Hs3).
    destruct (lookup_lt_is_Some_2 (store r4) pl) as [c Hc]; [rewrite L4, Hl3; exact Hpl|].
    destruct (S4 pl c Hc) as (c3 & Hc3' & Hsame).
    rewrite Hs3 in Hc3'. inversion Hc3'. subst c3. clear Hc3'.
    destruct (Hrun pl pl) as (a & c3 & Ea & Ec3 & Eok & Eerr); [now apply lookup_seq_lt|].
    rewrite Hc3, list_lookup_fmap, lookup_seq_lt in Ea by exact Hpl.
    inversion Ea. subst a. rewrite Hs3 in Ec3. inversion Ec3. subst c3.
    exists e, c. split_and!; [exact Hexe | exact Hc | exact Hsame | |].
    + rewrite Eerr, He3, lookup_replicate_2 by exact Hpl.
      cbn [fmap option_fmap option_map]. f_equal. unfold charged.
      change (response c) with (response_ (set_cancel_read true c)).
      change (is_time_out c) with (time_out_ (set_cancel_read true c)).
      rewrite Hsame. reflexivity.
    + rewrite Eok. f_equal. apply response_commit.
Qed.

(** X22: [StartPlayers] gives every bot a channel of its own, sends it
    the handshake and waits for its answer.  On a referee that has started
    nothing, with as many executables as the game has players:
    when a bot is alive and stays silent, [StartPlayers] does not return,
    whatever [timeout_ready] is ([CheckResponse] waits for the reader, and
    the reader for the newline);
    when no bot is silent, [StartPlayers] returns; afterwards bot [pl] has
    in [channels_[pl]] a channel on the process of [executables_[pl]], both
    reader threads of slot [pl] read that channel, and the standard input
    of the bot has received the name of the game, a newline, the character
    ['0' + pl] and a newline, and nothing else.  The answer for the bot is
    true exactly when the bot wrote the line "ready".  The read cycle of the
    handshake has ended, so that the next [StartRead] passes its checks. *)
Theorem StartPlayers_greets_every_bot (r : Referee) :
  fresh r ->
  NumPlayers = num_bots r ->
  ((exists pl : nat, (pl < num_bots r)%nat /\ bots (clock r) pl = Silent) ->
   StartPlayers bots r = Hang)
  /\ ((forall pl : nat, (pl < num_bots r)%nat -> bots (clock r) pl <> Silent) ->
      exists (oks : list bool) r1,
        StartPlayers bots r = Ok oks r1
        /\ forall pl : nat, (pl < num_bots r)%nat ->
             exists a c,
               oks !! pl = Some (answers_ready (bots (clock r) pl))
               /\ channels_ r1 !! pl = Some (Some a)
               /\ threads_stdout_ r1 !! pl = Some (Some a)
               /\ threads_stderr_ r1 !! pl = Some (Some a)
               /\ store r1 !! a = Some c
               /\ bot_index_ c = pl
               /\ executables_ r !! pl = Some (executable_ c)
               /\ stdin_ c = game_name_ r +:+ endl +:+ String (pl_char pl) "" +:+ endl
               /\ shutdown_ c = false
               /\ wait_for_message_ c = true).
Proof.
  intros Hfresh Hn. split.
  { intros (bad & Hbad & Hsilent).
    destruct (StartPlayers_fresh_sleep r Hfresh Hn)
      as (r3 & Erun & Hc3 & Ht3 & _ & He3 & Hl3 & Hst3).
    rewrite Erun. apply check_responses_hangs.
    - intros pl Hpl. apply elem_of_seq in Hpl.
      destruct (Hst3 pl) as (e & _ & Ec); [lia|].
      eexists pl, _.
      rewrite Hc3, He3, length_replicate, list_lookup_fmap, lookup_seq_lt by lia.
      split_and!; [reflexivity | exact Ec | lia].
    - destruct (Hst3 bad Hbad) as (e & _ & Ec).
      eexists bad, bad, _. split_and!; [apply elem_of_seq; lia | | exact Ec |].
      + rewrite Hc3, list_lookup_fmap, lookup_seq_lt by exact Hbad. reflexivity.
      + rewrite (reading_after_handshake r3 (num_bots r)) by done.
        now rewrite Hsilent. }
  intros Hlive.
  destruct (StartPlayers_fresh_state r Hfresh Hn Hlive)
    as (oks & r1 & Hrun & C & T1 & T2 & L & Hbots).
  exists oks, r1. split; [exact Hrun|]. intros pl Hpl.
  destruct (Hbots pl Hpl) as (e & c & Hexe & Hc & Hsame & _ & Hok).
  exists pl, c.
  rewrite C, T1, T2, list_lookup_fmap, lookup_seq_lt by exact Hpl.
  assert (Hfield : forall {A} (f : BotChannel -> A),
            (forall x, f (set_cancel_read true x) = f x) ->
            f c = f (commit_outcome (bots (clock r) pl) (greeted r pl (MakeBotChannel pl e)))).
  { intros A f Hf. rewrite <- (Hf c), Hsame. apply Hf. }
  specialize (Hlive pl Hpl).
  split_and!; try done.
  - rewrite (Hfield _ bot_index_) by reflexivity. now destruct (bots (clock r) pl).
  - rewrite (Hfield _ executable_) by reflexivity.
    rewrite Hexe. now destruct (bots (clock r) pl).
  - rewrite (Hfield _ stdin_) by reflexivity.
    destruct (bots (clock r) pl); cbn; now rewrite !append_assoc.
  - rewrite (Hfield _ shutdown_) by reflexivity. now destruct (bots (clock r) pl).
  - rewrite (Hfield _ wait_for_message_) by reflexivity. now destruct (bots (clock r) pl).
Qed.

End Start.

(** ** Shutting the players down *)

Section ShutDown.

Context {G : Game} {RE : RandomEngine}.
Variable bots : nat -> nat -> Outcome.

Lemma ShutDown_twice c : ShutDown (ShutDown c) = ShutDown c.
Proof. reflexivity. Qed.




(** *** A reader on another channel *)

Lemma f_refl r : flags_kept r r.
Proof. split; [reflexivity|]. intros b cb cb' H1 H2. congruence. Qed.

Lemma f_trans r1 r2 r3 : flags_kept r1 r2 -> flags_kept r2 r3 -> flags_kept r1 r3.
Proof.
  intros [L1 H1] [L2 H2]. split; [congruence|].
  intros b cb cb3 E1 E3.
  destruct (lookup_lt_is_Some_2 (store r2) b) as [c2 E2].
  { rewrite L1. now apply lookup_lt_Some in E1. }
  rewrite (H2 b c2 cb3 E2 E3). exact (H1 b cb c2 E1 E2).
Qed.

Lemma f_same r r' : store r' = store r -> flags_kept r r'.
Proof. intros E. split; [now rewrite E|]. intros b cb cb' H1 H2. congruence. Qed.

Lemma f_update_channel a f :
  (forall c, shutdown_ (f c) = shutdown_ c) -> keeps flags_kept (update_channel a f).
Proof.
  intros Hf r u r' H. unfold update_channel in H.
  destruct (store r !! a) as [c|] eqn:Ec; inversion H. subst. clear H.
  split; [simpl; apply length_insert|].
  intros b cb cb' E1 E2. simpl in E2. destruct (decide (a = b)) as [<-|Hne].
  - rewrite list_lookup_insert_eq in E2 by (now apply lookup_lt_Some in Ec).
    inversion E2. rewrite Hf. congruence.
  - rewrite list_lookup_insert_ne in E2 by done. congruence.
Qed.

Lemma f_update_errors pl f : keeps flags_kept (update_errors pl f).
Proof.
  intros r u r' H. unfold update_errors in H.
  destruct (errors_ r !! pl); inversion H. now apply f_same.
Qed.

Lemma f_sleep_ms ms : keeps flags_kept (sleep_ms bots ms).
Proof.
  apply keeps_modify. intros r. split; [simpl; apply length_imap|].
  intros b cb cb' E1 E2. simpl in E2. rewrite list_lookup_imap, E1 in E2.
  simpl in E2. inversion E2.
  destruct (reading r b cb); [|reflexivity].
  now destruct (bots (clock r) (bot_index_ cb)).
Qed.

Lemma f_send_setup a pl : keeps flags_kept (send_setup a pl).
Proof.
  unfold send_setup, write.
  repeat (apply keeps_bind; [apply f_trans | | intros ?]);
    try (apply f_update_channel; reflexivity).
  apply keeps_gets, f_refl.
Qed.

Lemma f_StartRead a t : keeps flags_kept (StartRead a t).
Proof.
  unfold StartRead. apply keeps_bind; [apply f_trans | apply keeps_get_channel, f_refl |].
  intros c. destruct (shutdown_ c); [apply keeps_fatal|].
  destruct (negb _); [apply keeps_fatal | apply f_update_channel; reflexivity].
Qed.

Lemma f_send_handshake pl : keeps flags_kept (send_handshake pl).
Proof.
  unfold send_handshake.
  apply keeps_bind; [apply f_trans | apply keeps_channel_at, f_refl | intros chn].
  apply keeps_bind; [apply f_trans | apply f_send_setup | intros _].
  apply keeps_bind; [apply f_trans | apply keeps_gets, f_refl | intros t].
  apply f_StartRead.
Qed.

Lemma f_CheckResponse e pl : keeps flags_kept (CheckResponse e pl).
Proof.
  unfold CheckResponse.
  apply keeps_bind; [apply f_trans | apply keeps_channel_at, f_refl | intros chn].
  apply keeps_bind;
    [apply f_trans | apply keeps_CancelReadBlocking, f_update_channel; reflexivity
     | intros _].
  apply keeps_bind; [apply f_trans | apply keeps_get_channel, f_refl | intros c].
  destruct (negb _); [|apply keeps_ret, f_refl].
  apply keeps_bind; [apply f_trans | apply f_update_errors | intros _].
  apply keeps_bind; [apply f_trans | | intros _; apply keeps_ret, f_refl].
  destruct (is_time_out c); [apply f_update_errors | apply keeps_ret, f_refl].
Qed.

(** [StartPlayer] makes one channel, at the next free address, and changes
    the [shutdown_] flag of no channel that was there. *)
Lemma StartPlayer_store pl r ok r' :
  StartPlayer bots pl r = Ok ok r' ->
  length (store r') = S (length (store r))
  /\ forall (b : nat) cb, store r !! b = Some cb ->
       exists cb', store r' !! b = Some cb' /\ shutdown_ cb' = shutdown_ cb.
Proof.
  intros H. unfold StartPlayer in H.
  apply bind_Ok in H as (exe & r0 & Hexe & H).
  unfold executable_at in Hexe. destruct (executables_ r !! pl); [|discriminate].
  inversion Hexe. subst. clear Hexe.
  apply bind_Ok in H as (a & r1 & Ha & H). inversion Ha. subst a r1. clear Ha.
  apply bind_Ok in H as ([] & r2 & Hc & H).
  unfold assign_slot in Hc. destruct (decide _); [|discriminate].
  inversion Hc. subst r2. clear Hc.
  apply bind_Ok in H as (b & r3 & Hb & H).
  unfold channels_back in Hb.
  destruct (last _) as [[b0|]|]; try discriminate. inversion Hb. subst b0 r3. clear Hb.
  apply bind_Ok in H as ([] & r4 & Ht & H).
  unfold assign_slot in Ht. destruct (decide _); [|discriminate].
  inversion Ht. subst r4. clear Ht.
  apply bind_Ok in H as (b' & r5 & Hb & H).
  unfold channels_back in Hb.
  destruct (last _) as [[b0|]|]; try discriminate. inversion Hb. subst b0 r5. clear Hb.
  apply bind_Ok in H as ([] & r6 & Ht & H).
  unfold assign_slot in Ht. destruct (decide _); [|discriminate].
  inversion Ht. subst r6. clear Ht.
  apply bind_Ok in H as ([] & r8 & Hs & H). apply f_send_handshake in Hs.
  apply bind_Ok in H as (t & r9 & Ht & H). inversion Ht. subst t r9. clear Ht.
  apply bind_Ok in H as ([] & r11 & Hsl & H). apply f_sleep_ms in Hsl.
  apply f_CheckResponse in H.
  pose proof (f_trans _ _ _ Hs (f_trans _ _ _ Hsl H)) as [L K].
  simpl in L, K. rewrite length_app in L. simpl in L.
  split; [lia|].
  intros b1 cb Ecb.
  destruct (lookup_lt_is_Some_2 (store r') b1) as [cb' Ecb'].
  { rewrite L. apply lookup_lt_Some in Ecb. lia. }
  exists cb'. split; [exact Ecb'|].
  apply (K b1 cb cb'); [|exact Ecb'].
  rewrite lookup_app_l by (now apply lookup_lt_Some in Ecb). exact Ecb.
Qed.

(** X24: a bot that is not the last one cannot be restarted twice.
    [StartPlayer(pl)] puts the readers of slot [pl] on the channel of the
    last bot; the next [RestartPlayer(pl)] shuts the channel of bot [pl]
    down and then joins a thread that reads the channel of the last bot,
    which nothing shuts down: the join never returns. *)
Theorem a_second_restart_never_returns (pl : nat) (r : Referee) (ok : bool)
    (r1 : Referee) (b : nat) (cb : BotChannel) :
  StartPlayer bots pl r = Ok ok r1 ->
  (S pl < length (channels_ r))%nat ->
  last (channels_ r) = Some (Some b) ->
  store r !! b = Some cb ->
  shutdown_ cb = false ->
  RestartPlayer bots pl r1 = Hang.
Proof.
  intros H Hpl Hlast Hb Hsd.
  pose proof (StartPlayer_readers_elsewhere bots _ _ _ _ H Hpl) as (_ & T1 & _ & C1).
  pose proof (StartPlayer_store _ _ _ _ H) as (L & K).
  destruct (K b cb Hb) as (cb' & Hb' & Hsd').
  destruct (lookup_lt_is_Some_2 (store r1) (length (store r))) as [c Hc]; [lia|].
  assert (Hne : length (store r) <> b) by (apply lookup_lt_Some in Hb; lia).
  unfold RestartPlayer, ShutDownPlayer.
  unfold bind at 1. unfold bind at 1. unfold channel_at. rewrite C1.
  unfold bind at 1. unfold update_channel. rewrite Hc.
  unfold bind at 1. unfold join. cbn [threads_stdout_ set_store store].
  rewrite T1, Hlast.
  rewrite list_lookup_insert_ne by exact Hne. rewrite Hb', Hsd', Hsd. reflexivity.
Qed.

(** *** The channel that nothing reads *)

Lemma no_reader_at (threads : list (option nat)) (a : nat) :
  Forall (fun t => forall x : nat, t = Some x -> (x < a)%nat) threads ->
  existsb (fun t => match t with Some b => Nat.eqb a b | None => false end) threads
  = false.
Proof.
  induction 1 as [|t l Ht _ IH]; [reflexivity|]. simpl. rewrite IH, orb_false_r.
  destruct t as [x|]; [|reflexivity]. apply Nat.eqb_neq. specialize (Ht x eq_refl). lia.
Qed.

(** [StartPlayer(pl)] for a bot that is not the last one: the new channel
    is in [channels_[pl]], no thread reads it, its read cycle never ends. *)
Lemma StartPlayer_elsewhere_state pl r ok r1 b :
  StartPlayer bots pl r = Ok ok r1 ->
  (S pl < length (channels_ r))%nat ->
  last (channels_ r) = Some (Some b) ->
  (b < length (store r))%nat ->
  Forall (fun t => forall x : nat, t = Some x -> (x < length (store r))%nat)
    (threads_stdout_ r) ->
  ok = false
  /\ executables_ r1 = executables_ r
  /\ channels_ r1 !! pl = Some (Some (length (store r)))
  /\ exists c, store r1 !! length (store r) = Some c
               /\ response c = "" /\ wait_for_message_ c = false
               /\ shutdown_ c = false.
Proof.
  intros H Hpl Hlast Hb Hthreads.
  pose proof (q_StartPlayer bots _ _ _ _ H) as (Eexe & _).
  unfold StartPlayer in H.
  apply bind_Ok in H as (exe & r0 & Hexe & H).
  unfold executable_at in Hexe. destruct (executables_ r !! pl); [|discriminate].
  inversion Hexe. subst. clear Hexe.
  apply bind_Ok in H as (a & r1' & Ha & H). inversion Ha. subst a r1'. clear Ha.
  apply bind_Ok in H as ([] & r2 & Hc & H).
  unfold assign_slot in Hc. destruct (decide _) as [Hlt|]; [|discriminate].
  inversion Hc. subst r2. clear Hc. cbn [channels_ set_store] in Hlt.
  assert (Elast : last (<[pl := Some (length (store r0))]> (channels_ r0))
                  = Some (Some b)).
  { rewrite <- Hlast, !last_lookup, length_insert. apply list_lookup_insert_ne. lia. }
  apply bind_Ok in H as (b1 & r3 & Hb1 & H).
  unfold channels_back in Hb1. cbn [channels_ set_channels set_store] in Hb1.
  rewrite Elast in Hb1. inversion Hb1. subst b1 r3. clear Hb1.
  apply bind_Ok in H as ([] & r4 & Ht & H).
  unfold assign_slot in Ht. destruct (decide _); [|discriminate].
  inversion Ht. subst r4. clear Ht.
  apply bind_Ok in H as (b' & r5 & Hb' & H).
  unfold channels_back in Hb'. cbn [channels_ set_channels set_store set_threads_stdout] in Hb'.
  rewrite Elast in Hb'. inversion Hb'. subst b' r5. clear Hb'.
  apply bind_Ok in H as ([] & r6 & Ht & H).
  unfold assign_slot in Ht. destruct (decide _); [|discriminate].
  inversion Ht. subst r6. clear Ht.
  set (a := length (store r0)) in *.
  set (r6 := set_threads_stderr _ _) in H.
  assert (Ech : channels_ r6 !! pl = Some (Some a)).
  { unfold r6. cbn. now apply list_lookup_insert_eq. }
  assert (Est : store r6 !! a = Some (MakeBotChannel pl exe)).
  { unfold r6. cbn. unfold a. now rewrite lookup_app_r, Nat.sub_diag by lia. }
  apply bind_Ok in H as ([] & r7 & Hs & H).
  rewrite (send_handshake_step r6 pl a _ Ech Est eq_refl eq_refl) in Hs.
  set (g := greeted r6 pl (MakeBotChannel pl exe)) in *.
  assert (Est7 : store r7 !! a = Some g).
  { inversion Hs. cbn [store set_store]. apply list_lookup_insert_eq.
    now apply lookup_lt_Some in Est. }
  assert (Hnone : has_reader r7 a g = false).
  { inversion Hs. unfold has_reader. apply andb_false_iff. left.
    apply no_reader_at. unfold r6. cbn.
    apply Forall_insert; [exact Hthreads | intros x [= <-]; exact Hb]. }
  assert (Ech7 : channels_ r7 !! pl = Some (Some a)) by (inversion Hs; exact Ech).
  clear Hs.
  apply bind_Ok in H as (t & r8 & Ht & H). inversion Ht. subst t r8. clear Ht.
  apply bind_Ok in H as ([] & r9 & Hsl & H).
  unfold sleep_ms, modify in Hsl. inversion Hsl. clear Hsl.
  assert (Est9 : store r9 !! a = Some g).
  { subst r9. cbn [store set_store set_clock]. rewrite list_lookup_imap, Est7.
    cbn [fmap option_fmap option_map]. unfold reading.
    now rewrite Hnone, andb_false_r. }
  assert (Ech9 : channels_ r9 !! pl = Some (Some a)) by (subst r9; exact Ech7).
  apply CheckResponse_run in H as (a' & c & Ea' & Ec & -> & C & S & _).
  rewrite Ech9 in Ea'. inversion Ea'. subst a'. rewrite Est9 in Ec. inversion Ec. subst c.
  split_and!.
  - reflexivity.
  - exact Eexe.
  - now rewrite C.
  - exists (set_cancel_read true g). rewrite S.
    split; [apply list_lookup_insert_eq; now apply lookup_lt_Some in Est9|].
    split_and!; reflexivity.
Qed.

(** X25: [StartPlayer] never sees a bot that is not the last one.  When
    [pl] is not the last bot, and the threads that exist read channels that
    exist, no thread reads the new channel of bot [pl]: whatever the bot
    writes, its response stays empty and [StartPlayer(pl)] answers false. *)
Theorem StartPlayer_only_hears_the_last_bot (pl : nat) (r : Referee) (ok : bool)
    (r1 : Referee) (b : nat) :
  StartPlayer bots pl r = Ok ok r1 ->
  (S pl < length (channels_ r))%nat ->
  last (channels_ r) = Some (Some b) ->
  (b < length (store r))%nat ->
  Forall (fun t => forall x : nat, t = Some x -> (x < length (store r))%nat)
    (threads_stdout_ r) ->
  ok = false
  /\ exists a c, channels_ r1 !! pl = Some (Some a) /\ store r1 !! a = Some c
                 /\ response c = "".
Proof.
  intros H Hpl Hlast Hb Hth.
  destruct (StartPlayer_elsewhere_state _ _ _ _ _ H Hpl Hlast Hb Hth)
    as (-> & _ & Ech & c & Ec & Hr & _).
  split; [reflexivity|]. exists (length (store r)), c. done.
Qed.

(** The loop of lines 230 to 233 stops at a channel whose read cycle has
    not ended. *)
Lemma StartRead_loop_stops (pls : list nat) (t : Z) (pl a : nat) : forall r c,
  pl ∈ pls ->
  channels_ r !! pl = Some (Some a) ->
  store r !! a = Some c ->
  wait_for_message_ c = false ->
  shutdown_ c = false ->
  exists msg,
    for_each pls (fun pl => let* chn := channel_at pl in StartRead chn t) r = Fatal msg.
Proof.
  induction pls as [|p pls IH]; intros r c Hin Ech Ec Hw Hsd; [inversion Hin|].
  assert (Hhere : exists msg,
            (let* chn := channel_at pl in StartRead chn t) r = Fatal msg).
  { unfold bind, channel_at. rewrite Ech. unfold StartRead, bind, get_channel.
    rewrite Ec, Hsd, Hw. simpl. eauto. }
  simpl. destruct (decide (p = pl)) as [->|Hne].
  - destruct Hhere as [msg E]. exists msg. unfold bind at 1. now rewrite E.
  - apply elem_of_cons in Hin as [->|Hin]; [contradiction|].
    unfold bind at 1.
    destruct ((let* chn := channel_at p in StartRead chn t) r) as [[] r'| msg | |] eqn:E.
    + apply bind_Ok in E as (a' & r0 & Ha' & E).
      unfold channel_at in Ha'.
      destruct (channels_ r !! p) as [[a''|]|]; try discriminate.
      inversion Ha'. subst a'' r0. clear Ha'.
      unfold StartRead in E. apply bind_Ok in E as (c' & r0 & Hg & E).
      unfold get_channel in Hg. destruct (store r !! a') as [c''|] eqn:Ec'; [|discriminate].
      inversion Hg. subst c'' r0. clear Hg.
      destruct (shutdown_ c') eqn:Esd; [discriminate|].
      destruct (wait_for_message_ c') eqn:Ew; [|discriminate]. simpl in E.
      unfold update_channel in E. rewrite Ec' in E. inversion E. subst r'. clear E.
      assert (Hna : a' <> a) by (intros ->; congruence).
      apply (IH _ c); try done. simpl. now rewrite list_lookup_insert_ne.
    + eauto.
    + exfalso. unfold bind, channel_at in E.
      destruct (channels_ r !! p) as [[a'|]|]; try discriminate.
      unfold StartRead, bind, get_channel in E.
      destruct (store r !! a') as [c'|] eqn:Ec'; [|discriminate].
      destruct (shutdown_ c'); [discriminate|].
      destruct (negb _); [discriminate|].
      unfold update_channel in E. now rewrite Ec' in E.
    + exfalso. unfold bind, channel_at in E.
      destruct (channels_ r !! p) as [[a'|]|]; try discriminate.
      unfold StartRead, bind, get_channel in E.
      destruct (store r !! a') as [c'|] eqn:Ec'; [|discriminate].
      destruct (shutdown_ c'); [discriminate|].
      destruct (negb _); [discriminate|].
      unfold update_channel in E. now rewrite Ec' in E.
Qed.

(** X26: after the restart of a bot that is not the last one, no match can
    be played.  The read cycle that the handshake began on the new channel
    of bot [pl] never ends, because no reader is on that channel; the
    [StartRead] at the start of the next match fails its check, and
    [PlayMatch] stops the referee. *)
Theorem no_match_after_the_restart_of_a_bot_but_the_last (fuel : nat) (pl : nat)
    (r : Referee) (ok : bool) (r1 : Referee) (b : nat) :
  StartPlayer bots pl r = Ok ok r1 ->
  (S pl < length (channels_ r))%nat ->
  last (channels_ r) = Some (Some b) ->
  (b < length (store r))%nat ->
  Forall (fun t => forall x : nat, t = Some x -> (x < length (store r))%nat)
    (threads_stdout_ r) ->
  exists msg, PlayMatch bots fuel r1 = Fatal msg.
Proof.
  intros H Hpl Hlast Hb Hth.
  assert (Hexe : is_Some (executables_ r !! pl)).
  { unfold StartPlayer in H. apply bind_Ok in H as (exe & r0 & Hexe & _).
    unfold executable_at in Hexe. destruct (executables_ r !! pl); [eauto | discriminate]. }
  destruct (StartPlayer_elsewhere_state _ _ _ _ _ H Hpl Hlast Hb Hth)
    as (_ & Eexe & Ech & c & Ec & _ & Hw & Hsd).
  unfold PlayMatch. unfold bind at 1, gets at 1.
  destruct (negb (Nat.eqb (num_bots r1) NumPlayers)); [unfold fatal; eauto|].
  unfold bind at 1, gets at 1. unfold bind at 1, gets at 1.
  destruct (StartRead_loop_stops (players r1) (timeout_start (settings_ r1)) pl
              (length (store r)) r1 c) as [msg E]; try done.
  { unfold players, num_bots. rewrite Eexe. apply elem_of_seq.
    apply lookup_lt_is_Some_1 in Hexe. lia. }
  exists msg. unfold bind at 1. now rewrite E.
Qed.

End ShutDown.

(** ** The CSV of the results *)

Lemma count_char_app ch s1 s2 :
  count_char ch (s1 +:+ s2) = (count_char ch s1 + count_char ch s2)%nat.
Proof.
  induction s1 as [|c s1 IH]; [reflexivity|].
  rewrite append_cons. cbn [count_char]. rewrite IH. lia.
Qed.

Lemma count_char_digits ch s :
  all_digits s = true -> is_digit ch = false -> count_char ch s = 0%nat.
Proof.
  intros Hs Hch. induction s as [|c s IH]; [reflexivity|].
  simpl in Hs. apply andb_true_iff in Hs as [Hc Hs]. cbn [count_char].
  rewrite (IH Hs). destruct (Ascii.eqb_spec c ch) as [->|_]; [congruence | reflexivity].
Qed.

(** The decimal writing of an integer holds digits and a sign only. *)
Lemma count_char_to_string ch z :
  is_digit ch = false -> ch <> "-"%char -> count_char ch (to_string z) = 0%nat.
Proof.
  intros Hch Hminus. destruct (to_string_shape z) as (s & Hs & _ & [E|E]); rewrite E.
  - now apply count_char_digits.
  - cbn [count_char]. rewrite (count_char_digits ch s Hs Hch).
    destruct (Ascii.eqb_spec "-"%char ch) as [<-|_]; [contradiction | reflexivity].
Qed.

Lemma count_char_concat ch sep (l : list string) :
  count_char ch sep = 0%nat ->
  Forall (fun x => count_char ch x = 0%nat) l ->
  count_char ch (String.concat sep l) = 0%nat.
Proof.
  intros Hsep Hl. induction Hl as [|x l Hx Hl IH]; [reflexivity|].
  destruct l as [|y l]; [exact Hx|].
  change (String.concat sep (x :: y :: l)) with (x +:+ sep +:+ String.concat sep (y :: l)).
  rewrite !count_char_app, Hx, Hsep, IH. reflexivity.
Qed.

Section CsvProperties.

Context {G : Game} {RE : RandomEngine}.
Variable show_double : Q -> string.

Lemma history_has_no ch (h : list Action) :
  is_digit ch = false -> ch <> "-"%char -> ch <> " "%char ->
  count_char ch (String.concat " " (map to_string h)) = 0%nat.
Proof.
  intros Hd Hm Hs. apply count_char_concat.
  - cbn [count_char]. destruct (Ascii.eqb_spec " "%char ch) as [<-|_];
      [contradiction | reflexivity].
  - apply Forall_forall. intros x Hx. apply list_elem_of_In, in_map_iff in Hx as (z & <- & _).
    now apply count_char_to_string.
Qed.

Lemma csv_header_entries_commas pls :
  count_char "," (csv_header_entries pls) = (4 * length pls)%nat.
Proof.
  induction pls as [|pl pls IH]; [reflexivity|].
  cbn [csv_header_entries length]. rewrite count_char_app, IH.
  unfold csv_header_entry. rewrite !count_char_app.
  rewrite !count_char_to_string by (reflexivity || discriminate).
  cbn. lia.
Qed.

Lemma csv_entries_commas m pls : forall entries,
  (forall q, count_char "," (show_double q) = 0%nat) ->
  csv_entries show_double m pls = Some entries ->
  count_char "," entries = (5 * length pls)%nat.
Proof.
  intros entries Hshow. revert entries.
  induction pls as [|pl pls IH]; intros entries H; simpl in H.
  - inversion H. reflexivity.
  - destruct (csv_entry show_double m pl) as [entry|] eqn:E; [|discriminate].
    destruct (csv_entries show_double m pls) as [rest|]; [|discriminate].
    inversion H. subst entries. clear H.
    rewrite count_char_app, (IH rest eq_refl). cbn [length].
    unfold csv_entry in E.
    destruct (Returns (terminal m) !! pl) as [ret|]; [|discriminate].
    destruct (errors m !! pl) as [e|]; [|discriminate].
    inversion E. subst entry. clear E.
    rewrite !count_char_app, Hshow.
    rewrite !count_char_to_string by (reflexivity || discriminate).
    cbn. lia.
Qed.

(** X27: the header of the CSV lacks a comma between the columns of two
    bots.  With [n] bots the header holds [1 + 4 n] commas, and every row
    holds [5 n] (when the writing of a [double] holds none): the header has
    as many fields as the rows only when there is one bot. *)
Theorem csv_header_and_rows_disagree (n : nat) (m : MatchResult) (row : string) :
  (forall q, count_char "," (show_double q) = 0%nat) ->
  csv_row show_double n m = Some row ->
  count_char "," (csv_header n) = (1 + 4 * n)%nat
  /\ count_char "," row = (5 * n)%nat
  /\ (count_char "," (csv_header n) = count_char "," row <-> n = 1%nat).
Proof.
  intros Hshow Hrow.
  assert (Hh : count_char "," (csv_header n) = (1 + 4 * n)%nat).
  { unfold csv_header. rewrite !count_char_app, csv_header_entries_commas, length_seq.
    cbn. lia. }
  assert (Hr : count_char "," row = (5 * n)%nat).
  { unfold csv_row in Hrow.
    destruct (csv_entries show_double m (seq 0 n)) as [entries|] eqn:E; [|discriminate].
    inversion Hrow. subst row. clear Hrow.
    rewrite !count_char_app, (csv_entries_commas _ _ _ Hshow E), length_seq.
    rewrite history_has_no by (reflexivity || discriminate). cbn. lia. }
  split_and!; [exact Hh | exact Hr | rewrite Hh, Hr; lia].
Qed.

Lemma csv_entries_lines m pls : forall entries,
  (forall q, count_char nl (show_double q) = 0%nat) ->
  csv_entries show_double m pls = Some entries ->
  count_char nl entries = 0%nat.
Proof.
  intros entries Hshow. revert entries.
  induction pls as [|pl pls IH]; intros entries H; simpl in H.
  - inversion H. reflexivity.
  - destruct (csv_entry show_double m pl) as [entry|] eqn:E; [|discriminate].
    destruct (csv_entries show_double m pls) as [rest|]; [|discriminate].
    inversion H. subst entries. clear H.
    rewrite count_char_app, (IH rest eq_refl).
    unfold csv_entry in E.
    destruct (Returns (terminal m) !! pl) as [ret|]; [|discriminate].
    destruct (errors m !! pl) as [e|]; [|discriminate].
    inversion E. subst entry. clear E.
    rewrite !count_char_app, Hshow.
    rewrite !count_char_to_string by (reflexivity || discriminate).
    reflexivity.
Qed.

Lemma csv_header_entries_lines pls : count_char nl (csv_header_entries pls) = 0%nat.
Proof.
  induction pls as [|pl pls IH]; [reflexivity|].
  cbn [csv_header_entries]. rewrite count_char_app, IH.
  unfold csv_header_entry. rewrite !count_char_app.
  rewrite !count_char_to_string by (reflexivity || discriminate).
  reflexivity.
Qed.

Lemma csv_rows_lines n ms : forall rows,
  (forall q, count_char nl (show_double q) = 0%nat) ->
  csv_rows show_double n ms = Some rows ->
  count_char nl rows = length ms.
Proof.
  intros rows Hshow. revert rows.
  induction ms as [|m ms IH]; intros rows H; simpl in H.
  - inversion H. reflexivity.
  - destruct (csv_row show_double n m) as [row|] eqn:E; [|discriminate].
    destruct (csv_rows show_double n ms) as [rest|]; [|discriminate].
    inversion H. subst rows. clear H.
    rewrite count_char_app, (IH rest eq_refl). cbn [length].
    unfold csv_row in E.
    destruct (csv_entries show_double m (seq 0 n)) as [entries|] eqn:Ee; [|discriminate].
    inversion E. subst row. clear E.
    rewrite !count_char_app, (csv_entries_lines _ _ _ Hshow Ee).
    rewrite history_has_no by (reflexivity || discriminate). reflexivity.
Qed.

(** X28: the CSV has one line for each recorded match, after one line of
    header if a header is asked for (when the writing of a [double] holds
    no newline). *)
Theorem PrintCsv_writes_a_line_for_each_match (results : TournamentResults)
    (print_header : bool) (out : string) :
  (forall q, count_char nl (show_double q) = 0%nat) ->
  PrintCsv show_double results print_header = Some out ->
  count_char nl out
  = ((if print_header then 1 else 0) + length (matches results))%nat.
Proof.
  intros Hshow H. unfold PrintCsv in H.
  destruct (csv_rows show_double (num_bots_ results) (matches results)) as [rows|] eqn:E;
    [|discriminate].
  inversion H. subst out. clear H.
  rewrite count_char_app, (csv_rows_lines _ _ _ Hshow E).
  destruct print_header; [|reflexivity].
  unfold csv_header. rewrite !count_char_app, csv_header_entries_lines. reflexivity.
Qed.

End CsvProperties.

(** ** The end of the tournament *)

Section Over.

Context {G : Game} {RE : RandomEngine}.
Variable bots : nat -> nat -> Outcome.

(** The loop of [TournamentOver]: the channel of every bot of the list gets
    the message, once, and no other channel changes. *)
Lemma told_loop pls : forall r,
  NoDup pls ->
  (forall pl, pl ∈ pls ->
     exists a, channels_ r !! pl = Some (Some a) /\ (a < length (store r))%nat) ->
  (forall pl1 pl2 a, pl1 ∈ pls -> pl2 ∈ pls ->
     channels_ r !! pl1 = Some (Some a) -> channels_ r !! pl2 = Some (Some a) ->
     pl1 = pl2) ->
  exists sto,
    for_each pls (fun pl =>
      let* chn := channel_at pl in
      let* _ := write chn kTournamentOverMessage in
      write chn endl) r = Ok tt (set_store sto r)
    /\ length sto = length (store r)
    /\ (forall pl a c, pl ∈ pls -> channels_ r !! pl = Some (Some a) ->
          store r !! a = Some c -> sto !! a = Some (told_over c))
    /\ (forall a c, store r !! a = Some c ->
          (forall pl, pl ∈ pls -> channels_ r !! pl <> Some (Some a)) ->
          sto !! a = Some c).
Proof.
  induction pls as [|p pls IH]; intros r Hnd Hpre Hinj.
  - exists (store r). simpl. split_and!; [now destruct r | done | | auto].
    intros pl a c Hpl. inversion Hpl.
  - apply NoDup_cons in Hnd as [Hnotin Hnd].
    destruct (Hpre p) as (a & Ea & Ha); [apply elem_of_cons; by left|].
    destruct (lookup_lt_is_Some_2 (store r) a Ha) as [c Ec].
    set (r1 := set_store (<[a := told_over c]> (store r)) r).
    assert (Hother : forall pl, pl ∈ pls -> channels_ r !! pl <> Some (Some a)).
    { intros pl Hpl E. assert (p = pl); [|congruence].
      apply (Hinj p pl a); [apply elem_of_cons; by left | apply elem_of_cons; by right
                            | exact Ea | exact E]. }
    destruct (IH r1 Hnd) as (sto & Hrun & Hlen & Htold & Hkeep).
    { intros pl Hpl. destruct (Hpre pl) as (a' & Ea' & Ha'); [apply elem_of_cons; by right|].
      exists a'. split; [exact Ea'|]. simpl. now rewrite length_insert. }
    { intros pl1 pl2 a' H1 H2. apply Hinj; apply elem_of_cons; by right. }
    exists sto. split_and!.
    + simpl. unfold bind at 1. unfold bind at 1. unfold channel_at. rewrite Ea.
      unfold bind at 1. unfold write at 1. unfold update_channel. rewrite Ec.
      unfold write, update_channel. cbn [store set_store].
      rewrite list_lookup_insert_eq by exact Ha. rewrite list_insert_insert_eq.
      exact Hrun.
    + rewrite Hlen. simpl. apply length_insert.
    + intros pl a' c' Hpl Ea' Ec'. apply elem_of_cons in Hpl as [->|Hpl].
      * rewrite Ea in Ea'. inversion Ea'. subst a'. rewrite Ec in Ec'. inversion Ec'.
        subst c'. apply Hkeep; [simpl; now apply list_lookup_insert_eq | exact Hother].
      * assert (Hne : a <> a') by (intros <-; exact (Hother pl Hpl Ea')).
        apply (Htold pl); [exact Hpl | exact Ea' |].
        simpl. now rewrite list_lookup_insert_ne.
    + intros a' c' Ec' Hnone.
      assert (Hne : a <> a').
      { intros <-. apply (Hnone p); [apply elem_of_cons; by left | exact Ea]. }
      apply Hkeep; [simpl; now rewrite list_lookup_insert_ne|].
      intros pl Hpl. apply Hnone, elem_of_cons. by right.
Qed.

(** X29: [TournamentOver] tells every bot, once, and checks no answer.
    When the bots have channels of their own that exist, it returns after
    one sleep; the standard input of each bot has received "tournament
    over" and a newline after what it held, and neither the counters of the
    bots nor the log change. *)
Theorem TournamentOver_tells_every_bot (r : Referee) :
  (num_bots r <= length (channels_ r))%nat ->
  Forall (fun x => exists a : nat, x = Some a /\ (a < length (store r))%nat)
    (channels_ r) ->
  NoDup (channels_ r) ->
  exists r',
    TournamentOver bots r = Ok tt r'
    /\ clock r' = S (clock r)
    /\ errors_ r' = errors_ r
    /\ log_ r' = log_ r
    /\ forall (pl a : nat) c,
         (pl < num_bots r)%nat ->
         channels_ r !! pl = Some (Some a) -> store r !! a = Some c ->
         exists c', store r' !! a = Some c'
                    /\ stdin_ c' = stdin_ c +:+ kTournamentOverMessage +:+ endl.
Proof.
  intros Hlen Hch Hnd.
  destruct (told_loop (players r) r) as (sto & Hrun & Hl & Htold & _).
  { apply NoDup_seq. }
  { intros pl Hpl. apply elem_of_seq in Hpl.
    destruct (lookup_lt_is_Some_2 (channels_ r) pl) as [x Hx]; [lia|].
    rewrite Forall_lookup in Hch. destruct (Hch _ _ Hx) as (a & -> & Ha). eauto. }
  { intros pl1 pl2 a _ _ E1 E2. eapply NoDup_lookup; eauto. }
  eexists. split.
  - unfold TournamentOver, for_players.
    rewrite (bind_run _ _ r tt (set_store sto r)).
    + rewrite (bind_run (gets _) _ (set_store sto r) _ (set_store sto r) eq_refl).
      reflexivity.
    + rewrite (bind_run (gets players) _ r _ r eq_refl). exact Hrun.
  - split_and!; try reflexivity.
    intros pl a c Hpl Ea Ec.
    assert (Es : sto !! a = Some (told_over c)).
    { apply (Htold pl); [apply elem_of_seq; lia | exact Ea | exact Ec]. }
    cbn [store set_store set_clock]. rewrite list_lookup_imap, Es.
    cbn [fmap option_fmap option_map].
    eexists. split; [reflexivity|].
    assert (Hin : stdin_ (told_over c) = stdin_ c +:+ kTournamentOverMessage +:+ endl).
    { unfold told_over, write_in. cbn. apply append_assoc. }
    destruct (reading _ _ _); [|exact Hin].
    now destruct (bots _ _).
Qed.

(** *** The results can be printed *)

Lemma l_refl r : errors_len r r.
Proof. reflexivity. Qed.

Lemma l_trans r1 r2 r3 : errors_len r1 r2 -> errors_len r2 r3 -> errors_len r1 r3.
Proof. unfold errors_len. congruence. Qed.

Lemma l_same r r' : errors_ r' = errors_ r -> errors_len r r'.
Proof. unfold errors_len. now intros ->. Qed.

Lemma l_ret {A} (a : A) : keeps errors_len (ret a).
Proof. apply keeps_ret, l_refl. Qed.

Lemma l_fatal {A} msg : keeps errors_len (@fatal _ A msg).
Proof. apply keeps_fatal. Qed.

Lemma l_gets {A} (f : Referee -> A) : keeps errors_len (gets f).
Proof. apply keeps_gets, l_refl. Qed.

Lemma l_bind {A B} (m : M A) (f : A -> M B) :
  keeps errors_len m -> (forall a, keeps errors_len (f a)) -> keeps errors_len (bind m f).
Proof. apply keeps_bind, l_trans. Qed.

Lemma l_for_each pls body :
  (forall pl, keeps errors_len (body pl)) -> keeps errors_len (for_each pls body).
Proof. apply keeps_for_each; [apply l_refl | apply l_trans]. Qed.

Lemma l_channel_at pl : keeps errors_len (channel_at pl).
Proof. apply keeps_channel_at, l_refl. Qed.

Lemma l_get_channel a : keeps errors_len (get_channel a).
Proof. apply keeps_get_channel, l_refl. Qed.

Lemma l_errors_at pl : keeps errors_len (errors_at pl).
Proof. apply keeps_errors_at, l_refl. Qed.

Lemma l_executable_at pl : keeps errors_len (executable_at pl).
Proof. apply keeps_executable_at, l_refl. Qed.

Lemma l_channels_back : keeps errors_len channels_back.
Proof. apply keeps_channels_back, l_refl. Qed.

Lemma l_join threads pl : keeps errors_len (join threads pl).
Proof. apply keeps_join, l_refl. Qed.

Lemma l_modify f : (forall r, errors_ (f r) = errors_ r) -> keeps errors_len (modify f).
Proof. intros Hf. apply keeps_modify. intros r. apply l_same, Hf. Qed.

Lemma l_update_channel a f : keeps errors_len (update_channel a f).
Proof.
  intros r u r' H. unfold update_channel in H.
  destruct (store r !! a); inversion H. now apply l_same.
Qed.

Lemma l_update_errors pl f : keeps errors_len (update_errors pl f).
Proof.
  intros r u r' H. unfold update_errors in H.
  destruct (errors_ r !! pl); inversion H. unfold errors_len. simpl.
  apply length_insert.
Qed.

Lemma l_sleep_ms ms : keeps errors_len (sleep_ms bots ms).
Proof. apply l_modify. reflexivity. Qed.

Lemma l_log l : keeps errors_len (log l).
Proof. apply l_modify. reflexivity. Qed.

Lemma l_alloc c : keeps errors_len (alloc c).
Proof. intros r a r' H. inversion H. now apply l_same. Qed.

Lemma l_assign_slot get set pl v :
  (forall x r, errors_ (set x r) = errors_ r) ->
  keeps errors_len (assign_slot get set pl v).
Proof.
  intros Hs r a r' H. unfold assign_slot in H.
  destruct (decide _); inversion H. apply l_same, Hs.
Qed.

End Over.

Create HintDb elen.

#[local] Hint Resolve l_ret l_fatal l_gets l_channel_at l_get_channel l_errors_at
  l_executable_at l_channels_back l_join l_update_channel l_update_errors l_sleep_ms
  l_log l_alloc : elen.

Ltac elen_step :=
  first
    [ solve [eauto with elen]
    | apply l_for_each; intros ?
    | apply l_bind; [| intros ?]
    | apply l_modify; intros ?; reflexivity
    | apply l_assign_slot; intros ? ?; reflexivity
    | match goal with
      | |- keeps errors_len (if ?b then _ else _) => destruct b
      | |- keeps errors_len (match ?x with _ => _ end) => destruct x
      | |- keeps errors_len (let '(_, _) := ?x in _) => destruct x
      end ].

Ltac elen_tac := repeat elen_step.

Section Printable.

Context {G : Game} {RE : RandomEngine}.
Variable bots : nat -> nat -> Outcome.
Variable show_double : Q -> string.

Lemma l_send_handshake pl : keeps errors_len (send_handshake pl).
Proof. unfold send_handshake, send_setup, StartRead, write. elen_tac. Qed.

Lemma l_CancelReadBlocking a : keeps errors_len (CancelReadBlocking a).
Proof. apply keeps_CancelReadBlocking, l_update_channel. Qed.

Lemma l_CheckResponse e pl : keeps errors_len (CheckResponse e pl).
Proof. unfold CheckResponse. pose proof l_CancelReadBlocking. elen_tac. Qed.

Lemma l_StartPlayer pl : keeps errors_len (StartPlayer bots pl).
Proof.
  unfold StartPlayer. pose proof l_send_handshake. pose proof l_CheckResponse. elen_tac.
Qed.

Lemma l_ShutDownPlayer pl : keeps errors_len (ShutDownPlayer pl).
Proof. unfold ShutDownPlayer. elen_tac. Qed.

Lemma l_RestartPlayer pl : keeps errors_len (RestartPlayer bots pl).
Proof.
  unfold RestartPlayer. pose proof l_ShutDownPlayer. pose proof l_StartPlayer. elen_tac.
Qed.

Lemma l_TournamentOver : keeps errors_len (TournamentOver bots).
Proof. unfold TournamentOver, for_players, write. elen_tac. Qed.

Lemma l_disqualification_update pls match_ thr : forall results,
  keeps errors_len (disqualification_update bots pls match_ thr results).
Proof.
  induction pls as [|pl pls IH]; intros results; simpl;
    pose proof l_TournamentOver; pose proof l_RestartPlayer;
    unfold corrupted_match_due; elen_tac.
Qed.

(** The loop of lines 406 to 416 reads the counters of every player of the
    list. *)
Lemma errors_logged (returns : list Q) (pls : list nat) : forall r r',
  for_each pls (fun pl =>
    let* ret_pl := at_index "returns out of range" returns pl in
    let* _ := log (LogBotReturns pl ret_pl) in
    let* e := errors_at pl in
    log (LogBotErrors pl e)) r = Ok tt r' ->
  errors_ r' = errors_ r /\ forall pl, pl ∈ pls -> is_Some (errors_ r !! pl).
Proof.
  induction pls as [|p pls IH]; intros r r' H; simpl in H.
  - inversion H. subst. split; [done|]. intros pl Hpl. inversion Hpl.
  - apply bind_Ok in H as ([] & r1 & H1 & H).
    apply bind_Ok in H1 as (x & r2 & Hx & H1).
    unfold at_index in Hx. destruct (returns !! p); [|discriminate].
    inversion Hx. subst x r2. clear Hx.
    apply bind_Ok in H1 as ([] & r3 & Hl & H1). inversion Hl. subst r3. clear Hl.
    apply bind_Ok in H1 as (e & r4 & He & Hl).
    unfold errors_at in He. simpl in He.
    destruct (errors_ r !! p) as [e0|] eqn:Ee; [|discriminate].
    inversion He. subst. clear He. inversion Hl. subst r1. clear Hl.
    apply IH in H as (E & Hall). simpl in E, Hall. split; [exact E|].
    intros pl Hpl. apply elem_of_cons in Hpl as [->|Hpl]; [now rewrite Ee | now apply Hall].
Qed.

(** After a match there is an entry of errors for every bot. *)
Lemma PlayMatch_errors_present fuel r state r' :
  PlayMatch bots fuel r = Ok state r' ->
  (num_bots r <= length (errors_ r'))%nat.
Proof.
  intros H. unfold PlayMatch in H.
  apply bind_Ok in H as (n & r0 & Hn & H). inversion Hn. subst n r0. clear Hn.
  destruct (negb _); [discriminate|].
  apply bind_Ok in H as (st & r0 & Hs & H). inversion Hs. subst st r0. clear Hs.
  apply bind_Ok in H as (pls & r0 & Hp & H). inversion Hp. subst pls r0. clear Hp.
  apply bind_Ok in H as (? & r1 & _ & H).
  apply bind_Ok in H as (? & r2 & _ & H).
  apply bind_Ok in H as (? & r3 & _ & H).
  apply bind_Ok in H as (state1 & r4 & _ & H).
  apply bind_Ok in H as (? & r5 & _ & H).
  apply bind_Ok in H as (? & r6 & _ & H).
  apply bind_Ok in H as ([] & r7 & Hlog & H).
  apply errors_logged in Hlog as (E & Hall).
  apply bind_Ok in H as (? & r8 & H8 & H). apply l_sleep_ms in H8.
  apply bind_Ok in H as (? & r9 & H9 & H). apply g_CheckResponses in H9 as [H9 _].
  inversion H. subst. clear H.
  rewrite H9, H8, E.
  destruct (num_bots r) as [|k] eqn:Ek; [lia|].
  destruct (Hall k) as [e He]; [unfold players; rewrite Ek; apply elem_of_seq; lia|].
  apply lookup_lt_Some in He. lia.
Qed.

Lemma update_statistics_num_bots match_ returns pls : forall res r res' r',
  update_statistics match_ returns pls res r = Ok res' r' ->
  num_bots_ res' = num_bots_ res.
Proof.
  induction pls as [|p pls IH]; intros res r res' r' H; simpl in H.
  - inversion H. done.
  - apply bind_Ok in H as (x & r1 & _ & H). now apply IH in H.
Qed.

Lemma disqualification_update_num_bots pls match_ thr :
  forall res r returned res' r',
  disqualification_update bots pls match_ thr res r = Ok (returned, res') r' ->
  num_bots_ res' = num_bots_ res /\ matches res' = matches res.
Proof.
  induction pls as [|pl pls IH]; intros res r returned res' r' H; simpl in H.
  - inversion H. done.
  - apply bind_Ok in H as (due & r1 & _ & H). destruct (negb due).
    + now apply IH in H.
    + apply bind_Ok in H as (? & r2 & _ & H).
      simpl in H. destruct (_ <? _).
      * apply bind_Ok in H as (? & r3 & _ & H).
        apply bind_Ok in H as (? & r4 & _ & H). inversion H. done.
      * apply bind_Ok in H as (? & r3 & _ & H).
        apply bind_Ok in H as (? & r4 & _ & H).
        now apply IH in H.
Qed.

Lemma check_start_num_bots pls start_ok num_matches : forall all_ok results,
  num_bots_ (check_start pls start_ok num_matches all_ok results).2 = num_bots_ results.
Proof.
  induction pls as [|pl pls IH]; intros all_ok results; simpl; [done|].
  rewrite IH. now destruct (negb _).
Qed.

Lemma tournament_loop_printable fuel nm thr : forall todo res r res' r',
  tournament_loop bots fuel nm thr todo res r = Ok res' r' ->
  printable (num_bots r) res ->
  printable (num_bots r) res'.
Proof.
  induction todo as [|m todo IH]; intros res r res' r' H Hp.
  - simpl in H.
    apply bind_Ok in H as (? & ? & _ & H). apply bind_Ok in H as (? & ? & _ & H).
    apply bind_Ok in H as (? & ? & _ & H). inversion H. now subst.
  - cbn [tournament_loop] in H.
    apply bind_Ok in H as ([] & r1 & H1 & H). inversion H1. subst r1. clear H1.
    apply bind_Ok in H as ([] & r2 & H2 & H).
    pose proof (q_ResetErrorTracking _ _ _ H2) as (E2 & _). cbn in E2.
    apply bind_Ok in H as (state & r3 & HPM & H).
    pose proof (PlayMatch_log _ _ _ _ _ HPM) as (E3 & _ & _ & Hret).
    pose proof (PlayMatch_errors_present _ _ _ _ HPM) as Herr.
    assert (Hn2 : num_bots r2 = num_bots r) by (unfold num_bots; congruence).
    assert (Hn3 : num_bots r3 = num_bots r) by (unfold num_bots; congruence).
    apply bind_Ok in H as (pls & r4 & Hpl & H). inversion Hpl. subst pls r4. clear Hpl.
    apply bind_Ok in H as (res1 & r5 & Hs & H).
    pose proof (update_statistics_num_bots _ _ _ _ _ _ _ Hs) as N1.
    apply update_statistics_fields in Hs as (-> & M1 & _).
    apply bind_Ok in H as ([returned res2] & r6 & Hdq & H).
    pose proof (q_disqualification_update bots _ _ _ _ _ _ _ Hdq) as (E6 & _).
    pose proof (l_disqualification_update _ _ _ _ _ _ _ Hdq) as L6.
    pose proof (disqualification_update_num_bots _ _ _ _ _ _ _ _ Hdq) as [N2 M2].
    cbn [matches num_bots_ update_history_len set_history_len_mean] in M1, N1.
    destruct Hp as [Hnb Hall].
    destruct returned.
    + inversion H. subst. split; [congruence|]. now rewrite M2, M1.
    + apply bind_Ok in H as (errs & r7 & He & H). inversion He. subst errs r7. clear He.
      assert (Hn6 : num_bots r6 = num_bots r) by (unfold num_bots in *; congruence).
      apply IH in H; [now rewrite Hn6 in H|].
      rewrite Hn6. split; [cbn; congruence|].
      cbn [matches push_match]. rewrite M2, M1.
      apply Forall_app. split; [exact Hall|].
      constructor; [|constructor]. intros pl Hpl. cbn [terminal errors]. split.
      * destruct (Hret pl) as (x & Ex & _); [lia|]. now rewrite Ex.
      * apply lookup_lt_is_Some_2. rewrite L6. lia.
Qed.

Lemma csv_entries_defined m pls :
  (forall pl, pl ∈ pls ->
     is_Some (Returns (terminal m) !! pl) /\ is_Some (errors m !! pl)) ->
  is_Some (csv_entries show_double m pls).
Proof.
  induction pls as [|p pls IH]; intros Hall; simpl; [eauto|].
  destruct (Hall p) as [[x Hx] [e He]]; [apply elem_of_cons; by left|].
  destruct IH as [rest Hrest]; [intros pl Hpl; apply Hall, elem_of_cons; by right|].
  unfold csv_entry. rewrite Hx, He, Hrest. eauto.
Qed.

Lemma csv_rows_defined n ms :
  Forall (fun m => forall pl, (pl < n)%nat ->
            is_Some (Returns (terminal m) !! pl) /\ is_Some (errors m !! pl)) ms ->
  is_Some (csv_rows show_double n ms).
Proof.
  induction 1 as [|m ms Hm _ IH]; simpl; [eauto|].
  destruct (csv_entries_defined m (seq 0 n)) as [entries He].
  { intros pl Hpl. apply Hm. apply elem_of_seq in Hpl. lia. }
  destruct IH as [rest Hrest]. unfold csv_row. rewrite He, Hrest. eauto.
Qed.

(** X30: the results of a tournament can be printed.  For the results
    that [PlayTournament] returns, [PrintCsv] reads no entry past the end of
    [Returns()] or of the errors of a match: every recorded match holds a
    return and an entry of errors for each of the [num_bots] bots. *)
Theorem PrintCsv_is_defined_on_the_results (fuel : nat) (num_matches : Z)
    (r : Referee) (results : TournamentResults) (r' : Referee) (print_header : bool) :
  PlayTournament bots fuel num_matches r = Ok results r' ->
  num_bots_ results = num_bots r
  /\ exists out, PrintCsv show_double results print_header = Some out.
Proof.
  intros H.
  assert (Hp : printable (num_bots r) results).
  { apply PlayTournament_cases in H as (start_ok & r1 & HSP & [Hfail|Hrun]).
    - destruct Hfail as (_ & -> & _). split.
      + now rewrite check_start_num_bots.
      + pose proof (check_start_spec start_ok num_matches (players r1) true
                      (NewTournamentResults (num_bots r))) as (_ & A2 & _).
        cbv zeta in A2. rewrite A2. constructor.
    - destruct Hrun as (_ & thr & Ethr & Hloop).
      pose proof (q_StartPlayers bots _ _ _ HSP) as (E1 & _).
      assert (Hn1 : num_bots r1 = num_bots r) by (unfold num_bots; congruence).
      apply tournament_loop_printable in Hloop; [now rewrite Hn1 in Hloop|].
      rewrite Hn1. split; [reflexivity | constructor]. }
  destruct Hp as [Hn Hall]. split; [exact Hn|].
  unfold PrintCsv. rewrite Hn.
  destruct (csv_rows_defined _ _ Hall) as [rows Hrows]. rewrite Hrows. eauto.
Qed.

End Printable.

(** ** The properties at work on small inputs *)

Lemma getline_async_reads_a_line_witness :
  getline_async (reads_of "ready" ++ ReadChar nl :: [ReadChar "x"%char]) "start" "" 
  = (true, "" +:+ "ready", "", [ReadChar "x"%char]).
Proof. apply (getline_async_reads_a_line "ready"). reflexivity. Defined.

Lemma getline_async_joins_the_pieces_witness :
  let first :=
    getline_async_istream (stream_of "re" ++ None :: stream_of "ady" ++ Some nl :: [])
      "start" "" in
  first = (false, "", "" +:+ "re", (stream_of "ady" ++ Some nl :: [])%list)
  /\ getline_async_istream first.2 first.1.1.2 first.1.2
     = (true, "" +:+ "re" +:+ "ady", "", []).
Proof. apply (getline_async_joins_the_pieces "re" "ady" [] "start" ""); reflexivity. Defined.

Lemma getline_async_waits_for_the_newline_witness :
  getline_async
    ((ReadError :: reads_of "re" ++ ReadError :: ReadError :: reads_of "ady")
     ++ ReadChar nl :: [ReadChar "x"%char]) "start" ""
  = (true, "ready", "", [ReadChar "x"%char]).
Proof.
  apply (getline_async_waits_for_the_newline
           (ReadError :: reads_of "re" ++ ReadError :: ReadError :: reads_of "ady")
           [ReadChar "x"%char] "start" ""); reflexivity.
Defined.

Lemma a_line_in_the_pipe_beats_the_deadline_witness :
  let cycle := read_cycle (mkPoll 999 true false :: [])
                 (reads_of "ponder" ++ ReadChar nl :: [])
                 (start_read 50 channel_after_start) in
  cycle.1.1 = Parked
  /\ response cycle.1.2 = buf_ channel_after_start +:+ "ponder"
  /\ is_time_out cycle.1.2 = false
  /\ wait_for_message_ cycle.1.2 = true
  /\ cycle.2 = [].
Proof.
  apply (a_line_in_the_pipe_beats_the_deadline channel_after_start 50
           (mkPoll 999 true false) [] "ponder" []).
  reflexivity.
Defined.

Lemma a_late_line_answers_its_own_cycle_witness :
  let first := read_cycle (mkPoll 999 false false :: [])
                 ((ReadError :: ReadError :: reads_of "ready")
                  ++ ReadChar nl :: [ReadError])
                 (start_read 50 (MakeBotChannel 0 "bot0")) in
  let second := read_cycle (mkPoll 1 false false :: []) first.2
                  (start_read 100 first.1.2) in
  first.1.1 = Parked
  /\ response first.1.2 = "ready"
  /\ is_time_out first.1.2 = false
  /\ first.2 = [ReadError]
  /\ response second.1.2 = "".
Proof.
  apply (a_late_line_answers_its_own_cycle (MakeBotChannel 0 "bot0") 50 100
           (mkPoll 999 false false) (mkPoll 1 false false) [] []
           (ReadError :: ReadError :: reads_of "ready") [ReadError]).
  - reflexivity.
  - reflexivity.
  - intros [H|[]]. discriminate H.
Defined.

Lemma StartRead_twice_stops_witness :
  exists r1,
    StartRead 0 100 started1 = Ok tt r1
    /\ StartRead 0 50 r1 = Fatal "SPIEL_CHECK_TRUE(wait_for_message_)".
Proof.
  eexists. split; [vm_compute; reflexivity|].
  eapply (StartRead_twice_stops 0 100 50 started1).
  vm_compute; reflexivity.
Defined.

Lemma CheckResponses_charges_each_bot_witness :
  exists oks r',
    CheckResponses "start" started2 = Ok oks r'
    /\ oks = [false; false]
    /\ errors_ r' = [mkBotErrors 1 0 0 0; mkBotErrors 1 0 0 0]
    /\ forall pl : nat, (pl < num_bots started2)%nat ->
         exists a c,
           channels_ started2 !! pl = Some (Some a) /\ store started2 !! a = Some c
           /\ oks !! pl = Some (String.eqb (response c) "start")
           /\ errors_ r' !! pl = charged "start" c <$> errors_ started2 !! pl.
Proof.
  eexists _, _. split; [vm_compute; reflexivity|].
  split; [reflexivity|]. split; [reflexivity|].
  eapply (CheckResponses_charges_each_bot "start" started2).
  vm_compute; reflexivity.
Defined.

Lemma after_a_reset_no_bot_is_due_witness :
  exists r1,
    ResetErrorTracking referee_with_error = Ok tt r1
    /\ errors_ r1 !! 0%nat = Some Reset
    /\ corrupted_match_due 0 r1
       = Ok (max_invalid_behaviors (settings_ referee_with_error) <? 0) r1.
Proof.
  apply (after_a_reset_no_bot_is_due referee_with_error 0). simpl. lia.
Defined.

Lemma ConstructReferee_reports_the_first_bad_file_witness :
  let stop : Result (Referee (RE := LowRng)) unit :=
    Fatal (if fs_exists some_files "bot1"
           then "The bot file '" +:+ "bot1" +:+ "' cannot be executed. (missing +x flag?)"
           else "The bot file '" +:+ "bot1" +:+ "' was not found.") in
  ConstructReferee_body (RE := LowRng) some_files "turn" (["bot0"] ++ "bot1" :: ["bot2"])
    0 (settings0 3 1) = stop
  /\ forall engine, initialisers engine "turn" = None ->
       ConstructReferee (RE := LowRng) engine some_files "turn"
         (["bot0"] ++ "bot1" :: ["bot2"]) 0 (settings0 3 1) = stop.
Proof.
  apply (ConstructReferee_reports_the_first_bad_file (RE := LowRng) some_files "turn"
           ["bot0"] "bot1" ["bot2"] 0 (settings0 3 1)).
  - repeat constructor.
  - right. reflexivity.
Defined.

Lemma an_answer_with_a_tail_is_a_protocol_error_witness :
  ParseResponse 0 (answered (to_string 1 +:+ String "013" ""))
    [0; 1] (kInvalidAction (Game := TurnGame 1)) started1
  = Ok (kInvalidAction (Game := TurnGame 1))
      (set_errors (<[0%nat := inc_protocol_error Reset]> (errors_ started1)) started1).
Proof.
  apply (an_answer_with_a_tail_is_a_protocol_error (G := TurnGame 1) 0
           (answered (to_string 1 +:+ String "013" "")) [0; 1] started1 Reset
           1 "013"%char "").
  - vm_compute; reflexivity.
  - reflexivity.
  - reflexivity.
  - reflexivity.
  - discriminate.
Defined.

Lemma a_legal_action_sent_back_is_kept_witness :
  (let* candidate := ParseResponse 0 (answered (to_string 1)) [0; 1]
                       (kInvalidAction (Game := TurnGame 1)) in
   PickAction (G := TurnGame 1) [0; 1] candidate) started1 = Ok 1 started1.
Proof.
  apply (a_legal_action_sent_back_is_kept (G := TurnGame 1) 0 (answered (to_string 1))
           [0; 1] started1 Reset 1).
  - vm_compute; reflexivity.
  - vm_compute; discriminate.
  - reflexivity.
  - simpl. tauto.
  - lia.
  - discriminate.
  - reflexivity.
Defined.

Lemma over_the_limit_the_answer_is_ignored_witness :
  exists a r',
    ParseResponse 0 (answered "1") [0; 1] (kInvalidAction (Game := TurnGame 1))
      over_limit1
    = Ok a r'
    /\ a = kInvalidAction (Game := TurnGame 1)
    /\ settings_ r' = settings_ over_limit1
    /\ exists e', errors_ r' !! 0%nat = Some e'
                  /\ total_errors (mkBotErrors 4 0 0 0) <= total_errors e'.
Proof.
  eexists _, _. split; [vm_compute; reflexivity|].
  eapply (over_the_limit_the_answer_is_ignored (G := TurnGame 1) 0 (answered "1")
            [0; 1] over_limit1 (mkBotErrors 4 0 0 0)).
  - vm_compute; reflexivity.
  - vm_compute; reflexivity.
  - vm_compute; reflexivity.
Defined.

Lemma PlayMatch_lowers_no_counter_witness :
  exists state r',
    PlayMatch (G := TurnGame 1) (answers "7") 5 started1 = Ok state r'
    /\ errors_ started1 = [mkBotErrors 0 0 0 0]
    /\ errors_ r' = [mkBotErrors 0 1 0 0]
    /\ length (errors_ r') = length (errors_ started1)
    /\ forall (pl : nat) e e',
         errors_ started1 !! pl = Some e -> errors_ r' !! pl = Some e' ->
         protocol_error e <= protocol_error e'
         /\ illegal_actions e <= illegal_actions e'
         /\ ponder_error e <= ponder_error e'
         /\ time_over e <= time_over e'.
Proof.
  eexists _, _. split; [vm_compute; reflexivity|].
  split; [vm_compute; reflexivity|]. split; [reflexivity|].
  eapply (PlayMatch_lowers_no_counter (G := TurnGame 1) (answers "7") 5 started1).
  vm_compute; reflexivity.
Defined.

Lemma recorded_matches_are_terminal_witness :
  exists results r',
    PlayTournament (G := TurnGame 1) zero_then_one 5 2 (referee1 3 (1 # 2)) = Ok results r'
    /\ map terminal (matches results) = [[0]; [1]]
    /\ Forall (fun m => IsTerminal (Game := TurnGame 1) (terminal m) = true)
         (matches results).
Proof.
  eexists _, _. split; [vm_compute; reflexivity|]. split; [reflexivity|].
  eapply (recorded_matches_are_terminal (G := TurnGame 1) zero_then_one 5 2
            (referee1 3 (1 # 2))).
  vm_compute; reflexivity.
Defined.

Lemma all_matches_but_the_disqualifying_one_are_recorded_witness :
  exists results r',
    PlayTournament (G := TurnGame 1) twice_wrong 5 3 (referee1 3 (1 # 2)) = Ok results r'
    /\ disqualified results = [true]
    /\ length (matches results) = 1%nat
    /\ matches_announced (log_ r') = [1; 2]
    /\ exists played : nat,
         matches_announced (log_ r')
         = (matches_announced (log_ (referee1 3 (1 # 2)))
            ++ map (fun i => Z.of_nat i + 1) (seq 0 played))%list
         /\ (played <= Z.to_nat 3)%nat
         /\ (length (matches results)
             + (if existsb id (disqualified results) then 1 else 0))%nat = played.
Proof.
  eexists _, _. split; [vm_compute; reflexivity|].
  split; [reflexivity|]. split; [reflexivity|]. split; [reflexivity|].
  eapply (all_matches_but_the_disqualifying_one_are_recorded (G := TurnGame 1)
            twice_wrong 5 3 (referee1 3 (1 # 2))).
  vm_compute; reflexivity.
Defined.

Lemma history_len_mean_is_the_mean_witness :
  exists results r',
    PlayTournament (G := TurnGame 1) twice_wrong 5 3 (referee1 3 (1 # 2)) = Ok results r'
    /\ exists last_played : list (State (Game := TurnGame 1)),
         length last_played = (if existsb id (disqualified results) then 1 else 0)%nat
         /\ (history_len_mean results
             == mean (map history_len (map terminal (matches results) ++ last_played)))%Q.
Proof.
  eexists _, _. split; [vm_compute; reflexivity|].
  eapply (history_len_mean_is_the_mean (G := TurnGame 1) twice_wrong 5 3
            (referee1 3 (1 # 2))).
  vm_compute; reflexivity.
Defined.

Lemma corrupted_matches_are_restarts_and_a_disqualification_witness :
  exists results r',
    PlayTournament (G := TurnGame 1) twice_wrong 5 3 (referee1 3 (1 # 2)) = Ok results r'
    /\ corrupted_matches results = [2]
    /\ restarts results = [1]
    /\ disqualified results = [true]
    /\ forall pl : nat, (pl < num_bots (referee1 3 (1 # 2)))%nat ->
         zat (corrupted_matches results) pl
         = zat (restarts results) pl + (if flag (disqualified results) pl then 1 else 0).
Proof.
  eexists _, _. split; [vm_compute; reflexivity|].
  split; [reflexivity|]. split; [reflexivity|]. split; [reflexivity|].
  eapply (corrupted_matches_are_restarts_and_a_disqualification (G := TurnGame 1)
            twice_wrong 5 3 (referee1 3 (1 # 2))).
  - vm_compute; reflexivity.
  - repeat constructor.
  - vm_compute; reflexivity.
Defined.

Lemma the_threshold_decides_the_disqualification_witness :
  corruption_threshold_of 100 double_0_29 = Some 28
  /\ corruption_threshold_of 10 double_0_7 = Some 7
  /\ exists results r',
       PlayTournament (G := TurnGame 1) twice_wrong 5 3 (referee1 3 (1 # 2))
       = Ok results r'
       /\ exists threshold : Z,
            corruption_threshold_of 3
              (disqualification_rate (settings_ (referee1 3 (1 # 2)))) = Some threshold
            /\ threshold
               = Qtruncate
                   (round_double
                      (inject_Z 3
                       * disqualification_rate (settings_ (referee1 3 (1 # 2)))))
            /\ forall pl : nat, (pl < num_bots (referee1 3 (1 # 2)))%nat ->
                 (flag (disqualified results) pl = true ->
                  threshold < zat (corrupted_matches results) pl)
                 /\ (flag (disqualified results) pl = false ->
                     zat (corrupted_matches results) pl = 0
                     \/ zat (corrupted_matches results) pl <= threshold)
                 /\ (zat (restarts results) pl = 0
                     \/ zat (restarts results) pl <= threshold).
Proof.
  split; [vm_compute; reflexivity|]. split; [vm_compute; reflexivity|].
  eexists _, _. split; [vm_compute; reflexivity|].
  eapply (the_threshold_decides_the_disqualification (G := TurnGame 1)
            twice_wrong 5 3 (referee1 3 (1 # 2))).
  - vm_compute; reflexivity.
  - repeat constructor.
  - vm_compute; reflexivity.
Defined.

Lemma StartPlayers_greets_every_bot_witness :
  StartPlayers (G := TurnGame 2) ready_and_silent (referee2 3 1) = Hang
  /\ exists (oks : list bool) r1,
       StartPlayers (G := TurnGame 2) banana (referee2 3 1) = Ok oks r1
       /\ forall pl : nat, (pl < num_bots (referee2 3 1))%nat ->
            exists a c,
              oks !! pl = Some (answers_ready (banana (clock (referee2 3 1)) pl))
              /\ channels_ r1 !! pl = Some (Some a)
              /\ threads_stdout_ r1 !! pl = Some (Some a)
              /\ threads_stderr_ r1 !! pl = Some (Some a)
              /\ store r1 !! a = Some c
              /\ bot_index_ c = pl
              /\ executables_ (referee2 3 1) !! pl = Some (executable_ c)
              /\ stdin_ c = game_name_ (referee2 3 1) +:+ endl
                            +:+ String (pl_char pl) "" +:+ endl
              /\ shutdown_ c = false
              /\ wait_for_message_ c = true.
Proof.
  assert (F : fresh (referee2 3 1)) by (repeat split).
  split.
  - apply (proj1 (StartPlayers_greets_every_bot (G := TurnGame 2) ready_and_silent
                    (referee2 3 1) F eq_refl)).
    exists 1%nat. split; [vm_compute; lia | reflexivity].
  - apply (proj2 (StartPlayers_greets_every_bot (G := TurnGame 2) banana
                    (referee2 3 1) F eq_refl)).
    intros [|[|pl]] Hpl; [discriminate | discriminate | vm_compute in Hpl; lia].
Defined.


Lemma a_second_restart_never_returns_witness :
  exists ok r1,
    StartPlayer always_ready 0 shut0 = Ok ok r1
    /\ RestartPlayer always_ready 0 r1 = Hang.
Proof.
  eexists _, _. split; [vm_compute; reflexivity|].
  eapply (a_second_restart_never_returns always_ready 0 shut0).
  - vm_compute; reflexivity.
  - vm_compute. lia.
  - vm_compute; reflexivity.
  - vm_compute; reflexivity.
  - reflexivity.
Defined.

Lemma StartPlayer_only_hears_the_last_bot_witness :
  exists ok r1,
    StartPlayer always_ready 0 shut0 = Ok ok r1
    /\ always_ready (clock shut0) 0 = Line "ready"
    /\ ok = false
    /\ exists a c, channels_ r1 !! 0%nat = Some (Some a) /\ store r1 !! a = Some c
                   /\ response c = "".
Proof.
  eexists _, _. split; [vm_compute; reflexivity|]. split; [vm_compute; reflexivity|].
  eapply (StartPlayer_only_hears_the_last_bot always_ready 0 shut0).
  - vm_compute; reflexivity.
  - vm_compute. lia.
  - vm_compute; reflexivity.
  - vm_compute. lia.
  - assert (E : threads_stdout_ shut0 = [None; Some 1%nat]) by (vm_compute; reflexivity).
    assert (Es : length (store shut0) = 2%nat) by (vm_compute; reflexivity).
    rewrite E, Es.
    constructor; [intros x Hx; inversion Hx|].
    constructor; [intros x Hx; inversion Hx; subst; lia | constructor].
Defined.

Lemma no_match_after_the_restart_of_a_bot_but_the_last_witness :
  exists ok r1,
    StartPlayer always_ready 0 shut0 = Ok ok r1
    /\ exists msg, PlayMatch (G := TurnGame 2) always_ready 5 r1 = Fatal msg.
Proof.
  eexists _, _. split; [vm_compute; reflexivity|].
  eapply (no_match_after_the_restart_of_a_bot_but_the_last (G := TurnGame 2)
            always_ready 5 0 shut0).
  - vm_compute; reflexivity.
  - vm_compute. lia.
  - vm_compute; reflexivity.
  - vm_compute. lia.
  - assert (E : threads_stdout_ shut0 = [None; Some 1%nat]) by (vm_compute; reflexivity).
    assert (Es : length (store shut0) = 2%nat) by (vm_compute; reflexivity).
    rewrite E, Es.
    constructor; [intros x Hx; inversion Hx|].
    constructor; [intros x Hx; inversion Hx; subst; lia | constructor].
Defined.

Lemma show_integer_part_has_no ch q :
  is_digit ch = false -> ch <> "-"%char -> count_char ch (show_integer_part q) = 0%nat.
Proof. intros H1 H2. now apply count_char_to_string. Qed.

Lemma csv_header_and_rows_disagree_witness :
  exists row,
    csv_row show_integer_part 2 match_0_1 = Some row
    /\ row = "0 1,0,0,0,0,0,1,0,0,0,0" +:+ endl
    /\ csv_header 2
       = "history,returns[0],protocol_error[0],illegal_actions[0],ponder_error[0],"
         +:+ "time_over[0]returns[1],protocol_error[1],illegal_actions[1],"
         +:+ "ponder_error[1],time_over[1]" +:+ endl
    /\ count_char "," (csv_header 2) = (1 + 4 * 2)%nat
    /\ count_char "," row = (5 * 2)%nat
    /\ (count_char "," (csv_header 2) = count_char "," row <-> 2%nat = 1%nat).
Proof.
  eexists. split; [vm_compute; reflexivity|]. split; [reflexivity|].
  split; [vm_compute; reflexivity|].
  eapply (csv_header_and_rows_disagree (G := TurnGame 2) show_integer_part 2 match_0_1).
  - intros q. apply show_integer_part_has_no; [reflexivity | discriminate].
  - vm_compute; reflexivity.
Defined.

Lemma PrintCsv_writes_a_line_for_each_match_witness :
  exists out,
    PrintCsv show_integer_part results_0_1 true = Some out
    /\ count_char nl out
       = ((if true then 1 else 0) + length (matches results_0_1))%nat.
Proof.
  eexists. split; [vm_compute; reflexivity|].
  eapply (PrintCsv_writes_a_line_for_each_match (G := TurnGame 2) show_integer_part
            results_0_1 true).
  - intros q. apply show_integer_part_has_no; [reflexivity | discriminate].
  - vm_compute; reflexivity.
Defined.


Lemma TournamentOver_tells_every_bot_witness :
  exists r',
    TournamentOver always_ready started2 = Ok tt r'
    /\ clock r' = S (clock started2)
    /\ errors_ r' = errors_ started2
    /\ log_ r' = log_ started2
    /\ forall (pl a : nat) c,
         (pl < num_bots started2)%nat ->
         channels_ started2 !! pl = Some (Some a) -> store started2 !! a = Some c ->
         exists c', store r' !! a = Some c'
                    /\ stdin_ c' = stdin_ c +:+ kTournamentOverMessage +:+ endl.
Proof.
  assert (E : channels_ started2 = [Some 0%nat; Some 1%nat]) by (vm_compute; reflexivity).
  assert (L : length (store started2) = 2%nat) by (vm_compute; reflexivity).
  apply (TournamentOver_tells_every_bot always_ready started2).
  - vm_compute. lia.
  - rewrite E, L.
    constructor; [exists 0%nat; split; [reflexivity | lia]|].
    constructor; [exists 1%nat; split; [reflexivity | lia] | constructor].
  - rewrite E. apply (bool_decide_unpack _). vm_compute. reflexivity.
Defined.

Lemma PrintCsv_is_defined_on_the_results_witness :
  exists results r',
    PlayTournament (G := TurnGame 1) zero_then_one 5 2 (referee1 3 (1 # 2)) = Ok results r'
    /\ length (matches results) = 2%nat
    /\ num_bots_ results = num_bots (referee1 3 (1 # 2))
    /\ exists out, PrintCsv show_integer_part results true = Some out.
Proof.
  eexists _, _. split; [vm_compute; reflexivity|]. split; [reflexivity|].
  eapply (PrintCsv_is_defined_on_the_results (G := TurnGame 1) zero_then_one
            show_integer_part 5 2 (referee1 3 (1 # 2))).
  vm_compute; reflexivity.
Defined.
